(** * Prova block-chain engine: error taxonomy and block acceptance

    Part I embeds [blockchain/error.go]: the assertion error, the error
    codes with their name table, and the rule error.  Part II models the
    block acceptance pipeline that the full-block test harness drives
    through [ProcessBlock]. *)

From stdpp Require Import gmap strings list fin_maps sorting pretty.

Open Scope Z_scope.

(** ** Part I: blockchain/error.go *)

(** [type AssertError string]: a defined type over [string]; the record
    keeps it apart from plain strings and from every other error type. *)
Record AssertError : Type := MkAssertError { AssertError_string : string }.

(** [func (e AssertError) Error() string] *)
Definition AssertError_Error (e : AssertError) : string :=
  "assertion failed: " +:+ AssertError_string e.

(** [type ErrorCode int]: error codes are machine integers. *)
Abbreviation ErrorCode := Z (only parsing).

(** The [const ( ... = iota ... )] block: the i-th identifier of the block
    receives the value i. *)
Definition ErrDuplicateBlock : ErrorCode := 0.
Definition ErrBlockTooBig : ErrorCode := 1.
Definition ErrBlockVersionTooOld : ErrorCode := 2.
Definition ErrInvalidTime : ErrorCode := 3.
Definition ErrTimeTooOld : ErrorCode := 4.
Definition ErrTimeTooNew : ErrorCode := 5.
Definition ErrDifficultyTooLow : ErrorCode := 6.
Definition ErrUnexpectedDifficulty : ErrorCode := 7.
Definition ErrBadHeight : ErrorCode := 8.
Definition ErrBadBlockSignature : ErrorCode := 9.
Definition ErrHighHash : ErrorCode := 10.
Definition ErrBadMerkleRoot : ErrorCode := 11.
Definition ErrBadCheckpoint : ErrorCode := 12.
Definition ErrForkTooOld : ErrorCode := 13.
Definition ErrCheckpointTimeTooOld : ErrorCode := 14.
Definition ErrNoTransactions : ErrorCode := 15.
Definition ErrTooManyTransactions : ErrorCode := 16.
Definition ErrNoTxInputs : ErrorCode := 17.
Definition ErrNoTxOutputs : ErrorCode := 18.
Definition ErrTxTooBig : ErrorCode := 19.
Definition ErrBadTxOutValue : ErrorCode := 20.
Definition ErrDuplicateTxInputs : ErrorCode := 21.
Definition ErrBadTxInput : ErrorCode := 22.
Definition ErrMissingTx : ErrorCode := 23.
Definition ErrUnfinalizedTx : ErrorCode := 24.
Definition ErrDuplicateTx : ErrorCode := 25.
Definition ErrOverwriteTx : ErrorCode := 26.
Definition ErrImmatureSpend : ErrorCode := 27.
Definition ErrDoubleSpend : ErrorCode := 28.
Definition ErrSpendTooHigh : ErrorCode := 29.
Definition ErrBadFees : ErrorCode := 30.
Definition ErrTooManySigOps : ErrorCode := 31.
Definition ErrFirstTxNotCoinbase : ErrorCode := 32.
Definition ErrMultipleCoinbases : ErrorCode := 33.
Definition ErrBadCoinbaseScriptLen : ErrorCode := 34.
Definition ErrBadCoinbaseValue : ErrorCode := 35.
Definition ErrScriptMalformed : ErrorCode := 36.
Definition ErrScriptValidation : ErrorCode := 37.
Definition ErrExcessiveChainShare : ErrorCode := 38.
Definition ErrExcessiveTrailing : ErrorCode := 39.
Definition ErrInconsistentBlkSize : ErrorCode := 40.
Definition ErrInvalidCoinbase : ErrorCode := 41.
Definition ErrInvalidTx : ErrorCode := 42.
Definition ErrInvalidValidateKey : ErrorCode := 43.
Definition ErrInvalidAdminTx : ErrorCode := 44.
Definition ErrInvalidAdminOp : ErrorCode := 45.
Definition ErrFeeTooHigh : ErrorCode := 46.

(** The identifiers of the const block, in declaration order. *)
Definition constBlock : list string := [
  "ErrDuplicateBlock";
  "ErrBlockTooBig";
  "ErrBlockVersionTooOld";
  "ErrInvalidTime";
  "ErrTimeTooOld";
  "ErrTimeTooNew";
  "ErrDifficultyTooLow";
  "ErrUnexpectedDifficulty";
  "ErrBadHeight";
  "ErrBadBlockSignature";
  "ErrHighHash";
  "ErrBadMerkleRoot";
  "ErrBadCheckpoint";
  "ErrForkTooOld";
  "ErrCheckpointTimeTooOld";
  "ErrNoTransactions";
  "ErrTooManyTransactions";
  "ErrNoTxInputs";
  "ErrNoTxOutputs";
  "ErrTxTooBig";
  "ErrBadTxOutValue";
  "ErrDuplicateTxInputs";
  "ErrBadTxInput";
  "ErrMissingTx";
  "ErrUnfinalizedTx";
  "ErrDuplicateTx";
  "ErrOverwriteTx";
  "ErrImmatureSpend";
  "ErrDoubleSpend";
  "ErrSpendTooHigh";
  "ErrBadFees";
  "ErrTooManySigOps";
  "ErrFirstTxNotCoinbase";
  "ErrMultipleCoinbases";
  "ErrBadCoinbaseScriptLen";
  "ErrBadCoinbaseValue";
  "ErrScriptMalformed";
  "ErrScriptValidation";
  "ErrExcessiveChainShare";
  "ErrExcessiveTrailing";
  "ErrInconsistentBlkSize";
  "ErrInvalidCoinbase";
  "ErrInvalidTx";
  "ErrInvalidValidateKey";
  "ErrInvalidAdminTx";
  "ErrInvalidAdminOp";
  "ErrFeeTooHigh"
].

(** The declared constants, in declaration order. *)
Definition definedCodes : list ErrorCode := [
  ErrDuplicateBlock;
  ErrBlockTooBig;
  ErrBlockVersionTooOld;
  ErrInvalidTime;
  ErrTimeTooOld;
  ErrTimeTooNew;
  ErrDifficultyTooLow;
  ErrUnexpectedDifficulty;
  ErrBadHeight;
  ErrBadBlockSignature;
  ErrHighHash;
  ErrBadMerkleRoot;
  ErrBadCheckpoint;
  ErrForkTooOld;
  ErrCheckpointTimeTooOld;
  ErrNoTransactions;
  ErrTooManyTransactions;
  ErrNoTxInputs;
  ErrNoTxOutputs;
  ErrTxTooBig;
  ErrBadTxOutValue;
  ErrDuplicateTxInputs;
  ErrBadTxInput;
  ErrMissingTx;
  ErrUnfinalizedTx;
  ErrDuplicateTx;
  ErrOverwriteTx;
  ErrImmatureSpend;
  ErrDoubleSpend;
  ErrSpendTooHigh;
  ErrBadFees;
  ErrTooManySigOps;
  ErrFirstTxNotCoinbase;
  ErrMultipleCoinbases;
  ErrBadCoinbaseScriptLen;
  ErrBadCoinbaseValue;
  ErrScriptMalformed;
  ErrScriptValidation;
  ErrExcessiveChainShare;
  ErrExcessiveTrailing;
  ErrInconsistentBlkSize;
  ErrInvalidCoinbase;
  ErrInvalidTx;
  ErrInvalidValidateKey;
  ErrInvalidAdminTx;
  ErrInvalidAdminOp;
  ErrFeeTooHigh
].
(** [var errorCodeStrings = map[ErrorCode]string{ ... }] *)
Definition errorCodeStrings : gmap Z string := list_to_map [
  (ErrDuplicateBlock, "ErrDuplicateBlock");
  (ErrBlockTooBig, "ErrBlockTooBig");
  (ErrBlockVersionTooOld, "ErrBlockVersionTooOld");
  (ErrInvalidTime, "ErrInvalidTime");
  (ErrTimeTooOld, "ErrTimeTooOld");
  (ErrTimeTooNew, "ErrTimeTooNew");
  (ErrDifficultyTooLow, "ErrDifficultyTooLow");
  (ErrUnexpectedDifficulty, "ErrUnexpectedDifficulty");
  (ErrBadHeight, "ErrBadHeight");
  (ErrBadBlockSignature, "ErrBadBlockSignature");
  (ErrHighHash, "ErrHighHash");
  (ErrBadMerkleRoot, "ErrBadMerkleRoot");
  (ErrBadCheckpoint, "ErrBadCheckpoint");
  (ErrForkTooOld, "ErrForkTooOld");
  (ErrCheckpointTimeTooOld, "ErrCheckpointTimeTooOld");
  (ErrNoTransactions, "ErrNoTransactions");
  (ErrTooManyTransactions, "ErrTooManyTransactions");
  (ErrNoTxInputs, "ErrNoTxInputs");
  (ErrNoTxOutputs, "ErrNoTxOutputs");
  (ErrTxTooBig, "ErrTxTooBig");
  (ErrBadTxOutValue, "ErrBadTxOutValue");
  (ErrDuplicateTxInputs, "ErrDuplicateTxInputs");
  (ErrBadTxInput, "ErrBadTxInput");
  (ErrMissingTx, "ErrMissingTx");
  (ErrUnfinalizedTx, "ErrUnfinalizedTx");
  (ErrDuplicateTx, "ErrDuplicateTx");
  (ErrOverwriteTx, "ErrOverwriteTx");
  (ErrImmatureSpend, "ErrImmatureSpend");
  (ErrDoubleSpend, "ErrDoubleSpend");
  (ErrSpendTooHigh, "ErrSpendTooHigh");
  (ErrBadFees, "ErrBadFees");
  (ErrTooManySigOps, "ErrTooManySigOps");
  (ErrFirstTxNotCoinbase, "ErrFirstTxNotCoinbase");
  (ErrMultipleCoinbases, "ErrMultipleCoinbases");
  (ErrBadCoinbaseScriptLen, "ErrBadCoinbaseScriptLen");
  (ErrBadCoinbaseValue, "ErrBadCoinbaseValue");
  (ErrScriptMalformed, "ErrScriptMalformed");
  (ErrScriptValidation, "ErrScriptValidation");
  (ErrExcessiveChainShare, "ErrExcessiveChainShare");
  (ErrExcessiveTrailing, "ErrExcessiveTrailing");
  (ErrInconsistentBlkSize, "ErrInconsistentBlkSize");
  (ErrInvalidCoinbase, "ErrInvalidCoinbase");
  (ErrInvalidTx, "ErrInvalidTx");
  (ErrInvalidValidateKey, "ErrInvalidValidateKey");
  (ErrInvalidAdminTx, "ErrInvalidAdminTx");
  (ErrInvalidAdminOp, "ErrInvalidAdminOp");
  (ErrFeeTooHigh, "ErrFeeTooHigh")
].

(** [fmt.Sprintf] with the verb [%d] on an [int]: signed decimal. *)
Definition fmt_d (n : Z) : string := pretty n.

(** [func (e ErrorCode) String() string].  Indexing a Go map at a missing
    key yields the zero value of the element type, the empty string. *)
Definition ErrorCode_String (e : ErrorCode) : string :=
  let s := default "" (errorCodeStrings !! e) in
  if bool_decide (s ≠ "") then s
  else "Unknown ErrorCode (" +:+ fmt_d e +:+ ")".

(** [type RuleError struct { ErrorCode ErrorCode; Description string }] *)
Record RuleError : Type := MkRuleError {
  RuleError_ErrorCode : ErrorCode;
  RuleError_Description : string
}.

(** [func (e RuleError) Error() string] *)
Definition RuleError_Error (e : RuleError) : string := RuleError_Description e.

(** [func ruleError(c ErrorCode, desc string) RuleError] *)
Definition ruleError (c : ErrorCode) (desc : string) : RuleError :=
  {| RuleError_ErrorCode := c; RuleError_Description := desc |}.

(** The [error] interface: a value is nil or carries a dynamic type
    together with a value of that type.  The package declares two
    implementations; [error_foreign] stands for implementations of other
    packages (the harness meets [*wire.MessageError]). *)
Inductive error : Type :=
| error_nil
| error_AssertError (e : AssertError)
| error_RuleError (e : RuleError)
| error_foreign (msg : string).

(** [err.Error()] on a non-nil interface value dispatches on the dynamic type. *)
Definition error_Error (err : error) : option string :=
  match err with
  | error_nil => None
  | error_AssertError e => Some (AssertError_Error e)
  | error_RuleError e => Some (RuleError_Error e)
  | error_foreign msg => Some msg
  end.

(** The comma-ok type assertion [rerr, ok := err.(blockchain.RuleError)]:
    on a mismatch the first result is the zero value of [RuleError]. *)
Definition assert_RuleError (err : error) : RuleError * bool :=
  match err with
  | error_RuleError e => (e, true)
  | _ => (MkRuleError 0 "", false)
  end.

(** [_, ok := err.(blockchain.AssertError)] *)
Definition assert_AssertError (err : error) : AssertError * bool :=
  match err with
  | error_AssertError e => (e, true)
  | _ => (MkAssertError "", false)
  end.

(** The full-block test harness ([TestFullBlocks]) inspects the three
    results of [ProcessBlock]; each checker returns [true] when the
    harness reaches the end of the closure without calling [t.Fatalf]. *)
Definition ProcessResult : Type := (bool * bool * error)%type.

(** [testAcceptedBlock]: [AdminKey] is the key the test item expects (or
    nil), [stateKeys] the issuing key set [chain.AdminKeySets()] reports
    after the call; [stateKeys.Pos(key) < 0] says the key is not in it. *)
Definition testAcceptedBlock (res : ProcessResult) (IsMainChain IsOrphan : bool)
    (AdminKey : option Z) (stateKeys : gset Z) : bool :=
  let '(isMainChain, isOrphan, err) := res in
  match err with
  | error_nil =>
      if negb (eqb isMainChain IsMainChain) then false
      else if negb (eqb isOrphan IsOrphan) then false
      else match AdminKey with
           | Some key => if bool_decide (key ∉ stateKeys) then false else true
           | None => true
           end
  | _ => false
  end.

(** [testRejectedBlock] *)
Definition testRejectedBlock (res : ProcessResult) (RejectCode : ErrorCode) : bool :=
  let '(_, _, err) := res in
  match err with
  | error_nil => false
  | _ =>
      let '(rerr, ok) := assert_RuleError err in
      if negb ok then false
      else if negb (RuleError_ErrorCode rerr =? RejectCode) then false
      else true
  end.

(** [testOrphanOrRejectedBlock] *)
Definition testOrphanOrRejectedBlock (res : ProcessResult) : bool :=
  let '(_, isOrphan, err) := res in
  let typed :=
    match err with
    | error_nil => true
    | _ => snd (assert_RuleError err)
    end in
  if negb typed then false
  else if negb isOrphan then false
  else true.

(** ** Part II: the acceptance pipeline behind [ProcessBlock]

    [ProcessBlock] and the validators, the chain-state store and the chain
    selector it drives belong to the package, and the harness above calls
    them, but their code is not among the sources embedded here.  Every
    definition of this part is therefore modelled from the specification,
    section by section. *)

(** Modelled from the spec: hashes and identities are opaque numbers (a
    block hash is compared with a target "reduced to its numeric value",
    4.3); an outpoint is a "(transaction hash, output index)" pair. *)
Abbreviation Hash := Z (only parsing).
Abbreviation Key := Z (only parsing).
Abbreviation OutPoint := (Z * nat)%type (only parsing).

(** Modelled from the spec: the three governance roles of the admin key
    set (data model, "Admin Key Set"); the role type is missing. *)
Inductive Role : Type := Issuing | Provisioning | Validating.

(** Modelled from the spec: the per-role sets of authorized identities
    (section 4.4, "for each role a set of authorized identities"). *)
Record AdminKeySets : Type := MkAdminKeySets {
  issuingKeys : gset Z;
  provisioningKeys : gset Z;
  validatingKeys : gset Z
}.

(** Modelled from the spec: an admin operation "adds or removes exactly
    one identity from exactly one role's set" (4.4); issuance operations
    are submitted by issuing keys and leave the key sets alone (4.3). *)
Inductive AdminOp : Type :=
| OpIssue
| OpAddKey (r : Role) (k : Key)
| OpRevokeKey (r : Role) (k : Key).

(** Modelled from the spec: a transaction output, "an amount + script /
    identity binding" (data model, "Transaction"). *)
Record TxOut : Type := MkTxOut { txoValue : Z; txoScript : Z }.

(** Modelled from the spec: a transaction (data model, "Transaction"):
    ordered inputs referencing previous outputs by transaction hash and
    index, ordered outputs; the coinbase form and the admin form ("a
    reserved output/script form") are recognised by the decoder, so they
    are attributes here; an admin transaction names its submitter. *)
Record Tx : Type := MkTx {
  txHash : Hash;
  txCoinBase : bool;
  txIn : list OutPoint;
  txOut : list TxOut;
  txAdmin : option (Key * list AdminOp)
}.

(** Modelled from the spec: the block header (data model, "Block"):
    version, previous-block hash, merkle root, timestamp, difficulty bits,
    nonce, block signature.  The timestamp keeps its sub-second component
    apart (4.2); the signature names the validating key it claims. *)
Record BlockHeader : Type := MkBlockHeader {
  hdrVersion : Z;
  hdrPrevBlock : Hash;
  hdrMerkleRoot : Hash;
  hdrTimeSec : Z;
  hdrTimeNanos : Z;
  hdrBits : Z;
  hdrNonce : Z;
  hdrValidateKey : Key;
  hdrSignature : Z
}.

(** Modelled from the spec: a block (data model, "Block"): header,
    ordered transactions, cached hash and the height assigned to it (the
    harness assigns it with [SetHeight] before processing). *)
Record Block : Type := MkBlock {
  blkHeader : BlockHeader;
  blkTxs : list Tx;
  blkHash : Hash;
  blkHeight : Z
}.

(** Modelled from the spec: the validation status of a chain node
    (unvalidated / valid / invalid).  A node is unvalidated while it sits
    on a side branch and valid once connected; a rejected block never
    becomes a node. *)
Inductive Status : Type := Unvalidated | Valid | Invalid.

(** Modelled from the spec: a chain node (data model, "Chain Node"): one
    per known block, with height, cumulative work, validation status and
    the admin-key-set snapshot valid at the node; hash and parent hash are
    those of the stored block, the parent is found by hash lookup. *)
Record ChainNode : Type := MkChainNode {
  nodeBlock : Block;
  nodeHeight : Z;
  nodeWork : Z;
  nodeStatus : Status;
  nodeKeys : AdminKeySets
}.

(** Modelled from the spec: the attributes of a node that are those of
    its block: hash, parent hash, timestamp, signer. *)
Definition nodeHash (n : ChainNode) : Hash := blkHash (nodeBlock n).
Definition nodeParent (n : ChainNode) : Hash := hdrPrevBlock (blkHeader (nodeBlock n)).
Definition nodeTime (n : ChainNode) : Z := hdrTimeSec (blkHeader (nodeBlock n)).
Definition nodeSigner (n : ChainNode) : Key := hdrValidateKey (blkHeader (nodeBlock n)).

(** Modelled from the spec: an entry of the UTXO set (data model, "UTXO
    Set"): amount and maturity metadata.  Entries "are removed when
    spent", so the spent flag of an entry is its absence from the map. *)
Record UtxoEntry : Type := MkUtxoEntry {
  entValue : Z;
  entScript : Z;
  entCoinBase : bool;
  entHeight : Z
}.

(** Modelled from the spec: an orphan held in the pending-orphan pool
    "with a bounded lifetime/expiry" (lifecycles, 4.5). *)
Record Orphan : Type := MkOrphan { orphanBlock : Block; orphanExpiration : Z }.

(** Modelled from the spec: the chain-state store and the engine state
    around it (section 5: "UTXO set + chain-node index + admin key
    snapshots"; design notes: the best chain is "an explicit struct owned
    by the chain selector").  [bestChain] lists the hashes of the best
    chain from the tip down to genesis.  [journal] keeps, for every
    connected block and each of its transactions, the entries the
    transaction spent, so that they can be "restored when a block is
    disconnected" (data model, "UTXO Set"). *)
Record ChainState : Type := MkChainState {
  index : gmap Z ChainNode;
  bestChain : list Z;
  utxo : gmap (Z * nat) UtxoEntry;
  journal : gmap Z (list (list ((Z * nat) * UtxoEntry)));
  orphans : gmap Z Orphan
}.

(** Modelled from the spec: the flag options of the entry point (section
    6): [BFNone] is both fields false. *)
Record BehaviorFlags : Type := MkFlags { BFFastAdd : bool; BFNoPoWCheck : bool }.
Definition BFNone : BehaviorFlags := MkFlags false false.

(** Modelled from the spec: consensus parameters, the checkpoint
    configuration (section 6) and the external collaborators the engine
    consumes through a call (section 1, out of scope): serialized sizes,
    merkle tree, lock-time finality, script and signature verification,
    signature-operation counting, difficulty retargeting with the bounds
    permitted since the last checkpoint, and the target and the work
    implied by difficulty bits. *)
Record Config : Type := MkConfig {
  maxBlockSize : Z;
  minBlockVersion : Z;
  maxBlockTxs : nat;
  maxTxSize : Z;
  maxSupply : Z;
  coinbaseMaturity : Z;
  maxSigOpsPerTx : Z;
  maxSigOpsPerBlock : Z;
  maxFee : Z;
  maxTotalFees : Z;
  medianTimeBlocks : nat;
  maxTimeSkew : Z;
  shareWindow : nat;
  maxChainShare : nat;
  maxTrailing : nat;
  maxOrphans : nat;
  orphanLifetime : Z;
  checkpoints : list (Z * Z);
  blockSubsidy : Z -> Z;
  blockSerializeSize : Block -> Z;
  txSerializeSize : Tx -> Z;
  calcMerkleRoot : list Tx -> Hash;
  isFinalizedTx : Tx -> Z -> Z -> bool;
  adminTxWellFormed : Tx -> bool;
  verifyBlockSignature : BlockHeader -> bool;
  verifyScripts : Tx -> list UtxoEntry -> bool;
  countSigOps : Tx -> Z;
  calcNextRequiredDifficulty : list ChainNode -> Z -> Z;
  withinCheckpointBounds : list ChainNode -> Z -> Z -> bool;
  compactToTarget : Z -> Z;
  calcWork : Z -> Z
}.

(** Modelled from the spec: validators "return RuleError immediately on
    the first violated rule" (section 7); the result of a stage is an
    error or a value. *)
Definition Result (A : Type) : Type := (error + A)%type.

(** Modelled from the spec: the first error ends the stage. *)
Definition bindR {A B : Type} (r : Result A) (k : A -> Result B) : Result B :=
  match r with
  | inl e => inl e
  | inr a => k a
  end.

Notation "'let!' x ':=' r 'in' k" := (bindR r (fun x => k))
  (at level 10, x pattern, r at level 100, k at level 200, only parsing).

(** Modelled from the spec: a rule that must hold, paired with the error
    kind raised when it does not ("each construction pairs exactly one
    kind with a description string", 4.1). *)
Definition require (holds : bool) (c : ErrorCode) (desc : string) : Result unit :=
  if holds then inr tt else inl (error_RuleError (ruleError c desc)).

(** Modelled from the spec: the assertion-failure kind for internal
    invariant violations (4.1, section 7). *)
Definition assertFail {A : Type} (msg : string) : Result A :=
  inl (error_AssertError (MkAssertError msg)).

Section Engine.

Context (cfg : Config).

(** *** 4.2 Structural / context-free validator *)

(** Modelled from the spec: run a check over every element in order and
    stop at the first violation (section 7, propagation policy). *)
Fixpoint forEach {A : Type} (f : A -> Result unit) (l : list A) : Result unit :=
  match l with
  | [] => inr tt
  | x :: rest => let! _ := f x in forEach f rest
  end.

(** Modelled from the spec: 4.2, "any output value negative /
    overflowing / exceeding the maximum supply". *)
Fixpoint checkOutputValues (total : Z) (outs : list TxOut) : Result unit :=
  match outs with
  | [] => inr tt
  | o :: rest =>
      let! _ := require (0 <=? txoValue o) ErrBadTxOutValue
                  "transaction output has negative value" in
      let! _ := require (txoValue o <=? maxSupply cfg) ErrBadTxOutValue
                  "transaction output value is higher than the maximum supply" in
      let! _ := require (total + txoValue o <=? maxSupply cfg) ErrBadTxOutValue
                  "total value of all transaction outputs exceeds the maximum supply" in
      checkOutputValues (total + txoValue o) rest
  end.

(** Modelled from the spec: 4.2, "for each transaction: reject on zero
    inputs (unless coinbase), zero outputs, oversize serialized form, any
    output value negative/overflowing/exceeding the maximum supply,
    duplicate input references within the transaction, or unfinalized
    (lock-time not yet satisfied) status". *)
Definition checkTransactionSanity (height time : Z) (tx : Tx) : Result unit :=
  let! _ := require (txCoinBase tx || negb (Nat.eqb (length (txIn tx)) 0)) ErrNoTxInputs
              "transaction has no inputs" in
  let! _ := require (negb (Nat.eqb (length (txOut tx)) 0)) ErrNoTxOutputs
              "transaction has no outputs" in
  let! _ := require (txSerializeSize cfg tx <=? maxTxSize cfg) ErrTxTooBig
              "serialized transaction is too big" in
  let! _ := checkOutputValues 0 (txOut tx) in
  let! _ := require (bool_decide (NoDup (txIn tx))) ErrDuplicateTxInputs
              "transaction contains duplicate inputs" in
  require (isFinalizedTx cfg tx height time) ErrUnfinalizedTx
    "block contains unfinalized transaction".

(** Modelled from the spec: 4.2, the checks on a decoded block that need
    no chain context, in the order the section lists them.  The block
    signature is verified against the key the header claims (the stateless
    mechanism); membership of that key in the validating set is a context
    rule (4.3). *)
Definition checkBlockSanity (b : Block) : Result unit :=
  let hdr := blkHeader b in
  let! _ := require (blockSerializeSize cfg b <=? maxBlockSize cfg) ErrBlockTooBig
              "serialized block is too big" in
  let! _ := require (minBlockVersion cfg <=? hdrVersion hdr) ErrBlockVersionTooOld
              "block version is below the enforced minimum" in
  let! _ := require (hdrTimeNanos hdr =? 0) ErrInvalidTime
              "block timestamp has a higher precision than one second" in
  let! _ := require (negb (Nat.eqb (length (blkTxs b)) 0)) ErrNoTransactions
              "block does not contain any transactions" in
  let! _ := require (Nat.leb (length (blkTxs b)) (maxBlockTxs cfg)) ErrTooManyTransactions
              "block contains too many transactions" in
  let! _ := require (match blkTxs b with tx :: _ => txCoinBase tx | [] => false end)
              ErrFirstTxNotCoinbase "first transaction in block is not a coinbase" in
  let! _ := require (forallb (fun tx => negb (txCoinBase tx)) (tail (blkTxs b)))
              ErrMultipleCoinbases "block contains a second coinbase" in
  let! _ := require (calcMerkleRoot cfg (blkTxs b) =? hdrMerkleRoot hdr) ErrBadMerkleRoot
              "block merkle root is invalid" in
  let! _ := forEach (checkTransactionSanity (blkHeight b) (hdrTimeSec hdr)) (blkTxs b) in
  require (verifyBlockSignature cfg hdr) ErrBadBlockSignature
    "block signature does not verify".

(** *** 4.4 Admin key governance state machine *)

(** Modelled from the spec: the set of one role inside a snapshot. *)
Definition keysOf (a : AdminKeySets) (r : Role) : gset Z :=
  match r with
  | Issuing => issuingKeys a
  | Provisioning => provisioningKeys a
  | Validating => validatingKeys a
  end.

(** Modelled from the spec: a new snapshot with one role's set replaced;
    "snapshots are immutable values, not mutated in place" (4.4). *)
Definition setKeys (a : AdminKeySets) (r : Role) (ks : gset Z) : AdminKeySets :=
  match r with
  | Issuing => MkAdminKeySets ks (provisioningKeys a) (validatingKeys a)
  | Provisioning => MkAdminKeySets (issuingKeys a) ks (validatingKeys a)
  | Validating => MkAdminKeySets (issuingKeys a) (provisioningKeys a) ks
  end.

(** Modelled from the spec: 4.3, "only identities in the issuing-key set
    may submit issuance operations, only provisioning-key holders may
    submit provisioning operations"; section 8: adding an issuing key is
    submitted by a provisioning identity. *)
Definition requiredRole (op : AdminOp) : Role :=
  match op with
  | OpIssue => Issuing
  | OpAddKey _ _ => Provisioning
  | OpRevokeKey _ _ => Provisioning
  end.

(** Modelled from the spec: 4.4, one transition of the governance
    machine: an authorized operation "adds or removes exactly one identity
    from exactly one role's set"; unauthorized attempts "are rejected, not
    silently ignored" as invalid-admin-op. *)
Definition applyAdminOp (signer : Key) (a : AdminKeySets) (op : AdminOp)
  : Result AdminKeySets :=
  let! _ := require (bool_decide (signer ∈ keysOf a (requiredRole op))) ErrInvalidAdminOp
              "admin operation submitted by an unauthorized identity" in
  match op with
  | OpIssue => inr a
  | OpAddKey r k =>
      let! _ := require (bool_decide (k ∉ keysOf a r)) ErrInvalidAdminOp
                  "admin operation adds a key that is already authorized" in
      inr (setKeys a r ({[ k ]} ∪ keysOf a r))
  | OpRevokeKey r k =>
      let! _ := require (bool_decide (k ∈ keysOf a r)) ErrInvalidAdminOp
                  "admin operation revokes a key that is not authorized" in
      inr (setKeys a r (keysOf a r ∖ {[ k ]}))
  end.

(** Modelled from the spec: 4.4, "operations are processed in transaction
    order within a block". *)
Fixpoint applyAdminOps (signer : Key) (a : AdminKeySets) (ops : list AdminOp)
  : Result AdminKeySets :=
  match ops with
  | [] => inr a
  | op :: rest => let! a' := applyAdminOp signer a op in applyAdminOps signer a' rest
  end.

(** Modelled from the spec: 4.3, admin transactions are validated against
    the current snapshot; malformed ones are invalid-admin-tx. *)
Definition applyAdminTx (a : AdminKeySets) (tx : Tx) : Result AdminKeySets :=
  match txAdmin tx with
  | None => inr a
  | Some (signer, ops) =>
      let! _ := require (adminTxWellFormed cfg tx) ErrInvalidAdminTx
                  "transaction is not an allowed admin transaction" in
      applyAdminOps signer a ops
  end.

(** Modelled from the spec: 4.4, the admin transactions of a block in
    transaction order. *)
Fixpoint applyAdminTxs (a : AdminKeySets) (txs : list Tx) : Result AdminKeySets :=
  match txs with
  | [] => inr a
  | tx :: rest => let! a' := applyAdminTx a tx in applyAdminTxs a' rest
  end.

(** *** 4.3 Context-dependent validator: rules over the block tree *)

(** Modelled from the spec: the tip of the best chain and its node. *)
Definition tipHash (s : ChainState) : option Z := head (bestChain s).

(** Modelled from the spec: the chain node of the best-chain tip. *)
Definition tipNode (s : ChainState) : option ChainNode :=
  match head (bestChain s) with
  | Some h => index s !! h
  | None => None
  end.

(** Modelled from the spec: section 6, [AdminKeySets()] is the mapping
    "at the current best-chain tip". *)
Definition adminKeySets (s : ChainState) : option AdminKeySets :=
  nodeKeys <$> tipNode s.

(** Modelled from the spec: the node of [h] and then its ancestors, at
    most [n] nodes, found by parent-hash lookup (the "trailing window of
    the candidate's ancestor chain", 4.3). *)
Fixpoint ancestors (s : ChainState) (n : nat) (h : Z) : list ChainNode :=
  match n with
  | O => []
  | S k =>
      match index s !! h with
      | Some nd => nd :: ancestors s k (nodeParent nd)
      | None => []
      end
  end.

(** Modelled from the spec: 4.3, "the median of the last N blocks'
    timestamps". *)
Definition medianTime (nodes : list ChainNode) : Z :=
  let ts := merge_sort Z.le (nodeTime <$> nodes) in
  nth (length ts / 2)%nat ts 0.

(** Modelled from the spec: 4.3, "if a checkpoint exists at this height,
    the block hash must match it exactly". *)
Definition checkpointAt (height : Z) : option Z :=
  snd <$> find (fun cp => fst cp =? height) (checkpoints cfg).

(** Modelled from the spec: the height of "the most recent checkpoint":
    the highest configured pin whose block is on the best chain. *)
Definition mostRecentCheckpoint (s : ChainState) : option Z :=
  foldr (fun cp acc =>
           if bool_decide (snd cp ∈ bestChain s)
           then Some (match acc with Some a => Z.max (fst cp) a | None => fst cp end)
           else acc)
        None (checkpoints cfg).

(** Modelled from the spec: 4.5, the branch of a node: walking parent
    hashes from [h] until a node of the best chain is met gives the common
    ancestor (the fork point) and the nodes of the branch above it, oldest
    first.  The walk visits each node of the index at most once. *)
Fixpoint branchFrom (s : ChainState) (fuel : nat) (h : Z) (acc : list ChainNode)
  : option (ChainNode * list ChainNode) :=
  match fuel with
  | O => None
  | S k =>
      match index s !! h with
      | None => None
      | Some nd =>
          if bool_decide (h ∈ bestChain s) then Some (nd, acc)
          else branchFrom s k (nodeParent nd) (nd :: acc)
      end
  end.

(** Modelled from the spec: 4.5, "the common ancestor" of a branch and
    the best chain. *)
Definition forkPoint (s : ChainState) (h : Z) : option ChainNode :=
  fst <$> branchFrom s (size (index s)) h [].

(** Modelled from the spec: 4.3, "a fork that diverges at or before the
    most recent checkpoint is rejected as too-old": the first block of the
    branch that is not on the best chain sits one above the fork point. *)
Definition forkTooOld (s : ChainState) (parent : ChainNode) : bool :=
  match mostRecentCheckpoint s, forkPoint s (nodeHash parent) with
  | Some c, Some fp => nodeHeight fp + 1 <=? c
  | _, _ => false
  end.

(** Modelled from the spec: 4.3, the length of the run of consecutive
    blocks by one signer at the top of the ancestor window. *)
Fixpoint trailingRun (k : Z) (nodes : list ChainNode) : nat :=
  match nodes with
  | nd :: rest => if nodeSigner nd =? k then S (trailingRun k rest) else O
  | [] => O
  end.

(** Modelled from the spec: 4.3, how many blocks of the window one signer
    produced. *)
Definition signerShare (k : Z) (nodes : list ChainNode) : nat :=
  length (filter (fun nd => nodeSigner nd = k) nodes).

(** Modelled from the spec: 4.3, the first rules of the section: "height
    must equal parent height + 1", the timestamp "must exceed the median of
    the last N blocks' timestamps and must not exceed (current time +
    allowed clock skew)", and the difficulty bits "must equal the value
    computed by the retargeting algorithm for this height, or fall within
    the bounds permitted since the last checkpoint".  The fast-add flag
    skips the timestamp and difficulty rechecks (section 6). *)
Definition checkChainPosition (flags : BehaviorFlags) (now : Z) (s : ChainState)
    (b : Block) (parent : ChainNode) : Result unit :=
  let hdr := blkHeader b in
  let! _ := require (blkHeight b =? nodeHeight parent + 1) ErrBadHeight
              "block height is not one more than the height of its parent" in
  let! _ := require (BFFastAdd flags ||
                     (medianTime (ancestors s (medianTimeBlocks cfg) (nodeHash parent))
                        <? hdrTimeSec hdr))
              ErrTimeTooOld "block timestamp is not after the median time of the last blocks" in
  let! _ := require (BFFastAdd flags || (hdrTimeSec hdr <=? now + maxTimeSkew cfg))
              ErrTimeTooNew "block timestamp is too far in the future" in
  let chain := ancestors s (size (index s)) (nodeHash parent) in
  require (BFFastAdd flags ||
           (hdrBits hdr =? calcNextRequiredDifficulty cfg chain (hdrTimeSec hdr)) ||
           withinCheckpointBounds cfg chain (hdrTimeSec hdr) (hdrBits hdr))
    ErrUnexpectedDifficulty "block difficulty is not the expected value".

(** Modelled from the spec: 4.3, checkpoint conformance: "if a checkpoint
    exists at this height, the block hash must match it exactly; otherwise
    reject as checkpoint mismatch.  A fork that diverges at or before the
    most recent checkpoint is rejected as too-old." *)
Definition checkCheckpoints (s : ChainState) (b : Block) (parent : ChainNode) : Result unit :=
  let! _ := require (match checkpointAt (blkHeight b) with
                     | Some h => blkHash b =? h
                     | None => true
                     end)
              ErrBadCheckpoint "block does not match the checkpoint hash at its height" in
  require (negb (forkTooOld s parent)) ErrForkTooOld
    "block forks the main chain before the most recent checkpoint".

(** Modelled from the spec: 4.3, the rules that need the block tree but
    not the UTXO set, in the order of the section: chain position,
    checkpoint conformance, target ("high hash", skipped under the
    no-proof-of-work flag), signer membership in the validating set "in
    effect at the parent node", admin transactions against the parent's
    snapshot (4.4), signer share and run length over the trailing window.
    On success the chain node of the block is returned, carrying the
    snapshot that results from its admin operations. *)
Definition checkBlockContext (flags : BehaviorFlags) (now : Z) (s : ChainState)
    (b : Block) (parent : ChainNode) : Result ChainNode :=
  let hdr := blkHeader b in
  let window := ancestors s (shareWindow cfg) (nodeHash parent) in
  let! _ := checkChainPosition flags now s b parent in
  let! _ := checkCheckpoints s b parent in
  let! _ := require (BFNoPoWCheck flags || (blkHash b <? compactToTarget cfg (hdrBits hdr)))
              ErrHighHash "block hash is higher than the target" in
  let! _ := require (bool_decide (hdrValidateKey hdr ∈ validatingKeys (nodeKeys parent)))
              ErrInvalidValidateKey "block is signed by a key that is not a validate key" in
  let! keys := applyAdminTxs (nodeKeys parent) (blkTxs b) in
  let! _ := require (Nat.leb (S (signerShare (hdrValidateKey hdr) window)) (maxChainShare cfg))
              ErrExcessiveChainShare "signer exceeds the allowed share of recent blocks" in
  let! _ := require (Nat.leb (S (trailingRun (hdrValidateKey hdr) window)) (maxTrailing cfg))
              ErrExcessiveTrailing "signer exceeds the allowed run of consecutive blocks" in
  inr {| nodeBlock := b;
         nodeHeight := blkHeight b;
         nodeWork := nodeWork parent + calcWork cfg (hdrBits hdr);
         nodeStatus := Unvalidated;
         nodeKeys := keys |}.

(** *** 4.3 / 4.5 Rules over the UTXO set, applied when a block is connected *)

(** Modelled from the spec: 4.3, the "sum of output values". *)
Definition sumOutputs (outs : list TxOut) : Z :=
  foldr (fun o acc => txoValue o + acc) 0 outs.

(** Modelled from the spec: 4.3, "every referenced input must exist,
    unspent, in the (parent-state UTXO set plus outputs created earlier in
    this same block); coinbase outputs being spent must have matured".
    Spent entries are removed and recorded with their outpoint; [seen]
    lists the outpoints already spent by this block, which tells a double
    spend from a reference that was never there. *)
Fixpoint spendInputs (height : Z) (seen : list (Z * nat)) (ins : list (Z * nat))
    (u : gmap (Z * nat) UtxoEntry)
  : Result (gmap (Z * nat) UtxoEntry * list ((Z * nat) * UtxoEntry) * Z) :=
  match ins with
  | [] => inr (u, [], 0)
  | op :: rest =>
      match u !! op with
      | None =>
          if bool_decide (op ∈ seen)
          then inl (error_RuleError (ruleError ErrDoubleSpend
                      "transaction spends an output that is already spent"))
          else inl (error_RuleError (ruleError ErrMissingTx
                      "transaction references an output that does not exist"))
      | Some e =>
          let! _ := require (negb (entCoinBase e) ||
                             (coinbaseMaturity cfg <=? height - entHeight e))
                      ErrImmatureSpend "transaction spends an immature coinbase output" in
          let! r := spendInputs height (op :: seen) rest (delete op u) in
          let '(u', spent, total) := r in
          inr (u', (op, e) :: spent, entValue e + total)
      end
  end.

(** Modelled from the spec: entries are "created when a block is
    connected"; an output may not take the place of an entry that is
    still unspent (the overwritten-transaction kind of 4.1). *)
Fixpoint addOutputs (h : Z) (cb : bool) (height : Z) (i : nat) (outs : list TxOut)
    (u : gmap (Z * nat) UtxoEntry) : Result (gmap (Z * nat) UtxoEntry) :=
  match outs with
  | [] => inr u
  | o :: rest =>
      match u !! (h, i) with
      | Some _ =>
          inl (error_RuleError (ruleError ErrOverwriteTx
                 "transaction overwrites an output that is not fully spent"))
      | None =>
          addOutputs h cb height (S i) rest
            (<[(h, i) := MkUtxoEntry (txoValue o) (txoScript o) cb height]> u)
      end
  end.

(** Modelled from the spec: 4.3, the rules of one transaction against the
    UTXO set: signature-operation limit, inputs, overspend ("sum of input
    values must be >= sum of output values"), fee limit, scripts (a
    pass/fail call).  Returns the new set, what was spent and the fee. *)
Definition connectTx (height : Z) (seen : list (Z * nat)) (tx : Tx)
    (u : gmap (Z * nat) UtxoEntry)
  : Result (gmap (Z * nat) UtxoEntry * list ((Z * nat) * UtxoEntry) * Z) :=
  let! _ := require (countSigOps cfg tx <=? maxSigOpsPerTx cfg) ErrTooManySigOps
              "transaction has too many signature operations" in
  if txCoinBase tx then
    let! u' := addOutputs (txHash tx) true height 0 (txOut tx) u in
    inr (u', [], 0)
  else
    let! r := spendInputs height seen (txIn tx) u in
    let '(u1, spent, totalIn) := r in
    let! _ := require (sumOutputs (txOut tx) <=? totalIn) ErrSpendTooHigh
                "transaction spends more than the sum of its inputs" in
    let! _ := require (totalIn - sumOutputs (txOut tx) <=? maxFee cfg) ErrFeeTooHigh
                "transaction fee exceeds the limit" in
    let! _ := require (verifyScripts cfg tx (snd <$> spent)) ErrScriptValidation
                "transaction script validation failed" in
    let! u2 := addOutputs (txHash tx) false height 0 (txOut tx) u1 in
    inr (u2, spent, totalIn - sumOutputs (txOut tx)).

(** Modelled from the spec: the transactions of a block are applied in
    order; the result carries the spent entries per transaction, the total
    fees and the total signature operations. *)
Fixpoint connectTxs (height : Z) (seen : list (Z * nat)) (txs : list Tx)
    (u : gmap (Z * nat) UtxoEntry)
  : Result (gmap (Z * nat) UtxoEntry * list (list ((Z * nat) * UtxoEntry)) * Z * Z) :=
  match txs with
  | [] => inr (u, [], 0, 0)
  | tx :: rest =>
      let! r1 := connectTx height seen tx u in
      let '(u1, spent, fee) := r1 in
      let! r2 := connectTxs height (txIn tx ++ seen) rest u1 in
      let '(u2, jr, fees, sigops) := r2 in
      inr (u2, spent :: jr, fee + fees, countSigOps cfg tx + sigops)
  end.

(** Modelled from the spec: 4.3, the block-wide rules after all
    transactions: aggregate signature operations, "total fees across the
    block ... must not exceed the maximum permitted", and the coinbase
    value against subsidy plus fees (section 8). *)
Definition checkConnectBlock (node : ChainNode) (u : gmap (Z * nat) UtxoEntry)
  : Result (gmap (Z * nat) UtxoEntry * list (list ((Z * nat) * UtxoEntry))) :=
  let txs := blkTxs (nodeBlock node) in
  let! r := connectTxs (nodeHeight node) [] txs u in
  let '(u', jr, fees, sigops) := r in
  let! _ := require (sigops <=? maxSigOpsPerBlock cfg) ErrTooManySigOps
              "block has too many signature operations" in
  let! _ := require (fees <=? maxTotalFees cfg) ErrBadFees
              "total fees for block exceed the maximum permitted value" in
  let! _ := require (match txs with
                     | cb :: _ => sumOutputs (txOut cb) <=? blockSubsidy cfg (nodeHeight node) + fees
                     | [] => true
                     end)
              ErrBadCoinbaseValue "coinbase pays more than subsidy plus fees" in
  inr (u', jr).

(** Modelled from the spec: reverting one transaction: the entries it
    created are removed, the entries it spent are "restored", each in the
    reverse of the order in which it was applied. *)
Fixpoint removeOutputs (h : Z) (i : nat) (outs : list TxOut)
    (u : gmap (Z * nat) UtxoEntry) : gmap (Z * nat) UtxoEntry :=
  match outs with
  | [] => u
  | _ :: rest => delete (h, i) (removeOutputs h (S i) rest u)
  end.

(** Modelled from the spec: spent entries come back, last spent first. *)
Definition restoreInputs (spent : list ((Z * nat) * UtxoEntry))
    (u : gmap (Z * nat) UtxoEntry) : gmap (Z * nat) UtxoEntry :=
  foldr (fun oe acc => <[fst oe := snd oe]> acc) u spent.

(** Modelled from the spec: the revert of one connected transaction. *)
Definition disconnectTx (tx : Tx) (spent : list ((Z * nat) * UtxoEntry))
    (u : gmap (Z * nat) UtxoEntry) : gmap (Z * nat) UtxoEntry :=
  restoreInputs spent (removeOutputs (txHash tx) 0 (txOut tx) u).

(** Modelled from the spec: 4.5, "reverting UTXO ... changes in reverse
    order": the last transaction of the block is reverted first. *)
Fixpoint disconnectTxs (txs : list Tx) (jr : list (list ((Z * nat) * UtxoEntry)))
    (u : gmap (Z * nat) UtxoEntry) : gmap (Z * nat) UtxoEntry :=
  match txs, jr with
  | tx :: txs', spent :: jr' => disconnectTx tx spent (disconnectTxs txs' jr' u)
  | _, _ => u
  end.

(** *** 4.5 Chain selector / reorganization engine *)

(** Modelled from the spec: a node with its validation status replaced. *)
Definition setStatus (st : Status) (n : ChainNode) : ChainNode :=
  {| nodeBlock := nodeBlock n; nodeHeight := nodeHeight n; nodeWork := nodeWork n;
     nodeStatus := st; nodeKeys := nodeKeys n |}.

(** Modelled from the spec: 4.5 step 1, connecting a block on top of the
    best-chain tip: "apply its transactions to the UTXO set, apply its
    admin operations, extend best chain".  The admin snapshot travels with
    the node, so extending the best chain makes it the current one.
    Connecting anything but a child of the tip is an internal error. *)
Definition connectBlock (s : ChainState) (node : ChainNode) : Result ChainState :=
  match tipHash s with
  | None => assertFail "best chain is empty"
  | Some t =>
      if negb (nodeParent node =? t)
      then assertFail "connectBlock must be called with a block that extends the main chain"
      else
        let! r := checkConnectBlock node (utxo s) in
        let '(u', jr) := r in
        inr {| index := <[nodeHash node := setStatus Valid node]> (index s);
               bestChain := nodeHash node :: bestChain s;
               utxo := u';
               journal := <[nodeHash node := jr]> (journal s);
               orphans := orphans s |}
  end.

(** Modelled from the spec: 4.5 step 3, disconnecting the tip: its UTXO
    changes are reverted from what the store recorded when it was
    connected; the admin snapshot reverts by "a reference swap", the tip
    moving back to the parent (4.4). *)
Definition disconnectTip (s : ChainState) : Result ChainState :=
  match bestChain s with
  | [] => assertFail "best chain is empty"
  | t :: rest =>
      match index s !! t, journal s !! t with
      | Some nd, Some jr =>
          inr {| index := index s;
                 bestChain := rest;
                 utxo := disconnectTxs (blkTxs (nodeBlock nd)) jr (utxo s);
                 journal := delete t (journal s);
                 orphans := orphans s |}
      | _, _ => assertFail "connected block has no node or no spend record"
      end
  end.

(** Modelled from the spec: 4.5 step 3, "disconnect blocks from old tip
    down to the ancestor". *)
Fixpoint disconnectTo (fuel : nat) (fork : Z) (s : ChainState) : Result ChainState :=
  match tipHash s with
  | None => assertFail "best chain is empty"
  | Some t =>
      if t =? fork then inr s
      else
        match fuel with
        | O => assertFail "fork point is not on the best chain"
        | S k => let! s' := disconnectTip s in disconnectTo k fork s'
        end
  end.

(** Modelled from the spec: 4.5 step 3, "connect blocks from the ancestor
    up to the new tip (applying them in order, re-running context-dependent
    validation per block ...)". *)
Fixpoint connectNodes (nodes : list ChainNode) (s : ChainState) : Result ChainState :=
  match nodes with
  | [] => inr s
  | n :: rest => let! s' := connectBlock s n in connectNodes rest s'
  end.

(** Modelled from the spec: 4.5 step 3, the reorganization onto the
    branch of [node]: all mutations happen on the working state that is
    returned; a failure returns the error only (section 7: "buffering all
    mutations until the entire path is proven valid"). *)
Definition reorganizeChain (s : ChainState) (node : ChainNode) : Result ChainState :=
  match branchFrom s (size (index s)) (nodeParent node) [] with
  | None => assertFail "branch of the block does not meet the best chain"
  | Some (fork, attach) =>
      let! s1 := disconnectTo (length (bestChain s)) (nodeHash fork) s in
      connectNodes (attach ++ [node]) s1
  end.

(** Modelled from the spec: 4.5, the three cases "on successful
    validation of a new node"; the boolean tells whether the block ended
    on the best chain. *)
Definition connectBestChain (s : ChainState) (node : ChainNode)
  : Result (ChainState * bool) :=
  match tipHash s, tipNode s with
  | Some t, Some tip =>
      if nodeParent node =? t then
        let! s' := connectBlock s node in inr (s', true)
      else if nodeWork node <=? nodeWork tip then
        inr ({| index := <[nodeHash node := node]> (index s);
                bestChain := bestChain s;
                utxo := utxo s;
                journal := journal s;
                orphans := orphans s |}, false)
      else
        let! s' := reorganizeChain s node in inr (s', true)
  | _, _ => assertFail "best chain tip is unknown"
  end.

(** Modelled from the spec: section 2, a block whose ancestry is known
    "passes context-dependent validation against the chain-state snapshot
    of its parent, updates admin-key state, and is handed to the chain
    selector". *)
Definition maybeAcceptBlock (flags : BehaviorFlags) (now : Z) (s : ChainState) (b : Block)
  : Result (ChainState * bool) :=
  match index s !! hdrPrevBlock (blkHeader b) with
  | None => assertFail "previous block is unknown"
  | Some parent =>
      let! node := checkBlockContext flags now s b parent in
      connectBestChain s node
  end.

(** *** 4.5 Orphan handling and the entry point *)

(** Modelled from the spec: the orphan with the earliest expiry, the one
    that makes room when the "bounded orphan pool" is full. *)
Definition oldestOrphan (pool : gmap Z Orphan) : option Z :=
  fst <$> foldr (fun ho acc =>
                   match acc with
                   | Some (h', e') =>
                       if orphanExpiration (snd ho) <? e'
                       then Some (fst ho, orphanExpiration (snd ho)) else acc
                   | None => Some (fst ho, orphanExpiration (snd ho))
                   end)
                None (map_to_list pool).

(** Modelled from the spec: 4.5, "a block whose parent is unknown is
    placed in a bounded orphan pool keyed by hash, with an expiry":
    expired orphans leave, a full pool gives up its oldest orphan, the
    block enters with a fresh expiry. *)
Definition addOrphanBlock (now : Z) (s : ChainState) (b : Block) : ChainState :=
  let live := filter (fun ho => now <= orphanExpiration (snd ho)) (orphans s) in
  let room :=
    if Nat.leb (maxOrphans cfg) (size live)
    then match oldestOrphan live with
         | Some h => delete h live
         | None => live
         end
    else live in
  {| index := index s;
     bestChain := bestChain s;
     utxo := utxo s;
     journal := journal s;
     orphans := <[blkHash b := MkOrphan b (now + orphanLifetime cfg)]> room |}.

(** Modelled from the spec: an orphan leaves the pool. *)
Definition removeOrphan (h : Z) (s : ChainState) : ChainState :=
  {| index := index s;
     bestChain := bestChain s;
     utxo := utxo s;
     journal := journal s;
     orphans := delete h (orphans s) |}.

(** Modelled from the spec: 4.5, "the engine scans the orphan pool for
    children" of an accepted block. *)
Definition orphanChildren (s : ChainState) (h : Z) : list Block :=
  filter (fun b => hdrPrevBlock (blkHeader b) = h)
         (orphanBlock <$> (snd <$> map_to_list (orphans s))).

(** Modelled from the spec: 4.5, the orphans whose parent arrived leave
    the pool one after the other and go through "the same pipeline" as a
    block whose parent is known; the hashes of the accepted ones are
    collected.  An orphan that a rule rejects is dropped; an assertion
    failure is "never silently swallowed" (section 7) and stops the
    operation. *)
Fixpoint acceptOrphans (flags : BehaviorFlags) (now : Z) (os : list Block)
    (s : ChainState) (acc : list Z) : Result (ChainState * list Z) :=
  match os with
  | [] => inr (s, acc)
  | o :: rest =>
      let s0 := removeOrphan (blkHash o) s in
      match maybeAcceptBlock flags now s0 o with
      | inr (s', _) => acceptOrphans flags now rest s' (acc ++ [blkHash o])
      | inl (error_RuleError _) => acceptOrphans flags now rest s0 acc
      | inl e => inl e
      end
  end.

(** Modelled from the spec: 4.5, "when a block is accepted, the engine
    scans the orphan pool for children and processes them recursively":
    a work list of accepted hashes, one hash per round; every accepted
    orphan left the pool, so a fuel of one more than the pool size covers
    all rounds. *)
Fixpoint processOrphans (flags : BehaviorFlags) (now : Z) (fuel : nat)
    (work : list Z) (s : ChainState) : Result ChainState :=
  match fuel, work with
  | S k, h :: rest =>
      let! r := acceptOrphans flags now (orphanChildren s h) s [] in
      processOrphans flags now k (rest ++ snd r) (fst r)
  | _, _ => inr s
  end.

(** Modelled from the spec: a rejection hands the error to the caller and
    leaves the engine state as it was; both booleans are false. *)
Definition reject (s : ChainState) (e : error) : ChainState * ProcessResult :=
  (s, (false, false, e)).

(** Modelled from the spec: the entry point (section 6),
    [ProcessBlock(block, flags) -> (isMainChain, isOrphan) | RuleError],
    with the control flow of section 2: a block that is already known is a
    duplicate; the block passes structural validation; it is held as an
    orphan if its parent is unknown; otherwise it passes context-dependent
    validation and is handed to the chain selector, after which the
    orphans waiting for it are processed; an assertion failure anywhere
    aborts the whole operation "without partial state mutation" (section
    7).  The clock is an input. *)
Definition ProcessBlock (flags : BehaviorFlags) (now : Z) (s : ChainState) (b : Block)
  : ChainState * ProcessResult :=
  if bool_decide (is_Some (index s !! blkHash b)) then
    reject s (error_RuleError (ruleError ErrDuplicateBlock "already have block"))
  else if bool_decide (is_Some (orphans s !! blkHash b)) then
    reject s (error_RuleError (ruleError ErrDuplicateBlock "already have block (orphan)"))
  else
    match checkBlockSanity b with
    | inl e => reject s e
    | inr _ =>
        match index s !! hdrPrevBlock (blkHeader b) with
        | None => (addOrphanBlock now s b, (false, true, error_nil))
        | Some _ =>
            match maybeAcceptBlock flags now s b with
            | inl e => reject s e
            | inr (s1, isMainChain) =>
                match processOrphans flags now (S (size (orphans s1))) [blkHash b] s1 with
                | inl e => reject s e
                | inr s2 => (s2, (isMainChain, false, error_nil))
                end
            end
        end
    end.

End Engine.

(** Modelled from the spec: what it is for [ProcessBlock] to meet a rule
    violation (section 7, "on the first violated rule"): the block is
    already known; or the structural validator reports the rule; or the
    parent is known and the context-dependent validator reports it; or the
    block passes both and the chain selector reports it while connecting. *)
Inductive RuleViolation (cfg : Config) (flags : BehaviorFlags) (now : Z)
    (s : ChainState) (b : Block) : RuleError -> Prop :=
| violation_duplicate (desc : string) :
    is_Some (index s !! blkHash b) ∨ is_Some (orphans s !! blkHash b) ->
    RuleViolation cfg flags now s b (ruleError ErrDuplicateBlock desc)
| violation_structural (re : RuleError) :
    checkBlockSanity cfg b = inl (error_RuleError re) ->
    RuleViolation cfg flags now s b re
| violation_context (re : RuleError) (parent : ChainNode) :
    index s !! hdrPrevBlock (blkHeader b) = Some parent ->
    checkBlockContext cfg flags now s b parent = inl (error_RuleError re) ->
    RuleViolation cfg flags now s b re
| violation_connect (re : RuleError) (parent node : ChainNode) :
    index s !! hdrPrevBlock (blkHeader b) = Some parent ->
    checkBlockContext cfg flags now s b parent = inr node ->
    connectBestChain cfg s node = inl (error_RuleError re) ->
    RuleViolation cfg flags now s b re.

(** ** The rest of the harness: [TestFullBlocks]

    The closures of the harness that the claims do not reach, and the loop
    that dispatches the test instances.  What the harness calls outside the
    package at hand is a parameter: the block wrapper, the chain instance
    with its three methods, the hash of a wire block and the wire decoder. *)

(** A slice expression [s[lo:hi]] panics when the bounds are out of
    order or reach beyond the slice (taken here at its length). *)
Definition goSlice {A : Type} (s : list A) (lo hi : nat) : option (list A) :=
  if bool_decide (lo ≤ hi ∧ hi ≤ length s)%nat
  then Some (take (hi - lo) (drop lo s))
  else None.

(** [headerLen := len(item.RawBlock); if headerLen > 80 { headerLen = 80 }] *)
Definition headerLen (RawBlock : list Byte.byte) : nat :=
  let headerLen := length RawBlock in
  if (80 <? headerLen)%nat then 80%nat else headerLen.

(** The error value [msgBlock.BtcDecode] hands back, by dynamic type:
    nil, a [*wire.MessageError], or an error of any other type. *)
Inductive decodeError : Type :=
| decode_nil
| decode_MessageError (msg : string)
| decode_other (msg : string).

(** The comma-ok type assertion of [err] to the pointer type
    [*wire.MessageError]; it fails on a nil error. *)
Definition assert_MessageError (err : decodeError) : bool :=
  match err with
  | decode_MessageError _ => true
  | _ => false
  end.

(** [testExpectedTip]: [best] is the hash and height of
    [chain.BestSnapshot()], [blockHash] is [item.Block.BlockHash()]. *)
Definition testExpectedTip (best : Z * Z) (blockHash blockHeight : Z) : bool :=
  if negb (fst best =? blockHash) || negb (snd best =? blockHeight) then false
  else true.

Section TestFullBlocks.

Context {MsgBlock Block Chain : Type}.
Context (NewBlock : MsgBlock -> Block).
Context (SetHeight : Block -> Z -> Block).
Context (chain_ProcessBlock : Chain -> Block -> BehaviorFlags -> Chain * ProcessResult).
Context (chain_IssuingKeys : Chain -> gset Z).
Context (chain_BestSnapshot : Chain -> Z * Z).
Context (BlockHash : MsgBlock -> Z).
Context (BtcDecode : list Byte.byte -> decodeError).

(** [testRejectedNonCanonicalBlock]: the header bytes are sliced off for
    the log line (a panic there ends the test as well), then the raw block
    must fail to decode with a message error.  [None] is a panic,
    [Some false] a call of [t.Fatalf]. *)
Definition testRejectedNonCanonicalBlock (RawBlock : list Byte.byte) : option bool :=
  match goSlice RawBlock 0 (headerLen RawBlock) with
  | None => None
  | Some _ =>
      if negb (assert_MessageError (BtcDecode RawBlock)) then Some false
      else Some true
  end.

(** The test instances of the [fullblocktests] package, by dynamic type;
    [OtherInstance] is any type the switch does not list. *)
Inductive TestInstance : Type :=
| AcceptedBlock (Name : string) (Block : MsgBlock) (Height : Z)
    (IsMainChain IsOrphan : bool) (AdminKey : option Z)
| RejectedBlock (Name : string) (Block : MsgBlock) (Height : Z) (RejectCode : Z)
| RejectedNonCanonicalBlock (Name : string) (RawBlock : list Byte.byte) (Height : Z)
| OrphanOrRejectedBlock (Name : string) (Block : MsgBlock) (Height : Z)
| ExpectedTip (Name : string) (Block : MsgBlock) (Height : Z)
| OtherInstance (typeName : string).

(** One round of the inner loop: the type switch and the closure it
    selects.  [Some chain'] is the chain instance after the closure
    returned, [None] means the test was stopped by [t.Fatalf] (or by a
    panic). *)
Definition runItem (chain : Chain) (item : TestInstance) : option Chain :=
  match item with
  | AcceptedBlock _ blk height isMain isOrphan adminKey =>
      let block := SetHeight (NewBlock blk) height in
      let '(chain', res) := chain_ProcessBlock chain block BFNone in
      if testAcceptedBlock res isMain isOrphan adminKey (chain_IssuingKeys chain')
      then Some chain' else None
  | RejectedBlock _ blk height code =>
      let block := SetHeight (NewBlock blk) height in
      let '(chain', res) := chain_ProcessBlock chain block BFNone in
      if testRejectedBlock res code then Some chain' else None
  | RejectedNonCanonicalBlock _ raw _ =>
      match testRejectedNonCanonicalBlock raw with
      | Some true => Some chain
      | _ => None
      end
  | OrphanOrRejectedBlock _ blk height =>
      let block := SetHeight (NewBlock blk) height in
      let '(chain', res) := chain_ProcessBlock chain block BFNone in
      if testOrphanOrRejectedBlock res then Some chain' else None
  | ExpectedTip _ blk height =>
      if testExpectedTip (chain_BestSnapshot chain) (BlockHash blk) height
      then Some chain else None
  | OtherInstance _ => None
  end.

(** [for itemNum, item := range test { ... }] *)
Fixpoint runItems (chain : Chain) (test : list TestInstance) : option Chain :=
  match test with
  | [] => Some chain
  | item :: rest =>
      match runItem chain item with
      | Some chain' => runItems chain' rest
      | None => None
      end
  end.

(** [for testNum, test := range tests { ... }] *)
Fixpoint runTests (chain : Chain) (tests : list (list TestInstance)) : option Chain :=
  match tests with
  | [] => Some chain
  | test :: rest =>
      match runItems chain test with
      | Some chain' => runTests chain' rest
      | None => None
      end
  end.

End TestFullBlocks.

(** The blocks a test hands to [chain.ProcessBlock], with the heights
    set on them, in the order of the instances. *)
Definition processedBlocks {MsgBlock : Type} (test : list (@TestInstance MsgBlock))
  : list (MsgBlock * Z) :=
  omap (fun item =>
          match item with
          | AcceptedBlock _ blk height _ _ _ => Some (blk, height)
          | RejectedBlock _ blk height _ => Some (blk, height)
          | OrphanOrRejectedBlock _ blk height => Some (blk, height)
          | _ => None
          end) test.

(** ** A small network profile and chain used to exercise the pipeline *)

Definition toyKeys : AdminKeySets :=
  {| issuingKeys := {[ 6 ]}; provisioningKeys := {[ 5 ]}; validatingKeys := {[ 7; 8 ]} |}.

Definition toyMerkle (txs : list Tx) : Z := foldr (fun tx acc => txHash tx + acc) 0 txs.

Definition toyConfig : Config :=
  {| maxBlockSize := 1000;
     minBlockVersion := 1;
     maxBlockTxs := 10;
     maxTxSize := 100;
     maxSupply := 1000000;
     coinbaseMaturity := 2;
     maxSigOpsPerTx := 10;
     maxSigOpsPerBlock := 50;
     maxFee := 100;
     maxTotalFees := 1000;
     medianTimeBlocks := 3;
     maxTimeSkew := 7200;
     shareWindow := 4;
     maxChainShare := 3;
     maxTrailing := 2;
     maxOrphans := 2;
     orphanLifetime := 3600;
     checkpoints := [(2, 102)];
     blockSubsidy := fun _ => 50;
     blockSerializeSize := fun b => 80 + 10 * Z.of_nat (length (blkTxs b));
     txSerializeSize := fun _ => 10;
     calcMerkleRoot := toyMerkle;
     isFinalizedTx := fun _ _ _ => true;
     adminTxWellFormed := fun _ => true;
     verifyBlockSignature := fun hdr => hdrSignature hdr =? hdrValidateKey hdr;
     verifyScripts := fun _ _ => true;
     countSigOps := fun _ => 1;
     calcNextRequiredDifficulty := fun _ _ => 1;
     withinCheckpointBounds := fun _ _ _ => false;
     compactToTarget := fun _ => 1000000;
     calcWork := fun _ => 1 |}.

(** The same profile without pinned heights. *)
Definition freeConfig : Config :=
  {| maxBlockSize := 1000; minBlockVersion := 1; maxBlockTxs := 10; maxTxSize := 100;
     maxSupply := 1000000; coinbaseMaturity := 2; maxSigOpsPerTx := 10;
     maxSigOpsPerBlock := 50; maxFee := 100; maxTotalFees := 1000; medianTimeBlocks := 3;
     maxTimeSkew := 7200;
     shareWindow := 4; maxChainShare := 3; maxTrailing := 2; maxOrphans := 2;
     orphanLifetime := 3600; checkpoints := [];
     blockSubsidy := fun _ => 50;
     blockSerializeSize := fun b => 80 + 10 * Z.of_nat (length (blkTxs b));
     txSerializeSize := fun _ => 10;
     calcMerkleRoot := toyMerkle;
     isFinalizedTx := fun _ _ _ => true;
     adminTxWellFormed := fun _ => true;
     verifyBlockSignature := fun hdr => hdrSignature hdr =? hdrValidateKey hdr;
     verifyScripts := fun _ _ => true;
     countSigOps := fun _ => 1;
     calcNextRequiredDifficulty := fun _ _ => 1;
     withinCheckpointBounds := fun _ _ _ => false;
     compactToTarget := fun _ => 1000000;
     calcWork := fun _ => 1 |}.

Definition toyCoinbase (h : Z) : Tx :=
  {| txHash := h; txCoinBase := true; txIn := []; txOut := [MkTxOut 50 0]; txAdmin := None |}.

Definition toyBlock (hash prev height time signer : Z) (txs : list Tx) : Block :=
  {| blkHeader := {| hdrVersion := 1; hdrPrevBlock := prev; hdrMerkleRoot := toyMerkle txs;
                     hdrTimeSec := time; hdrTimeNanos := 0; hdrBits := 1; hdrNonce := 0;
                     hdrValidateKey := signer; hdrSignature := signer |};
     blkTxs := txs; blkHash := hash; blkHeight := height |}.

Definition genesisBlock : Block := toyBlock 100 0 0 1000 7 [toyCoinbase 1000].

Definition genesisNode : ChainNode :=
  {| nodeBlock := genesisBlock; nodeHeight := 0; nodeWork := 1;
     nodeStatus := Valid; nodeKeys := toyKeys |}.

Definition genesisState : ChainState :=
  {| index := {[ 100 := genesisNode ]};
     bestChain := [100];
     utxo := ∅;
     journal := ∅;
     orphans := ∅ |}.

Definition block101 : Block := toyBlock 101 100 1 1010 8 [toyCoinbase 1010].
Definition block102 : Block := toyBlock 102 101 2 1020 7 [toyCoinbase 1020].
Definition block103 : Block := toyBlock 103 102 3 1030 8 [toyCoinbase 1030].

(** A block at the pinned height 2 whose hash is not the pinned one. *)
Definition block202 : Block := toyBlock 202 101 2 1020 7 [toyCoinbase 2020].
(** The same position, without any transaction. *)
Definition block202empty : Block := toyBlock 202 101 2 1020 7 [].
(** A block that leaves the best chain below the pinned height. *)
Definition block201 : Block := toyBlock 201 100 1 1011 8 [toyCoinbase 2010].

(** A transaction spending an output that never existed. *)
Definition badSpend : Tx :=
  {| txHash := 3131; txCoinBase := false; txIn := [(9999, 0%nat)];
     txOut := [MkTxOut 1 0]; txAdmin := None |}.

(** A side branch above block 102: 313 is stored unconnected, 314 makes
    the branch the heavier one. *)
Definition block313 : Block := toyBlock 313 102 3 1031 7 [toyCoinbase 3130; badSpend].
Definition block314 : Block := toyBlock 314 313 4 1041 8 [toyCoinbase 3140].
Definition block323 : Block := toyBlock 323 102 3 1031 7 [toyCoinbase 3230].
Definition block324 : Block := toyBlock 324 323 4 1041 8 [toyCoinbase 3240].

(** Feed blocks to the entry point one after the other. *)
Definition feed (cfg : Config) (s : ChainState) (bs : list Block) : ChainState :=
  foldl (fun st b => fst (ProcessBlock cfg BFNone 2000 st b)) s bs.

Definition chain103 : ChainState := feed freeConfig genesisState [block101; block102; block103].

(** ** The taxonomy list of the specification (4.1)

    The error kinds as the specification names them, one constructor per
    named kind (a slash in the list separates two kinds), and the constant
    of the const block that stands for each. *)
Inductive SpecKind : Type :=
| KDuplicateBlock | KOversizeBlock | KStaleVersion | KBadTimestamp
| KDifficultyMismatch | KBadHeight | KBadSignature | KHighHash
| KBadMerkleRoot | KCheckpointMismatch | KForkTooOld
| KEmptyTransactionSet | KOversizeTransactionSet
| KMissingInputs | KDuplicateInputs | KOversizeTransaction | KBadOutputValue
| KDuplicateTransaction | KOverwrittenTransaction
| KImmatureSpend | KDoubleSpend | KOverspend | KBadFees
| KExcessiveSignatureOperations | KMalformedCoinbase
| KMalformedScript | KFailingScript
| KExcessiveChainShare | KExcessiveRunLength | KInconsistentSize
| KInvalidAdminTransaction | KInvalidAdminOperation
| KInvalidValidatingKey | KExcessiveFee.

Definition specKinds : list SpecKind :=
  [KDuplicateBlock; KOversizeBlock; KStaleVersion; KBadTimestamp;
   KDifficultyMismatch; KBadHeight; KBadSignature; KHighHash;
   KBadMerkleRoot; KCheckpointMismatch; KForkTooOld;
   KEmptyTransactionSet; KOversizeTransactionSet;
   KMissingInputs; KDuplicateInputs; KOversizeTransaction; KBadOutputValue;
   KDuplicateTransaction; KOverwrittenTransaction;
   KImmatureSpend; KDoubleSpend; KOverspend; KBadFees;
   KExcessiveSignatureOperations; KMalformedCoinbase;
   KMalformedScript; KFailingScript;
   KExcessiveChainShare; KExcessiveRunLength; KInconsistentSize;
   KInvalidAdminTransaction; KInvalidAdminOperation;
   KInvalidValidatingKey; KExcessiveFee].

(** The constant whose comment in the const block describes the kind. *)
Definition kindCode (k : SpecKind) : ErrorCode :=
  match k with
  | KDuplicateBlock => ErrDuplicateBlock
  | KOversizeBlock => ErrBlockTooBig
  | KStaleVersion => ErrBlockVersionTooOld
  | KBadTimestamp => ErrInvalidTime
  | KDifficultyMismatch => ErrUnexpectedDifficulty
  | KBadHeight => ErrBadHeight
  | KBadSignature => ErrBadBlockSignature
  | KHighHash => ErrHighHash
  | KBadMerkleRoot => ErrBadMerkleRoot
  | KCheckpointMismatch => ErrBadCheckpoint
  | KForkTooOld => ErrForkTooOld
  | KEmptyTransactionSet => ErrNoTransactions
  | KOversizeTransactionSet => ErrTooManyTransactions
  | KMissingInputs => ErrNoTxInputs
  | KDuplicateInputs => ErrDuplicateTxInputs
  | KOversizeTransaction => ErrTxTooBig
  | KBadOutputValue => ErrBadTxOutValue
  | KDuplicateTransaction => ErrDuplicateTx
  | KOverwrittenTransaction => ErrOverwriteTx
  | KImmatureSpend => ErrImmatureSpend
  | KDoubleSpend => ErrDoubleSpend
  | KOverspend => ErrSpendTooHigh
  | KBadFees => ErrBadFees
  | KExcessiveSignatureOperations => ErrTooManySigOps
  | KMalformedCoinbase => ErrBadCoinbaseScriptLen
  | KMalformedScript => ErrScriptMalformed
  | KFailingScript => ErrScriptValidation
  | KExcessiveChainShare => ErrExcessiveChainShare
  | KExcessiveRunLength => ErrExcessiveTrailing
  | KInconsistentSize => ErrInconsistentBlkSize
  | KInvalidAdminTransaction => ErrInvalidAdminTx
  | KInvalidAdminOperation => ErrInvalidAdminOp
  | KInvalidValidatingKey => ErrInvalidValidateKey
  | KExcessiveFee => ErrFeeTooHigh
  end.

(** The value of a successful stage, for building the examples. *)
Definition fromResult {A : Type} (d : A) (r : Result A) : A :=
  match r with
  | inr a => a
  | inl _ => d
  end.

Definition nodeOf (s : ChainState) (h : Z) : ChainNode :=
  default genesisNode (index s !! h).

(** The pinned profile after block 101, and after blocks 101 and 102. *)
Definition st101 : ChainState := feed toyConfig genesisState [block101].
Definition st102 : ChainState := feed toyConfig genesisState [block101; block102].

(** Block 102 arrives before block 101 and waits in the pool. *)
Definition held102 : ChainState :=
  fst (ProcessBlock toyConfig BFNone 2000 genesisState block102).

(** Blocks 103 and 102 arrive before block 101 and wait in the pool. *)
Definition held103 : ChainState := feed toyConfig genesisState [block103; block102].

(** A block above 101 whose timestamp is not after the median time of
    the blocks below it, under the profile without pinned heights. *)
Definition late502 : Block := toyBlock 502 101 2 1005 7 [toyCoinbase 5020].
Definition heldLate : ChainState :=
  fst (ProcessBlock freeConfig BFNone 2000 genesisState late502).

(** One hour and more after block 102 entered the pool, another orphan
    arrives: the stay of block 102 in the pool is over. *)
Definition orphan402 : Block := toyBlock 402 401 2 1020 7 [toyCoinbase 4020].
Definition expired102 : ChainState :=
  fst (ProcessBlock toyConfig BFNone 6000 held102 orphan402).

(** The profile with height 3 pinned instead of height 2; block 201 is
    stored as a side branch before the best chain reaches the pinned
    block 103, and block 212 then asks for a place above block 201. *)
Definition lateConfig : Config :=
  {| maxBlockSize := 1000; minBlockVersion := 1; maxBlockTxs := 10; maxTxSize := 100;
     maxSupply := 1000000; coinbaseMaturity := 2; maxSigOpsPerTx := 10;
     maxSigOpsPerBlock := 50; maxFee := 100; maxTotalFees := 1000; medianTimeBlocks := 3;
     maxTimeSkew := 7200;
     shareWindow := 4; maxChainShare := 3; maxTrailing := 2; maxOrphans := 2;
     orphanLifetime := 3600; checkpoints := [(3, 103)];
     blockSubsidy := fun _ => 50;
     blockSerializeSize := fun b => 80 + 10 * Z.of_nat (length (blkTxs b));
     txSerializeSize := fun _ => 10;
     calcMerkleRoot := toyMerkle;
     isFinalizedTx := fun _ _ _ => true;
     adminTxWellFormed := fun _ => true;
     verifyBlockSignature := fun hdr => hdrSignature hdr =? hdrValidateKey hdr;
     verifyScripts := fun _ _ => true;
     countSigOps := fun _ => 1;
     calcNextRequiredDifficulty := fun _ _ => 1;
     withinCheckpointBounds := fun _ _ _ => false;
     compactToTarget := fun _ => 1000000;
     calcWork := fun _ => 1 |}.
Definition sideBranch : ChainState :=
  feed lateConfig genesisState [block101; block201; block102; block103].
Definition block212 : Block := toyBlock 212 201 2 1021 7 [toyCoinbase 2120].

(** The side branch 313 is stored next to the best chain 100..103; block
    314 then asks for a reorganization onto 102-313-314. *)
Definition st313 : ChainState := feed freeConfig chain103 [block313].
Definition node314 : ChainNode :=
  fromResult genesisNode
    (checkBlockContext freeConfig BFNone 2000 st313 block314 (nodeOf st313 313)).
Definition detached102 : ChainState := fromResult st313 (disconnectTo 4 102 st313).

(** A block above 102 that spends the coinbase of block 101. *)
Definition spend1010 : Tx :=
  {| txHash := 4031; txCoinBase := false; txIn := [(1010, 0%nat)];
     txOut := [MkTxOut 30 0; MkTxOut 19 0]; txAdmin := None |}.
Definition block403 : Block := toyBlock 403 102 3 1030 8 [toyCoinbase 4030; spend1010].
Definition free102 : ChainState := feed freeConfig genesisState [block101; block102].
Definition node403 : ChainNode :=
  fromResult genesisNode
    (checkBlockContext freeConfig BFNone 2000 free102 block403 (nodeOf free102 102)).
Definition connected403 : ChainState :=
  fromResult free102 (connectBlock freeConfig free102 node403).

(** The harness on the example chain: wire blocks are the blocks of the
    model, the chain instance is the model of the pipeline under the
    pinned profile, and the decoder refuses everything shorter than a
    header. *)
Definition toySetHeight (b : Block) (h : Z) : Block :=
  {| blkHeader := blkHeader b; blkTxs := blkTxs b; blkHash := blkHash b; blkHeight := h |}.

Definition toyProcessBlock (s : ChainState) (b : Block) (flags : BehaviorFlags)
  : ChainState * ProcessResult :=
  ProcessBlock toyConfig flags 2000 s b.

Definition toyIssuingKeys (s : ChainState) : gset Z :=
  default ∅ (issuingKeys <$> adminKeySets s).

Definition toyBestSnapshot (s : ChainState) : Z * Z :=
  match tipNode s with
  | Some nd => (nodeHash nd, nodeHeight nd)
  | None => (0, 0)
  end.

Definition toyDecode (raw : list Byte.byte) : decodeError :=
  if (length raw <? 80)%nat then decode_MessageError "unexpected EOF" else decode_nil.

Definition toyRun : ChainState -> list (@TestInstance Block) -> option ChainState :=
  runItems (fun b => b) toySetHeight toyProcessBlock toyIssuingKeys toyBestSnapshot
           blkHash toyDecode.

(** ** Vocabulary of the statements below *)

(** A rule error whose code is one of the declared constants. *)
Definition IsRuleError (e : error) : Prop :=
  ∃ re : RuleError, e = error_RuleError re ∧ RuleError_ErrorCode re ∈ definedCodes.

(** What a stage of the pipeline may hand back: a rule error of the
    taxonomy or an assertion failure. *)
Definition IsFailure (e : error) : Prop :=
  IsRuleError e ∨ ∃ a : AssertError, e = error_AssertError a.

(** [s'] knows every block that [s] knows and holds no orphan that [s]
    did not hold. *)
Definition Later (s s' : ChainState) : Prop :=
  (∀ h : Z, is_Some (index s !! h) → is_Some (index s' !! h)) ∧
  (∀ (h : Z) (o : Orphan), orphans s' !! h = Some o → orphans s !! h = Some o).

(** [s'] knows every block that [s] knows and holds the same orphans. *)
Definition Grows (s s' : ChainState) : Prop :=
  (∀ h : Z, is_Some (index s !! h) → is_Some (index s' !! h)) ∧
  orphans s' = orphans s.

(** The block is new to the engine: neither in the block tree nor held
    as an orphan. *)
Definition NotKnown (s : ChainState) (b : Block) : Prop :=
  index s !! blkHash b = None ∧ orphans s !! blkHash b = None.

(** The orphan pool is keyed by the hash of the block it holds. *)
Definition PoolKeyed (s : ChainState) : Prop :=
  ∀ (k : Z) (o : Orphan), orphans s !! k = Some o → blkHash (orphanBlock o) = k.

(** The pool without the orphans that hold the given blocks. *)
Definition dropOrphans (l : list Block) (pool : gmap Z Orphan) : gmap Z Orphan :=
  foldl (fun m o => delete (blkHash o) m) pool l.

(** Every node of the block tree is stored under the hash of its block. *)
Definition IndexKeyed (s : ChainState) : Prop :=
  ∀ (h : Z) (nd : ChainNode), index s !! h = Some nd → nodeHash nd = h.

(** No block is in the block tree and in the orphan pool at once. *)
Definition PoolFresh (s : ChainState) : Prop :=
  ∀ (k : Z) (o : Orphan), orphans s !! k = Some o → index s !! k = None.

(** No orphan of the pool waits for a parent that the block tree knows. *)
Definition NoReadyOrphan (s : ChainState) : Prop :=
  ∀ (k : Z) (o : Orphan), orphans s !! k = Some o →
    index s !! hdrPrevBlock (blkHeader (orphanBlock o)) = None.

(** The shape of the engine state between two calls of the entry point. *)
Definition EngineInvariant (s : ChainState) : Prop :=
  PoolKeyed s ∧ IndexKeyed s ∧ PoolFresh s ∧ NoReadyOrphan s.

(** One orphan is reprocessed: the orphan [o] is in the pool of [s] and
    its parent is known; it is taken out of the pool and handed to
    [maybeAcceptBlock], the stage that a block with a known parent goes
    through in [ProcessBlock]; the step ends in the state that stage
    returns, or, when a rule rejects the orphan, in [s] without the
    orphan. *)
Inductive Reprocess (cfg : Config) (flags : BehaviorFlags) (now : Z) (o : Block)
  : ChainState → ChainState → Prop :=
| reprocess_accepted (s s' : ChainState) (orph : Orphan) (isMain : bool) :
    orphans s !! blkHash o = Some orph → orphanBlock orph = o →
    is_Some (index s !! hdrPrevBlock (blkHeader o)) →
    maybeAcceptBlock cfg flags now (removeOrphan (blkHash o) s) o = inr (s', isMain) →
    Reprocess cfg flags now o s s'
| reprocess_rejected (s : ChainState) (orph : Orphan) (re : RuleError) :
    orphans s !! blkHash o = Some orph → orphanBlock orph = o →
    is_Some (index s !! hdrPrevBlock (blkHeader o)) →
    maybeAcceptBlock cfg flags now (removeOrphan (blkHash o) s) o = inl (error_RuleError re) →
    Reprocess cfg flags now o s (removeOrphan (blkHash o) s).

(** A run of such steps, one orphan after the other. *)
Inductive Cascade (cfg : Config) (flags : BehaviorFlags) (now : Z)
  : ChainState → ChainState → Prop :=
| cascade_nil (s : ChainState) : Cascade cfg flags now s s
| cascade_cons (o : Block) (s s1 s2 : ChainState) :
    Reprocess cfg flags now o s s1 → Cascade cfg flags now s1 s2 →
    Cascade cfg flags now s s2.

(** The branch of a block in the block tree: walking parent hashes from
    [h], the nodes of [path] (nearest first) are not on the best chain,
    and the walk ends at [fp], the first node that is on it: the fork
    point of the branch.  The first block of the branch that is off the
    best chain is the child of [fp]. *)
Fixpoint OffChainPath (s : ChainState) (h : Z) (path : list ChainNode) (fp : ChainNode)
  : Prop :=
  match path with
  | [] => index s !! h = Some fp ∧ h ∈ bestChain s
  | nd :: rest =>
      index s !! h = Some nd ∧ (h ∉ bestChain s) ∧ OffChainPath s (nodeParent nd) rest fp
  end.

(** The hashes that this walk visits. *)
Fixpoint pathKeys (h : Z) (path : list ChainNode) : list Z :=
  match path with
  | [] => [h]
  | nd :: rest => h :: pathKeys (nodeParent nd) rest
  end.

(** * Properties *)

(** ** Part I: the error taxonomy *)

Lemma definedCodes_range (c : Z) : c ∈ definedCodes ↔ 0 <= c < 47.
Proof.
  split.
  - intros Hc.
    assert (HF : Forall (fun c => 0 <= c < 47) definedCodes).
    { compute_done. }
    rewrite Forall_forall in HF. by apply HF.
  - intros [H0 H47].
    assert (HF : Forall (fun i => Z.of_nat i ∈ definedCodes) (seq 0 47)).
    { compute_done. }
    rewrite Forall_forall in HF.
    replace c with (Z.of_nat (Z.to_nat c)) by lia.
    apply HF. apply elem_of_seq. lia.
Qed.

Lemma table_values_nonempty (e : Z) (name : string) :
  errorCodeStrings !! e = Some name → name ≠ "".
Proof.
  assert (HF : map_Forall (fun _ v => v ≠ "") errorCodeStrings).
  { compute_done. }
  intros H. exact (HF e name H).
Qed.

Lemma String_of_entry (e : Z) (name : string) :
  errorCodeStrings !! e = Some name → ErrorCode_String e = name.
Proof.
  intros H. unfold ErrorCode_String. rewrite H. cbn [default from_option]. unfold id.
  rewrite bool_decide_eq_true_2; [done|]. by eapply table_values_nonempty.
Qed.

Lemma String_of_missing (e : Z) :
  errorCodeStrings !! e = None →
  ErrorCode_String e = "Unknown ErrorCode (" +:+ fmt_d e +:+ ")".
Proof.
  intros H. unfold ErrorCode_String. rewrite H. cbn [default from_option].
  rewrite bool_decide_eq_false_2; [done|]. intros Hn. by apply Hn.
Qed.

Lemma table_names_constants :
  Forall (fun i => errorCodeStrings !! Z.of_nat i = constBlock !! i) (seq 0 47).
Proof. compute_done. Qed.

(** C2: the constructor [ruleError] pairs exactly the given code with
    exactly the given description, and [Error()] returns the description of
    any rule error.  A [RuleError] is a plain value: the constructor and
    the value-receiver method [Error] are its only operations, and neither
    changes a value once built. *)
Theorem ruleError_pairs_code_and_description :
  (∀ (c : Z) (desc : string),
      RuleError_ErrorCode (ruleError c desc) = c ∧
      RuleError_Description (ruleError c desc) = desc ∧
      RuleError_Error (ruleError c desc) = desc) ∧
  (∀ e : RuleError, RuleError_Error e = RuleError_Description e) ∧
  (∀ e : RuleError,
      ruleError (RuleError_ErrorCode e) (RuleError_Description e) = e).
Proof.
  split; [|split].
  - intros c desc. by repeat split.
  - done.
  - by intros [c d].
Qed.

(** C3: every error kind named in the taxonomy list of the specification
    has a constant of the const block, no two listed kinds share a
    constant, and the const block is a closed set: its 47 constants are
    pairwise distinct and are exactly the codes 0 to 46. *)
Theorem taxonomy_kinds_have_distinct_constants :
  (∀ k : SpecKind, k ∈ specKinds ∧ kindCode k ∈ definedCodes) ∧
  (∀ k1 k2 : SpecKind, kindCode k1 = kindCode k2 → k1 = k2) ∧
  NoDup definedCodes ∧
  length definedCodes = 47%nat ∧
  (∀ c : Z, c ∈ definedCodes ↔ 0 <= c < 47).
Proof.
  split; [|split; [|split; [|split]]].
  - intros k. split.
    + destruct k; vm_compute; set_solver.
    + apply definedCodes_range. destruct k; vm_compute; split; congruence.
  - intros k1 k2 H.
    set (back := fun c : Z =>
      filter (fun k => kindCode k = c) specKinds).
    assert (Hb : ∀ k, back (kindCode k) = [k]).
    { intros k. destruct k; vm_compute; reflexivity. }
    pose proof (Hb k1) as H1. pose proof (Hb k2) as H2.
    rewrite H in H1. congruence.
  - compute_done.
  - reflexivity.
  - apply definedCodes_range.
Qed.

Lemma kinds_witness : KHighHash = KHighHash.
Proof.
  exact (proj1 (proj2 taxonomy_kinds_have_distinct_constants) KHighHash KHighHash eq_refl).
Defined.

(** C4: [String()] returns the name of every constant of the const block
    (the i-th identifier for the code i, for example "ErrDuplicateBlock"
    for [ErrDuplicateBlock]), returns "Unknown ErrorCode (d)" with d the
    decimal value for every code without an entry in the name table, and
    these two cases cover all integers. *)
Theorem ErrorCode_String_names_or_unknown :
  (∀ (i : nat) (name : string),
      constBlock !! i = Some name → ErrorCode_String (Z.of_nat i) = name) ∧
  ErrorCode_String ErrDuplicateBlock = "ErrDuplicateBlock" ∧
  ErrorCode_String ErrFeeTooHigh = "ErrFeeTooHigh" ∧
  (∀ e : Z, errorCodeStrings !! e = None →
      ErrorCode_String e = "Unknown ErrorCode (" +:+ fmt_d e +:+ ")") ∧
  (∀ e : Z,
      (0 <= e < 47 ∧ constBlock !! Z.to_nat e = Some (ErrorCode_String e)) ∨
      (¬ 0 <= e < 47 ∧ errorCodeStrings !! e = None ∧
       ErrorCode_String e = "Unknown ErrorCode (" +:+ fmt_d e +:+ ")")).
Proof.
  pose proof table_names_constants as HT. rewrite Forall_forall in HT.
  assert (Hname : ∀ i name, constBlock !! i = Some name →
                            ErrorCode_String (Z.of_nat i) = name).
  { intros i name Hi.
    assert (Hlt : (i < 47)%nat) by (apply lookup_lt_Some in Hi; exact Hi).
    apply String_of_entry. rewrite HT; [done|]. apply elem_of_seq. lia. }
  split; [exact Hname|].
  split; [by apply (Hname 0%nat)|].
  split; [by apply (Hname 46%nat)|].
  split; [exact String_of_missing|].
  intros e. destruct (decide (0 <= e < 47)) as [Hin|Hout].
  - left. split; [done|].
    destruct (constBlock !! Z.to_nat e) as [name|] eqn:Hn.
    + f_equal. symmetry. rewrite <- (Hname _ _ Hn). f_equal. lia.
    + apply lookup_ge_None in Hn. simpl in Hn. lia.
  - right. split; [done|].
    assert (Hnone : errorCodeStrings !! e = None).
    { destruct (errorCodeStrings !! e) as [name|] eqn:He; [|done].
      exfalso. apply Hout.
      assert (HF : map_Forall (fun k _ => 0 <= k < 47) errorCodeStrings) by compute_done.
      exact (HF e name He). }
    split; [done|]. by apply String_of_missing.
Qed.

Lemma String_witness :
  ErrorCode_String 12 = "ErrBadCheckpoint" ∧
  ErrorCode_String 47 = "Unknown ErrorCode (47)" ∧
  ErrorCode_String (-3) = "Unknown ErrorCode (-3)".
Proof.
  destruct ErrorCode_String_names_or_unknown as (Hname & _ & _ & Hmiss & _).
  split; [|split].
  - apply (Hname 12%nat). reflexivity.
  - apply (Hmiss 47). vm_compute. reflexivity.
  - apply (Hmiss (-3)). vm_compute. reflexivity.
Defined.

(** C5: an assertion error is not a rule error: the type test for
    [RuleError] fails on every [AssertError] value (and the test for
    [AssertError] fails on every [RuleError] value), and [Error()] of
    [AssertError(s)] is "assertion failed: " followed by [s]. *)
Theorem AssertError_distinct_from_RuleError :
  (∀ a : AssertError, snd (assert_RuleError (error_AssertError a)) = false) ∧
  (∀ r : RuleError, snd (assert_AssertError (error_RuleError r)) = false) ∧
  (∀ (a : AssertError) (r : RuleError), error_AssertError a ≠ error_RuleError r) ∧
  (∀ s : string, AssertError_Error (MkAssertError s) = "assertion failed: " +:+ s) ∧
  (∀ s : string,
      error_Error (error_AssertError (MkAssertError s)) = Some ("assertion failed: " +:+ s)).
Proof. repeat split; done. Qed.

(** C10: the name table has an entry for each of the 47 constants and no
    other entry; the names are non-empty and pairwise distinct; so
    [String()] never takes the "Unknown ErrorCode" branch on a constant
    and is injective on the constants. *)
Theorem errorCodeStrings_complete_and_injective :
  length definedCodes = 47%nat ∧
  size errorCodeStrings = 47%nat ∧
  (∀ c : Z, c ∈ definedCodes →
      ∃ name : string,
        errorCodeStrings !! c = Some name ∧ name ≠ "" ∧ ErrorCode_String c = name ∧
        ErrorCode_String c ≠ "Unknown ErrorCode (" +:+ fmt_d c +:+ ")") ∧
  NoDup (ErrorCode_String <$> definedCodes) ∧
  (∀ c1 c2 : Z, c1 ∈ definedCodes → c2 ∈ definedCodes →
      ErrorCode_String c1 = ErrorCode_String c2 → c1 = c2).
Proof.
  assert (Hnd : NoDup (ErrorCode_String <$> definedCodes)) by compute_done.
  split; [reflexivity|].
  split; [by vm_compute|].
  split; [|split; [exact Hnd|]].
  - intros c Hc.
    assert (HF : Forall (fun c => is_Some (errorCodeStrings !! c) ∧
                   ErrorCode_String c ≠ "Unknown ErrorCode (" +:+ fmt_d c +:+ ")")
                   definedCodes) by compute_done.
    rewrite Forall_forall in HF. destruct (HF c Hc) as [[name Hname] Hunk].
    exists name. split; [done|]. split; [by eapply table_values_nonempty|].
    split; [by apply String_of_entry|done].
  - intros c1 c2 H1 H2 Heq.
    apply list_elem_of_lookup in H1 as [i Hi]. apply list_elem_of_lookup in H2 as [j Hj].
    assert (i = j); [|congruence].
    eapply NoDup_lookup; [exact Hnd| |].
    + rewrite list_lookup_fmap, Hi. reflexivity.
    + rewrite list_lookup_fmap, Hj. simpl. by rewrite Heq.
Qed.

Lemma errorCodeStrings_witness :
  ∃ name : string, errorCodeStrings !! ErrHighHash = Some name ∧ name ≠ "" ∧
    ErrorCode_String ErrHighHash = name ∧
    ErrorCode_String ErrHighHash ≠ "Unknown ErrorCode (" +:+ fmt_d ErrHighHash +:+ ")".
Proof.
  apply (proj1 (proj2 (proj2 errorCodeStrings_complete_and_injective)) ErrHighHash).
  vm_compute. set_solver.
Defined.

(** ** Part II: the acceptance pipeline *)

(** *** Reading results of the error monad *)

Lemma bindR_inr {A B : Type} (r : Result A) (k : A -> Result B) (b : B) :
  bindR r k = inr b → ∃ a, r = inr a ∧ k a = inr b.
Proof. destruct r as [e|a]; simpl; [discriminate|eauto]. Qed.

Lemma bindR_inl {A B : Type} (r : Result A) (k : A -> Result B) (e : error) :
  bindR r k = inl e → r = inl e ∨ ∃ a, r = inr a ∧ k a = inl e.
Proof. destruct r as [e'|a]; simpl; [intros [= ->]; by left|eauto]. Qed.

Lemma require_inr (holds : bool) (c : Z) (desc : string) (u : unit) :
  require holds c desc = inr u → holds = true.
Proof. by destruct holds. Qed.

Lemma require_inl (holds : bool) (c : Z) (desc : string) (e : error) :
  require holds c desc = inl e →
  holds = false ∧ e = error_RuleError (ruleError c desc).
Proof. destruct holds; simpl; [discriminate|]. by intros [= <-]. Qed.

Lemma require_true (c : Z) (desc : string) : require true c desc = inr tt.
Proof. reflexivity. Qed.

Lemma require_false (c : Z) (desc : string) :
  require false c desc = inl (error_RuleError (ruleError c desc)).
Proof. reflexivity. Qed.

(** Split a successful chain of binds into its steps. *)
Ltac bind_inr H :=
  let a := fresh "a" in
  let Ha := fresh "Hstep" in
  apply bindR_inr in H as (a & Ha & H).

(** *** Connecting and disconnecting on the UTXO set *)

Section UtxoRoundTrip.

Context (cfg : Config).

Lemma spendInputs_restore (ins : list (Z * nat)) :
  ∀ (height : Z) (seen : list (Z * nat)) (u u' : gmap (Z * nat) UtxoEntry)
    (spent : list ((Z * nat) * UtxoEntry)) (total : Z),
    spendInputs cfg height seen ins u = inr (u', spent, total) →
    restoreInputs spent u' = u.
Proof.
  induction ins as [|op rest IH]; intros height seen u u' spent total H; simpl in H.
  - by injection H as <- <- <-.
  - destruct (u !! op) as [e|] eqn:Hop; [|by case_bool_decide].
    bind_inr H. bind_inr H. destruct a0 as [[u1 sp1] t1].
    injection H as <- <- <-.
    unfold restoreInputs in *. simpl.
    erewrite (IH _ _ _ _ _ _ Hstep0).
    by apply insert_delete_id.
Qed.

Lemma addOutputs_remove (outs : list TxOut) :
  ∀ (h : Z) (cb : bool) (height : Z) (i : nat) (u u' : gmap (Z * nat) UtxoEntry),
    addOutputs h cb height i outs u = inr u' →
    removeOutputs h i outs u' = u.
Proof.
  induction outs as [|o rest IH]; intros h cb height i u u' H; simpl in H.
  - by injection H as <-.
  - destruct (u !! (h, i)) as [e|] eqn:Hfree; [discriminate|].
    simpl. rewrite (IH _ _ _ _ _ _ H).
    by apply delete_insert_id.
Qed.

Lemma connectTx_disconnect (height : Z) (seen : list (Z * nat)) (tx : Tx)
    (u u' : gmap (Z * nat) UtxoEntry) (spent : list ((Z * nat) * UtxoEntry)) (fee : Z) :
  connectTx cfg height seen tx u = inr (u', spent, fee) →
  disconnectTx tx spent u' = u.
Proof.
  unfold connectTx, disconnectTx. intros H.
  bind_inr H. destruct (txCoinBase tx).
  - bind_inr H. injection H as <- <- <-.
    simpl. by eapply addOutputs_remove.
  - bind_inr H. destruct a0 as [[u1 sp] totalIn].
    do 4 bind_inr H. injection H as <- <- <-.
    erewrite addOutputs_remove by eassumption.
    by eapply spendInputs_restore.
Qed.

Lemma connectTxs_disconnect (txs : list Tx) :
  ∀ (height : Z) (seen : list (Z * nat)) (u u' : gmap (Z * nat) UtxoEntry)
    (jr : list (list ((Z * nat) * UtxoEntry))) (fees sigops : Z),
    connectTxs cfg height seen txs u = inr (u', jr, fees, sigops) →
    disconnectTxs txs jr u' = u.
Proof.
  induction txs as [|tx rest IH]; intros height seen u u' jr fees sigops H; simpl in H.
  - by injection H as <- <- <- <-.
  - bind_inr H. destruct a as [[u1 sp] fee].
    bind_inr H. destruct a as [[[u2 jr'] fees'] ops'].
    injection H as <- <- <- <-. simpl.
    rewrite (IH _ _ _ _ _ _ _ Hstep0).
    by eapply connectTx_disconnect.
Qed.

Lemma checkConnectBlock_disconnect (node : ChainNode)
    (u u' : gmap (Z * nat) UtxoEntry) (jr : list (list ((Z * nat) * UtxoEntry))) :
  checkConnectBlock cfg node u = inr (u', jr) →
  disconnectTxs (blkTxs (nodeBlock node)) jr u' = u.
Proof.
  unfold checkConnectBlock. intros H.
  bind_inr H. destruct a as [[[u1 jr1] fees] sigops].
  do 3 bind_inr H. injection H as <- <-.
  by eapply connectTxs_disconnect.
Qed.

End UtxoRoundTrip.

(** C9: disconnecting a block that was connected and then reconnecting
    the same block restores the UTXO set and the admin-key-set snapshot to
    their values before the disconnect.  The disconnect itself restores
    the UTXO set and the best chain to what they were before the block was
    connected, and the reconnect rebuilds the very same state. *)
Theorem disconnect_then_reconnect_restores (cfg : Config) (s0 s1 : ChainState)
    (node : ChainNode) :
  connectBlock cfg s0 node = inr s1 →
  ∃ s0' s1' : ChainState,
    disconnectTip s1 = inr s0' ∧
    utxo s0' = utxo s0 ∧
    bestChain s0' = bestChain s0 ∧
    index s1 !! nodeHash node = Some (setStatus Valid node) ∧
    connectBlock cfg s0' (setStatus Valid node) = inr s1' ∧
    utxo s1' = utxo s1 ∧
    adminKeySets s1' = adminKeySets s1 ∧
    s1' = s1.
Proof.
  unfold connectBlock. intros H.
  destruct (tipHash s0) as [t|] eqn:Htip; [|discriminate].
  destruct (nodeParent node =? t) eqn:Hpar; simpl in H; [|discriminate].
  bind_inr H. destruct a as [u' jr]. injection H as <-.
  pose proof (checkConnectBlock_disconnect _ _ _ _ _ Hstep) as Hundo.
  eexists _, _. split.
  { unfold disconnectTip. simpl. rewrite !lookup_insert_eq. reflexivity. }
  simpl. rewrite Hundo.
  split; [done|]. split; [done|].
  split; [by rewrite lookup_insert_eq|].
  unfold tipHash in *. simpl. rewrite Htip.
  change (nodeParent (setStatus Valid node)) with (nodeParent node).
  rewrite Hpar. simpl.
  change (checkConnectBlock cfg (setStatus Valid node) (utxo s0))
    with (checkConnectBlock cfg node (utxo s0)).
  rewrite Hstep. simpl.
  split; [reflexivity|].
  assert (Heq :
    {| index := <[nodeHash (setStatus Valid node) := setStatus Valid (setStatus Valid node)]>
                  (<[nodeHash node := setStatus Valid node]> (index s0));
       bestChain := nodeHash (setStatus Valid node) :: bestChain s0;
       utxo := u';
       journal := <[nodeHash (setStatus Valid node) := jr]>
                    (delete (nodeHash node) (<[nodeHash node := jr]> (journal s0)));
       orphans := orphans s0 |}
    = {| index := <[nodeHash node := setStatus Valid node]> (index s0);
         bestChain := nodeHash node :: bestChain s0;
         utxo := u';
         journal := <[nodeHash node := jr]> (journal s0);
         orphans := orphans s0 |}).
  { change (nodeHash (setStatus Valid node)) with (nodeHash node).
    change (setStatus Valid (setStatus Valid node)) with (setStatus Valid node).
    by rewrite insert_insert_eq, insert_delete_eq, insert_insert_eq. }
  rewrite Heq. by repeat split.
Qed.

(** *** Every stage fails with an error of the taxonomy *)

Lemma defined_const (c : Z) : bool_decide (0 <= c < 47) = true → c ∈ definedCodes.
Proof. intros H. apply definedCodes_range. by apply bool_decide_eq_true in H. Qed.

Lemma IsRuleError_ruleError (c : Z) (desc : string) :
  bool_decide (0 <= c < 47) = true → IsRuleError (error_RuleError (ruleError c desc)).
Proof. intros H. eexists. split; [reflexivity|]. by apply defined_const. Qed.

Lemma IsRuleError_not_nil (e : error) : IsRuleError e → e ≠ error_nil.
Proof. by intros (re & -> & _). Qed.

Lemma IsFailure_not_nil (e : error) : IsFailure e → e ≠ error_nil.
Proof. intros [H|[a ->]]; [by apply IsRuleError_not_nil|done]. Qed.

Lemma IsFailure_assert (msg : string) :
  IsFailure (error_AssertError (MkAssertError msg)).
Proof. right. by eexists. Qed.

(** Walk a failed chain of binds down to the rule that failed. *)
Ltac failed_rule H :=
  cbv beta in H;
  lazymatch type of H with
  | bindR _ _ = inl _ =>
      apply bindR_inl in H as [H | (? & _ & H)]; [failed_rule H | failed_rule H]
  | require _ _ _ = inl _ =>
      apply require_inl in H as [_ ->]; by apply IsRuleError_ruleError
  | inr _ = inl _ => discriminate H
  | _ => idtac
  end.

Section StageErrors.

Context (cfg : Config).

Lemma forEach_inl {A : Type} (f : A -> Result unit) (l : list A) (e : error) :
  forEach f l = inl e → ∃ x, x ∈ l ∧ f x = inl e.
Proof.
  induction l as [|x rest IH]; simpl; [discriminate|]. intros H.
  apply bindR_inl in H as [H | (? & _ & H)].
  - exists x. split; [left|done].
  - destruct (IH H) as (y & Hy & Hf). exists y. split; [by right|done].
Qed.

Lemma checkOutputValues_error (outs : list TxOut) :
  ∀ (total : Z) (e : error), checkOutputValues cfg total outs = inl e → IsRuleError e.
Proof.
  induction outs as [|o rest IH]; intros total e H; simpl in H; [discriminate|].
  failed_rule H. by eapply IH.
Qed.

Lemma checkTransactionSanity_error (height time : Z) (tx : Tx) (e : error) :
  checkTransactionSanity cfg height time tx = inl e → IsRuleError e.
Proof.
  unfold checkTransactionSanity. intros H. failed_rule H.
  by eapply checkOutputValues_error.
Qed.

Lemma checkBlockSanity_error (b : Block) (e : error) :
  checkBlockSanity cfg b = inl e → IsRuleError e.
Proof.
  unfold checkBlockSanity. intros H. failed_rule H.
  apply forEach_inl in H as (tx & _ & H). by eapply checkTransactionSanity_error.
Qed.

Lemma applyAdminOp_error (signer : Z) (a : AdminKeySets) (op : AdminOp) (e : error) :
  applyAdminOp signer a op = inl e → IsRuleError e.
Proof. unfold applyAdminOp. intros H. failed_rule H. destruct op; failed_rule H. Qed.

Lemma applyAdminOps_error (signer : Z) (ops : list AdminOp) :
  ∀ (a : AdminKeySets) (e : error), applyAdminOps signer a ops = inl e → IsRuleError e.
Proof.
  induction ops as [|op rest IH]; intros a e H; simpl in H; [discriminate|].
  failed_rule H; [by eapply applyAdminOp_error|by eapply IH].
Qed.

Lemma applyAdminTx_error (a : AdminKeySets) (tx : Tx) (e : error) :
  applyAdminTx cfg a tx = inl e → IsRuleError e.
Proof.
  unfold applyAdminTx. intros H. destruct (txAdmin tx) as [[signer ops]|]; [|discriminate].
  failed_rule H. by eapply applyAdminOps_error.
Qed.

Lemma applyAdminTxs_error (txs : list Tx) :
  ∀ (a : AdminKeySets) (e : error), applyAdminTxs cfg a txs = inl e → IsRuleError e.
Proof.
  induction txs as [|tx rest IH]; intros a e H; simpl in H; [discriminate|].
  failed_rule H; [by eapply applyAdminTx_error|by eapply IH].
Qed.

Lemma checkChainPosition_error (flags : BehaviorFlags) (now : Z) (s : ChainState)
    (b : Block) (parent : ChainNode) (e : error) :
  checkChainPosition cfg flags now s b parent = inl e → IsRuleError e.
Proof. unfold checkChainPosition. intros H. failed_rule H. Qed.

Lemma checkCheckpoints_error (s : ChainState) (b : Block) (parent : ChainNode) (e : error) :
  checkCheckpoints cfg s b parent = inl e → IsRuleError e.
Proof. unfold checkCheckpoints. intros H. failed_rule H. Qed.

Lemma checkBlockContext_error (flags : BehaviorFlags) (now : Z) (s : ChainState)
    (b : Block) (parent : ChainNode) (e : error) :
  checkBlockContext cfg flags now s b parent = inl e → IsRuleError e.
Proof.
  unfold checkBlockContext. intros H. failed_rule H.
  - by eapply checkChainPosition_error.
  - by eapply checkCheckpoints_error.
  - by eapply applyAdminTxs_error.
Qed.

Lemma checkBlockContext_node (flags : BehaviorFlags) (now : Z) (s : ChainState)
    (b : Block) (parent node : ChainNode) :
  checkBlockContext cfg flags now s b parent = inr node → nodeBlock node = b.
Proof.
  unfold checkBlockContext. intros H. do 7 bind_inr H. by injection H as <-.
Qed.

Lemma spendInputs_error (ins : list (Z * nat)) :
  ∀ (height : Z) (seen : list (Z * nat)) (u : gmap (Z * nat) UtxoEntry) (e : error),
    spendInputs cfg height seen ins u = inl e → IsRuleError e.
Proof.
  induction ins as [|op rest IH]; intros height seen u e H; simpl in H; [discriminate|].
  destruct (u !! op) as [ent|].
  - failed_rule H; [by eapply IH|]. by destruct x0 as [[? ?] ?].
  - case_bool_decide; injection H as <-; by apply IsRuleError_ruleError.
Qed.

Lemma addOutputs_error (outs : list TxOut) :
  ∀ (h : Z) (cb : bool) (height : Z) (i : nat) (u : gmap (Z * nat) UtxoEntry) (e : error),
    addOutputs h cb height i outs u = inl e → IsRuleError e.
Proof.
  induction outs as [|o rest IH]; intros h cb height i u e H; simpl in H; [discriminate|].
  destruct (u !! (h, i)).
  - injection H as <-. by apply IsRuleError_ruleError.
  - by eapply IH.
Qed.

Lemma connectTx_error (height : Z) (seen : list (Z * nat)) (tx : Tx)
    (u : gmap (Z * nat) UtxoEntry) (e : error) :
  connectTx cfg height seen tx u = inl e → IsRuleError e.
Proof.
  unfold connectTx. intros H. failed_rule H. destruct (txCoinBase tx).
  - failed_rule H. by eapply addOutputs_error.
  - failed_rule H; [by eapply spendInputs_error|].
    destruct x0 as [[u1 sp] totalIn]. failed_rule H. by eapply addOutputs_error.
Qed.

Lemma connectTxs_error (txs : list Tx) :
  ∀ (height : Z) (seen : list (Z * nat)) (u : gmap (Z * nat) UtxoEntry) (e : error),
    connectTxs cfg height seen txs u = inl e → IsRuleError e.
Proof.
  induction txs as [|tx rest IH]; intros height seen u e H; simpl in H; [discriminate|].
  failed_rule H; [by eapply connectTx_error|].
  destruct x as [[u1 sp] fee]. failed_rule H; [by eapply IH|].
  by destruct x as [[[? ?] ?] ?].
Qed.

Lemma checkConnectBlock_error (node : ChainNode) (u : gmap (Z * nat) UtxoEntry) (e : error) :
  checkConnectBlock cfg node u = inl e → IsRuleError e.
Proof.
  unfold checkConnectBlock. intros H. failed_rule H; [by eapply connectTxs_error|].
  destruct x as [[[u1 jr] fees] sigops]. failed_rule H.
Qed.

End StageErrors.

(** *** The chain selector only adds to the block tree *)

Lemma Grows_refl (s : ChainState) : Grows s s.
Proof. by split. Qed.

Lemma Grows_trans (s1 s2 s3 : ChainState) : Grows s1 s2 → Grows s2 s3 → Grows s1 s3.
Proof. intros [Hi1 Ho1] [Hi2 Ho2]. split; [auto|congruence]. Qed.

Lemma Grows_Later (s s' : ChainState) : Grows s s' → Later s s'.
Proof. intros [Hi Ho]. split; [done|]. intros h o. by rewrite Ho. Qed.

Lemma Later_refl (s : ChainState) : Later s s.
Proof. by split. Qed.

Lemma Later_trans (s1 s2 s3 : ChainState) : Later s1 s2 → Later s2 s3 → Later s1 s3.
Proof. intros [Hi1 Ho1] [Hi2 Ho2]. split; auto. Qed.

Section Selector.

Context (cfg : Config).

Lemma connectBlock_error (s : ChainState) (node : ChainNode) (e : error) :
  connectBlock cfg s node = inl e → IsFailure e.
Proof.
  unfold connectBlock. intros H.
  destruct (tipHash s) as [t|]; [|injection H as <-; apply IsFailure_assert].
  destruct (negb (nodeParent node =? t)); [injection H as <-; apply IsFailure_assert|].
  apply bindR_inl in H as [H | ([u jr] & _ & H)]; [|discriminate].
  left. by eapply checkConnectBlock_error.
Qed.

Lemma connectBlock_grows (s s' : ChainState) (node : ChainNode) :
  connectBlock cfg s node = inr s' →
  Grows s s' ∧ is_Some (index s' !! nodeHash node).
Proof.
  unfold connectBlock. intros H.
  destruct (tipHash s) as [t|]; [|discriminate].
  destruct (negb (nodeParent node =? t)); [discriminate|].
  bind_inr H. destruct a as [u jr]. injection H as <-. simpl.
  split; [split; [|done]|].
  - intros h Hh. simpl. rewrite lookup_insert_is_Some. destruct (decide (nodeHash node = h)); auto.
  - rewrite lookup_insert_eq. by eexists.
Qed.

Lemma disconnectTip_error (s : ChainState) (e : error) :
  disconnectTip s = inl e → IsFailure e.
Proof.
  unfold disconnectTip. intros H.
  destruct (bestChain s) as [|t rest]; [injection H as <-; apply IsFailure_assert|].
  destruct (index s !! t), (journal s !! t);
    first [discriminate | injection H as <-; apply IsFailure_assert].
Qed.

Lemma disconnectTip_grows (s s' : ChainState) : disconnectTip s = inr s' → Grows s s'.
Proof.
  unfold disconnectTip. intros H.
  destruct (bestChain s) as [|t rest]; [discriminate|].
  destruct (index s !! t), (journal s !! t); try discriminate.
  injection H as <-. by split.
Qed.

Lemma disconnectTo_error (fuel : nat) (fork : Z) :
  ∀ (s : ChainState) (e : error), disconnectTo fuel fork s = inl e → IsFailure e.
Proof.
  induction fuel as [|k IH]; intros s e H; simpl in H;
    (destruct (tipHash s) as [t|]; [|injection H as <-; apply IsFailure_assert]);
    (destruct (t =? fork); [discriminate|]).
  - injection H as <-. apply IsFailure_assert.
  - apply bindR_inl in H as [H | (s1 & _ & H)]; [by eapply disconnectTip_error|by eapply IH].
Qed.

Lemma disconnectTo_grows (fuel : nat) (fork : Z) :
  ∀ s s' : ChainState, disconnectTo fuel fork s = inr s' → Grows s s'.
Proof.
  induction fuel as [|k IH]; intros s s' H; simpl in H;
    (destruct (tipHash s) as [t|]; [|discriminate]);
    (destruct (t =? fork); [injection H as <-; apply Grows_refl|]).
  - discriminate.
  - bind_inr H. eapply Grows_trans; [by eapply disconnectTip_grows|by eapply IH].
Qed.

Lemma connectNodes_error (nodes : list ChainNode) :
  ∀ (s : ChainState) (e : error), connectNodes cfg nodes s = inl e → IsFailure e.
Proof.
  induction nodes as [|n rest IH]; intros s e H; simpl in H; [discriminate|].
  apply bindR_inl in H as [H | (s1 & _ & H)]; [by eapply connectBlock_error|by eapply IH].
Qed.

Lemma connectNodes_grows (nodes : list ChainNode) :
  ∀ s s' : ChainState, connectNodes cfg nodes s = inr s' →
    Grows s s' ∧ ∀ n, n ∈ nodes → is_Some (index s' !! nodeHash n).
Proof.
  induction nodes as [|n rest IH]; intros s s' H; simpl in H.
  - injection H as <-. split; [apply Grows_refl|]. intros n Hn. by apply elem_of_nil in Hn.
  - bind_inr H. destruct (connectBlock_grows _ _ _ Hstep) as [Hg Hn].
    destruct (IH _ _ H) as [Hg' Hrest].
    split; [by eapply Grows_trans|].
    intros m Hm. apply elem_of_cons in Hm as [->|Hm]; [|by apply Hrest].
    by apply Hg'.
Qed.

Lemma reorganizeChain_error (s : ChainState) (node : ChainNode) (e : error) :
  reorganizeChain cfg s node = inl e → IsFailure e.
Proof.
  unfold reorganizeChain. intros H.
  destruct (branchFrom s (size (index s)) (nodeParent node) []) as [[fork attach]|];
    [|injection H as <-; apply IsFailure_assert].
  apply bindR_inl in H as [H | (s1 & _ & H)];
    [by eapply disconnectTo_error|by eapply connectNodes_error].
Qed.

Lemma reorganizeChain_grows (s s' : ChainState) (node : ChainNode) :
  reorganizeChain cfg s node = inr s' →
  Grows s s' ∧ is_Some (index s' !! nodeHash node).
Proof.
  unfold reorganizeChain. intros H.
  destruct (branchFrom s (size (index s)) (nodeParent node) []) as [[fork attach]|];
    [|discriminate].
  bind_inr H. destruct (connectNodes_grows _ _ _ H) as [Hg Hall].
  split; [eapply Grows_trans; [by eapply disconnectTo_grows|done]|].
  apply Hall. apply elem_of_app. right. by apply list_elem_of_singleton.
Qed.

Lemma connectBestChain_error (s : ChainState) (node : ChainNode) (e : error) :
  connectBestChain cfg s node = inl e → IsFailure e.
Proof.
  unfold connectBestChain. intros H.
  destruct (tipHash s) as [t|], (tipNode s) as [tip|];
    try (injection H as <-; apply IsFailure_assert).
  destruct (nodeParent node =? t).
  - apply bindR_inl in H as [H | (s1 & _ & H)]; [by eapply connectBlock_error|discriminate].
  - destruct (nodeWork node <=? nodeWork tip); [discriminate|].
    apply bindR_inl in H as [H | (s1 & _ & H)]; [by eapply reorganizeChain_error|discriminate].
Qed.

Lemma connectBestChain_grows (s s' : ChainState) (node : ChainNode) (isMain : bool) :
  connectBestChain cfg s node = inr (s', isMain) →
  Grows s s' ∧ is_Some (index s' !! nodeHash node).
Proof.
  unfold connectBestChain. intros H.
  destruct (tipHash s) as [t|], (tipNode s) as [tip|]; try discriminate.
  destruct (nodeParent node =? t).
  - bind_inr H. injection H as <- <-. by eapply connectBlock_grows.
  - destruct (nodeWork node <=? nodeWork tip).
    + injection H as <- <-. simpl. split; [split; [|done]|].
      * intros h Hh. simpl. rewrite lookup_insert_is_Some.
        destruct (decide (nodeHash node = h)); auto.
      * rewrite lookup_insert_eq. by eexists.
    + bind_inr H. injection H as <- <-. by eapply reorganizeChain_grows.
Qed.

Lemma maybeAcceptBlock_error (flags : BehaviorFlags) (now : Z) (s : ChainState)
    (b : Block) (e : error) :
  maybeAcceptBlock cfg flags now s b = inl e → IsFailure e.
Proof.
  unfold maybeAcceptBlock. intros H.
  destruct (index s !! hdrPrevBlock (blkHeader b)) as [parent|];
    [|injection H as <-; apply IsFailure_assert].
  apply bindR_inl in H as [H | (node & _ & H)].
  - left. by eapply checkBlockContext_error.
  - by eapply connectBestChain_error.
Qed.

Lemma maybeAcceptBlock_grows (flags : BehaviorFlags) (now : Z) (s s' : ChainState)
    (b : Block) (isMain : bool) :
  maybeAcceptBlock cfg flags now s b = inr (s', isMain) →
  Grows s s' ∧ is_Some (index s' !! blkHash b).
Proof.
  unfold maybeAcceptBlock. intros H.
  destruct (index s !! hdrPrevBlock (blkHeader b)) as [parent|]; [|discriminate].
  bind_inr H. apply connectBestChain_grows in H.
  unfold nodeHash in H. by rewrite (checkBlockContext_node _ _ _ _ _ _ _ Hstep) in H.
Qed.

End Selector.

(** *** Orphans leave the pool through the same pipeline *)

Section Orphans.

Context (cfg : Config).

Lemma removeOrphan_later (h : Z) (s : ChainState) : Later s (removeOrphan h s).
Proof.
  split; [done|]. intros k o. simpl. rewrite lookup_delete_Some. by intros [_ ?].
Qed.

Lemma orphanChildren_elem (s : ChainState) (o : Block) (exp : Z) :
  orphans s !! blkHash o = Some (MkOrphan o exp) →
  o ∈ orphanChildren s (hdrPrevBlock (blkHeader o)).
Proof.
  intros H. unfold orphanChildren. apply list_elem_of_filter. split; [done|].
  apply list_elem_of_fmap. exists (MkOrphan o exp). split; [done|].
  apply list_elem_of_fmap. exists (blkHash o, MkOrphan o exp). split; [done|].
  by apply elem_of_map_to_list.
Qed.

(** What became of the orphans that were taken out of the pool: each is
    a known block now, or a rule of the pipeline rejected it in a state
    that came after [s] and no longer held the orphan. *)
Lemma acceptOrphans_fate (flags : BehaviorFlags) (now : Z) (l : list Block) :
  ∀ (s s' : ChainState) (acc acc' : list Z),
    acceptOrphans cfg flags now l s acc = inr (s', acc') →
    Later s s' ∧
    ∀ o, o ∈ l →
      orphans s' !! blkHash o = None ∧
      (is_Some (index s' !! blkHash o) ∨
       ∃ (mid : ChainState) (re : RuleError),
         Later s mid ∧ orphans mid !! blkHash o = None ∧
         maybeAcceptBlock cfg flags now mid o = inl (error_RuleError re)).
Proof.
  induction l as [|x rest IH]; intros s s' acc acc' H; simpl in H.
  - injection H as <- <-. split; [apply Later_refl|]. intros o Ho. by apply elem_of_nil in Ho.
  - pose proof (removeOrphan_later (blkHash x) s) as Hrm.
    assert (Hgone : orphans (removeOrphan (blkHash x) s) !! blkHash x = None)
      by apply lookup_delete_eq.
    destruct (maybeAcceptBlock cfg flags now (removeOrphan (blkHash x) s) x)
      as [e|[s2 m]] eqn:Hacc.
    + destruct e as [|a|re|msg]; try discriminate.
      destruct (IH _ _ _ _ H) as [Hl Hrest].
      split; [by eapply Later_trans|].
      intros o Ho. apply elem_of_cons in Ho as [->|Ho].
      * split.
        -- destruct (orphans s' !! blkHash x) as [y|] eqn:Hy; [|done].
           apply (proj2 Hl) in Hy. congruence.
        -- right. by exists (removeOrphan (blkHash x) s), re.
      * destruct (Hrest o Ho) as [Hg [Hin|(mid & re' & Hmid & Hrej)]].
        -- split; [done|by left].
        -- split; [done|]. right. exists mid, re'. split; [by eapply Later_trans|done].
    + destruct (maybeAcceptBlock_grows _ _ _ _ _ _ _ Hacc) as [Hg Hin].
      destruct (IH _ _ _ _ H) as [Hl Hrest].
      assert (Hl1 : Later s s2)
        by (eapply Later_trans; [exact Hrm|by apply Grows_Later]).
      split; [by eapply Later_trans|].
      intros o Ho. apply elem_of_cons in Ho as [->|Ho].
      * split.
        -- destruct (orphans s' !! blkHash x) as [y|] eqn:Hy; [|done].
           apply (proj2 Hl) in Hy. rewrite (proj2 Hg) in Hy. congruence.
        -- left. by apply (proj1 Hl).
      * destruct (Hrest o Ho) as [Hg' [Hin'|(mid & re' & Hmid & Hrej)]].
        -- split; [done|by left].
        -- split; [done|]. right. exists mid, re'. split; [by eapply Later_trans|done].
Qed.

(** Orphan processing stops on assertion failures only. *)
Lemma acceptOrphans_error (flags : BehaviorFlags) (now : Z) (l : list Block) :
  ∀ (s : ChainState) (acc : list Z) (e : error),
    acceptOrphans cfg flags now l s acc = inl e → ∃ a : AssertError, e = error_AssertError a.
Proof.
  induction l as [|x rest IH]; intros s acc e H; simpl in H; [discriminate|].
  destruct (maybeAcceptBlock cfg flags now (removeOrphan (blkHash x) s) x)
    as [e0|[s2 m]] eqn:Hacc; [|by eapply IH].
  destruct (maybeAcceptBlock_error _ _ _ _ _ _ Hacc) as [(re & -> & _)|[a ->]].
  - by eapply IH.
  - injection H as <-. by exists a.
Qed.

Lemma processOrphans_later (flags : BehaviorFlags) (now : Z) (fuel : nat) :
  ∀ (work : list Z) (s s' : ChainState),
    processOrphans cfg flags now fuel work s = inr s' → Later s s'.
Proof.
  induction fuel as [|k IH]; intros work s s' H; simpl in H.
  - injection H as <-. apply Later_refl.
  - destruct work as [|h rest]; [injection H as <-; apply Later_refl|].
    bind_inr H. destruct a as [s1 accepted].
    eapply Later_trans; [|by eapply IH].
    by destruct (acceptOrphans_fate _ _ _ _ _ _ _ Hstep).
Qed.

Lemma processOrphans_error (flags : BehaviorFlags) (now : Z) (fuel : nat) :
  ∀ (work : list Z) (s : ChainState) (e : error),
    processOrphans cfg flags now fuel work s = inl e →
    ∃ a : AssertError, e = error_AssertError a.
Proof.
  induction fuel as [|k IH]; intros work s e H; simpl in H; [discriminate|].
  destruct work as [|h rest]; [discriminate|].
  apply bindR_inl in H as [H | ([s1 accepted] & _ & H)];
    [by eapply acceptOrphans_error|by eapply IH].
Qed.

End Orphans.

(** *** The entry point, branch by branch *)

Section EntryPoint.

Context (cfg : Config).

Lemma ProcessBlock_cases (flags : BehaviorFlags) (now : Z) (s : ChainState) (b : Block) :
  (is_Some (index s !! blkHash b) ∧
   ProcessBlock cfg flags now s b =
     reject s (error_RuleError (ruleError ErrDuplicateBlock "already have block"))) ∨
  (is_Some (orphans s !! blkHash b) ∧
   ProcessBlock cfg flags now s b =
     reject s (error_RuleError (ruleError ErrDuplicateBlock "already have block (orphan)"))) ∨
  (NotKnown s b ∧ ∃ e, checkBlockSanity cfg b = inl e ∧
   ProcessBlock cfg flags now s b = reject s e) ∨
  (NotKnown s b ∧ checkBlockSanity cfg b = inr tt ∧
   index s !! hdrPrevBlock (blkHeader b) = None ∧
   ProcessBlock cfg flags now s b = (addOrphanBlock cfg now s b, (false, true, error_nil))) ∨
  (NotKnown s b ∧ checkBlockSanity cfg b = inr tt ∧
   is_Some (index s !! hdrPrevBlock (blkHeader b)) ∧
   ∃ e, maybeAcceptBlock cfg flags now s b = inl e ∧
   ProcessBlock cfg flags now s b = reject s e) ∨
  (NotKnown s b ∧ checkBlockSanity cfg b = inr tt ∧
   is_Some (index s !! hdrPrevBlock (blkHeader b)) ∧
   ∃ s1 isMain a, maybeAcceptBlock cfg flags now s b = inr (s1, isMain) ∧
   processOrphans cfg flags now (S (size (orphans s1))) [blkHash b] s1
     = inl (error_AssertError a) ∧
   ProcessBlock cfg flags now s b = reject s (error_AssertError a)) ∨
  (NotKnown s b ∧ checkBlockSanity cfg b = inr tt ∧
   is_Some (index s !! hdrPrevBlock (blkHeader b)) ∧
   ∃ s1 isMain s2, maybeAcceptBlock cfg flags now s b = inr (s1, isMain) ∧
   processOrphans cfg flags now (S (size (orphans s1))) [blkHash b] s1 = inr s2 ∧
   ProcessBlock cfg flags now s b = (s2, (isMain, false, error_nil))).
Proof.
  unfold ProcessBlock.
  case_bool_decide as Hidx; [by left|].
  case_bool_decide as Horph; [by right; left|].
  assert (Hnew : NotKnown s b).
  { split; apply eq_None_not_Some; done. }
  do 2 right.
  destruct (checkBlockSanity cfg b) as [e|[]] eqn:Hsane; [left; eauto|].
  right.
  destruct (index s !! hdrPrevBlock (blkHeader b)) as [parent|] eqn:Hparent; [|by left].
  right.
  destruct (maybeAcceptBlock cfg flags now s b) as [e|[s1 isMain]] eqn:Hacc.
  - left. split; [done|]. split; [done|]. split; [by eexists|]. by exists e.
  - right.
    destruct (processOrphans cfg flags now (S (size (orphans s1))) [blkHash b] s1)
      as [e|s2] eqn:Horphans.
    + left. destruct (processOrphans_error _ _ _ _ _ _ _ Horphans) as [a ->].
      split; [done|]. split; [done|]. split; [by eexists|]. by exists s1, isMain, a.
    + right. split; [done|]. split; [done|]. split; [by eexists|]. by exists s1, isMain, s2.
Qed.

Lemma maybeAcceptBlock_violation (flags : BehaviorFlags) (now : Z) (s : ChainState)
    (b : Block) (re : RuleError) :
  maybeAcceptBlock cfg flags now s b = inl (error_RuleError re) →
  RuleViolation cfg flags now s b re.
Proof.
  unfold maybeAcceptBlock. intros H.
  destruct (index s !! hdrPrevBlock (blkHeader b)) as [parent|] eqn:Hparent; [|discriminate].
  apply bindR_inl in H as [H | (node & Hnode & H)].
  - by eapply violation_context.
  - by eapply violation_connect.
Qed.

Lemma violation_maybeAcceptBlock (flags : BehaviorFlags) (now : Z) (s : ChainState)
    (b : Block) (re : RuleError) :
  NotKnown s b → checkBlockSanity cfg b = inr tt →
  RuleViolation cfg flags now s b re →
  maybeAcceptBlock cfg flags now s b = inl (error_RuleError re).
Proof.
  intros [Hidx Horph] Hsane Hviol. unfold maybeAcceptBlock.
  destruct Hviol as [desc [[x Hx]|[x Hx]]|re Hre|re parent Hp Hctx|re parent node Hp Hctx Hconn];
    try congruence.
  - by rewrite Hp, Hctx.
  - by rewrite Hp, Hctx.
Qed.

Lemma testRejectedBlock_RuleError (isMain isOrphan : bool) (re : RuleError) :
  testRejectedBlock (isMain, isOrphan, error_RuleError re) (RuleError_ErrorCode re) = true.
Proof. unfold testRejectedBlock. simpl. by rewrite Z.eqb_refl. Qed.

(** C1: whenever [ProcessBlock] meets a rule violation it returns a
    [RuleError] (never an error of another type) that names a rule the
    block violates, with a code of the taxonomy, so the harness's
    [testRejectedBlock] passes on that code; with any error both booleans
    are false and the engine state is untouched; with a nil error the
    block was accepted, held as an orphan or entered in the block tree,
    and the booleans say which. *)
Theorem ProcessBlock_returns_the_rule_error (flags : BehaviorFlags) (now : Z)
    (s s' : ChainState) (b : Block) (isMainChain isOrphan : bool) (err : error) :
  ProcessBlock cfg flags now s b = (s', (isMainChain, isOrphan, err)) →
  match err with
  | error_nil =>
      (isOrphan = true ∧ isMainChain = false ∧ is_Some (orphans s' !! blkHash b)) ∨
      (isOrphan = false ∧ is_Some (index s' !! blkHash b))
  | error_RuleError re =>
      RuleViolation cfg flags now s b re ∧
      RuleError_ErrorCode re ∈ definedCodes ∧
      testRejectedBlock (isMainChain, isOrphan, err) (RuleError_ErrorCode re) = true ∧
      isMainChain = false ∧ isOrphan = false ∧ s' = s
  | error_AssertError _ => isMainChain = false ∧ isOrphan = false ∧ s' = s
  | error_foreign _ => False
  end ∧
  (∀ re : RuleError, RuleViolation cfg flags now s b re →
     ∃ re' : RuleError, err = error_RuleError re' ∧ RuleViolation cfg flags now s b re').
Proof.
  intros H.
  destruct (ProcessBlock_cases flags now s b)
    as [[Hk Hpb]|[[Hk Hpb]|[(Hnew & e & Hsane & Hpb)|[(Hnew & Hsane & Hparent & Hpb)|
        [(Hnew & Hsane & Hparent & e & Hacc & Hpb)|
        [(Hnew & Hsane & Hparent & s1 & m & a & Hacc & Horph & Hpb)|
         (Hnew & Hsane & Hparent & s1 & m & s2 & Hacc & Horph & Hpb)]]]]]];
    rewrite Hpb in H; unfold reject in H; injection H as <- <- <- <-.
  - assert (Hv : RuleViolation cfg flags now s b
                   (ruleError ErrDuplicateBlock "already have block"))
      by (apply violation_duplicate; by left).
    split; [|eauto].
    split; [done|]. split; [by apply defined_const|]. by repeat split.
  - assert (Hv : RuleViolation cfg flags now s b
                   (ruleError ErrDuplicateBlock "already have block (orphan)"))
      by (apply violation_duplicate; by right).
    split; [|eauto].
    split; [done|]. split; [by apply defined_const|]. by repeat split.
  - destruct (checkBlockSanity_error _ _ _ Hsane) as (re & -> & Hcode).
    assert (Hv : RuleViolation cfg flags now s b re) by by apply violation_structural.
    split; [|eauto].
    split; [done|]. split; [done|]. split; [apply testRejectedBlock_RuleError|done].
  - split.
    + left. split; [done|]. split; [done|]. simpl. rewrite lookup_insert_eq. by eexists.
    + intros re Hviol. destruct Hnew as [Hidx Horph].
      destruct Hviol as [desc [[x Hx]|[x Hx]]|re Hre|re parent Hp _|re parent node Hp _ _];
        congruence.
  - split.
    + destruct (maybeAcceptBlock_error _ _ _ _ _ _ Hacc) as [(re & -> & Hcode)|[a ->]].
      * split; [by apply maybeAcceptBlock_violation|].
        split; [done|]. split; [apply testRejectedBlock_RuleError|done].
      * done.
    + intros re Hviol.
      pose proof (violation_maybeAcceptBlock _ _ _ _ _ Hnew Hsane Hviol) as Hre.
      rewrite Hacc in Hre. injection Hre as ->. eauto.
  - split; [done|].
    intros re Hviol.
    pose proof (violation_maybeAcceptBlock _ _ _ _ _ Hnew Hsane Hviol) as Hre.
    congruence.
  - split.
    + right. split; [done|].
      apply (proj1 (processOrphans_later cfg flags now _ _ _ _ Horph)).
      by destruct (maybeAcceptBlock_grows _ _ _ _ _ _ _ Hacc).
    + intros re Hviol.
      pose proof (violation_maybeAcceptBlock _ _ _ _ _ Hnew Hsane Hviol) as Hre.
      congruence.
Qed.

End EntryPoint.

Section CheckpointClaim.

Context (cfg : Config).

Lemma ProcessBlock_context_reject (flags : BehaviorFlags) (now : Z) (s : ChainState)
    (b : Block) (parent : ChainNode) (e : error) :
  NotKnown s b →
  checkBlockSanity cfg b = inr tt →
  index s !! hdrPrevBlock (blkHeader b) = Some parent →
  checkBlockContext cfg flags now s b parent = inl e →
  ProcessBlock cfg flags now s b = (s, (false, false, e)).
Proof.
  intros [Hidx Horph] Hsane Hparent Hctx. unfold ProcessBlock.
  rewrite Hidx, Horph.
  rewrite !bool_decide_eq_false_2 by (by intros [? ?]).
  rewrite Hsane, Hparent. unfold maybeAcceptBlock. by rewrite Hparent, Hctx.
Qed.

Lemma ProcessBlock_rejects_when_context_fails (flags : BehaviorFlags) (now : Z)
    (s : ChainState) (b : Block) (parent : ChainNode) (e : error) :
  index s !! hdrPrevBlock (blkHeader b) = Some parent →
  checkBlockContext cfg flags now s b parent = inl e →
  ∃ re : RuleError, ProcessBlock cfg flags now s b = (s, (false, false, error_RuleError re)).
Proof.
  intros Hparent Hctx.
  destruct (ProcessBlock_cases cfg flags now s b)
    as [[Hk Hpb]|[[Hk Hpb]|[(Hnew & e' & Hsane & Hpb)|[(Hnew & Hsane & Hp & Hpb)|
        [(Hnew & Hsane & Hp & e' & Hacc & Hpb)|
        [(Hnew & Hsane & Hp & s1 & m & a & Hacc & _)|
         (Hnew & Hsane & Hp & s1 & m & s2 & Hacc & _)]]]]]].
  - by eexists.
  - by eexists.
  - destruct (checkBlockSanity_error _ _ _ Hsane) as (re & -> & _). by exists re.
  - congruence.
  - destruct (checkBlockContext_error _ _ _ _ _ _ _ Hctx) as (re & -> & _). exists re.
    by eapply ProcessBlock_context_reject.
  - unfold maybeAcceptBlock in Hacc. by rewrite Hparent, Hctx in Hacc.
  - unfold maybeAcceptBlock in Hacc. by rewrite Hparent, Hctx in Hacc.
Qed.

Lemma checkpoint_mismatch_context (flags : BehaviorFlags) (now : Z) (s : ChainState)
    (b : Block) (parent : ChainNode) (pinned : Z) :
  checkpointAt cfg (blkHeight b) = Some pinned → blkHash b ≠ pinned →
  ∃ e, checkBlockContext cfg flags now s b parent = inl e ∧
       (checkChainPosition cfg flags now s b parent = inr tt →
        e = error_RuleError (ruleError ErrBadCheckpoint
              "block does not match the checkpoint hash at its height")).
Proof.
  intros Hcp Hne. unfold checkBlockContext.
  destruct (checkChainPosition cfg flags now s b parent) as [e|[]] eqn:Hpos.
  - exists e. split; [done|discriminate].
  - unfold checkCheckpoints. rewrite Hcp.
    apply Z.eqb_neq in Hne. rewrite Hne. simpl. eexists. split; [reflexivity|done].
Qed.

Lemma fork_too_old_context (flags : BehaviorFlags) (now : Z) (s : ChainState)
    (b : Block) (parent fp : ChainNode) (c : Z) :
  mostRecentCheckpoint cfg s = Some c →
  forkPoint s (nodeHash parent) = Some fp →
  nodeHeight fp + 1 <= c →
  ∃ e, checkBlockContext cfg flags now s b parent = inl e ∧
       (checkChainPosition cfg flags now s b parent = inr tt →
        (∀ pinned, checkpointAt cfg (blkHeight b) = Some pinned → blkHash b = pinned) →
        e = error_RuleError (ruleError ErrForkTooOld
              "block forks the main chain before the most recent checkpoint")).
Proof.
  intros Hc Hfp Hle. unfold checkBlockContext.
  destruct (checkChainPosition cfg flags now s b parent) as [e|[]] eqn:Hpos.
  - exists e. split; [done|discriminate].
  - unfold checkCheckpoints, forkTooOld. rewrite Hc, Hfp.
    apply Z.leb_le in Hle. rewrite Hle.
    destruct (checkpointAt cfg (blkHeight b)) as [pinned|] eqn:Hcp.
    + destruct (blkHash b =? pinned) eqn:Heq; simpl.
      * eexists. split; [reflexivity|done].
      * eexists. split; [reflexivity|]. intros _ Hpin.
        apply Z.eqb_neq in Heq. by specialize (Hpin _ eq_refl).
    + simpl. eexists. split; [reflexivity|done].
Qed.

(** The walk from a hash to the best chain is determined by the block
    tree. *)
Lemma OffChainPath_det (s : ChainState) (path1 : list ChainNode) :
  ∀ (h : Z) (path2 : list ChainNode) (fp1 fp2 : ChainNode),
    OffChainPath s h path1 fp1 → OffChainPath s h path2 fp2 →
    path1 = path2 ∧ fp1 = fp2.
Proof.
  induction path1 as [|n1 rest1 IH]; intros h [|n2 rest2] fp1 fp2; simpl.
  - intros [H1 _] [H2 _]. split; congruence.
  - by intros [_ Hin] (_ & Hout & _).
  - by intros (_ & Hout & _) [_ Hin].
  - intros (H1 & _ & Hr1) (H2 & _ & Hr2).
    assert (n1 = n2) as <- by congruence.
    destruct (IH _ _ _ _ Hr1 Hr2) as [-> ->]. done.
Qed.

Lemma pathKeys_length (path : list ChainNode) :
  ∀ h : Z, length (pathKeys h path) = S (length path).
Proof. induction path as [|n rest IH]; intros h; simpl; [done|by rewrite IH]. Qed.

Lemma pathKeys_known (s : ChainState) (path : list ChainNode) :
  ∀ (h : Z) (fp : ChainNode) (k : Z),
    OffChainPath s h path fp → k ∈ pathKeys h path → is_Some (index s !! k).
Proof.
  induction path as [|n rest IH]; intros h fp k; simpl.
  - intros [Hfp _] Hk. apply list_elem_of_singleton in Hk as ->. by eexists.
  - intros (Hn & _ & Hrest) Hk. apply elem_of_cons in Hk as [->|Hk]; [by eexists|].
    by eapply IH.
Qed.

Lemma pathKeys_suffix (s : ChainState) (path : list ChainNode) :
  ∀ (h : Z) (fp : ChainNode) (k : Z),
    OffChainPath s h path fp → k ∈ pathKeys h path →
    ∃ suffix : list ChainNode,
      OffChainPath s k suffix fp ∧ (length suffix <= length path)%nat.
Proof.
  induction path as [|n rest IH]; intros h fp k Hpath Hk; simpl in Hk.
  - apply list_elem_of_singleton in Hk as ->. by exists [].
  - apply elem_of_cons in Hk as [->|Hk]; [by exists (n :: rest)|].
    destruct Hpath as (_ & _ & Hrest).
    destruct (IH _ _ _ Hrest Hk) as (suffix & Hs & Hlen).
    exists suffix. split; [done|]. simpl. lia.
Qed.

(** The walk never visits a hash twice. *)
Lemma pathKeys_NoDup (s : ChainState) (path : list ChainNode) :
  ∀ (h : Z) (fp : ChainNode), OffChainPath s h path fp → NoDup (pathKeys h path).
Proof.
  induction path as [|n rest IH]; intros h fp Hpath; simpl.
  - apply NoDup_singleton.
  - apply NoDup_cons. destruct Hpath as (Hn & Hout & Hrest). split; [|by eapply IH].
    intros Hk.
    destruct (pathKeys_suffix _ _ _ _ _ Hrest Hk) as (suffix & Hs & Hlen).
    assert (Hwhole : OffChainPath s h (n :: rest) fp) by done.
    destruct (OffChainPath_det _ _ _ _ _ _ Hs Hwhole) as [-> _]. simpl in Hlen. lia.
Qed.

Lemma distinct_keys_bound {A : Type} (m : gmap Z A) (l : list Z) :
  NoDup l → (∀ k, k ∈ l → is_Some (m !! k)) → (length l <= size m)%nat.
Proof.
  intros Hnd Hin. rewrite <- (length_map_to_list m), <- (length_fmap fst).
  apply submseteq_length, NoDup_submseteq; [done|].
  intros k Hk. destruct (Hin k Hk) as [a Ha].
  apply list_elem_of_fmap. exists (k, a). split; [done|]. by apply elem_of_map_to_list.
Qed.

Lemma branchFrom_path (s : ChainState) (path : list ChainNode) :
  ∀ (fuel : nat) (h : Z) (acc : list ChainNode) (fp : ChainNode),
    OffChainPath s h path fp → (length path < fuel)%nat →
    branchFrom s fuel h acc = Some (fp, rev path ++ acc).
Proof.
  induction path as [|n rest IH]; intros fuel h acc fp Hpath Hfuel;
    (destruct fuel as [|fuel]; [simpl in Hfuel; lia|]); simpl in *.
  - destruct Hpath as [-> Hin]. by rewrite bool_decide_eq_true_2.
  - destruct Hpath as (-> & Hout & Hrest). rewrite bool_decide_eq_false_2 by done.
    rewrite (IH fuel _ (n :: acc) fp Hrest) by lia. by rewrite <- app_assoc.
Qed.

(** The fork point that the engine computes is the end of the walk: the
    fuel of [forkPoint], the size of the block tree, is enough. *)
Lemma forkPoint_path (s : ChainState) (h : Z) (path : list ChainNode) (fp : ChainNode) :
  OffChainPath s h path fp → forkPoint s h = Some fp.
Proof.
  intros Hpath. unfold forkPoint.
  rewrite (branchFrom_path s path _ h [] fp Hpath); [done|].
  pose proof (distinct_keys_bound (index s) (pathKeys h path)
                (pathKeys_NoDup _ _ _ _ Hpath)
                (fun k Hk => pathKeys_known _ _ _ _ k Hpath Hk)) as Hlen.
  rewrite pathKeys_length in Hlen. lia.
Qed.

(** The most recent checkpoint is at least as high as any checkpoint
    whose block is on the best chain. *)
Lemma mostRecentCheckpoint_reached (s : ChainState) (c hc : Z) :
  (c, hc) ∈ checkpoints cfg → hc ∈ bestChain s →
  ∃ c' : Z, mostRecentCheckpoint cfg s = Some c' ∧ c <= c'.
Proof.
  unfold mostRecentCheckpoint. intros Hin Hbest.
  induction (checkpoints cfg) as [|cp rest IH]; [by apply elem_of_nil in Hin|].
  simpl. apply elem_of_cons in Hin as [<-|Hin].
  - simpl. rewrite bool_decide_eq_true_2 by done.
    destruct (foldr _ None rest) as [a|]; eexists; (split; [reflexivity|lia]).
  - destruct (IH Hin) as (c' & -> & Hle).
    case_bool_decide; eexists; (split; [reflexivity|lia]).
Qed.

Lemma fork_path_context (flags : BehaviorFlags) (now : Z) (s : ChainState)
    (b : Block) (parent fp : ChainNode) (path : list ChainNode) (c hc : Z) :
  OffChainPath s (nodeHash parent) path fp →
  (c, hc) ∈ checkpoints cfg → hc ∈ bestChain s →
  nodeHeight fp + 1 <= c →
  ∃ e, checkBlockContext cfg flags now s b parent = inl e ∧
       (checkChainPosition cfg flags now s b parent = inr tt →
        (∀ pinned, checkpointAt cfg (blkHeight b) = Some pinned → blkHash b = pinned) →
        e = error_RuleError (ruleError ErrForkTooOld
              "block forks the main chain before the most recent checkpoint")).
Proof.
  intros Hpath Hin Hbest Hle.
  destruct (mostRecentCheckpoint_reached s c hc Hin Hbest) as (c' & Hc' & Hcc').
  apply (fork_too_old_context flags now s b parent fp c' Hc');
    [by eapply forkPoint_path|lia].
Qed.

(** C7.  For a block whose parent is known:
    (1) if its height is pinned by a configured checkpoint and its hash
    differs from the pinned hash, [ProcessBlock] rejects it with a rule
    error and leaves the state untouched, whatever its cumulative work
    (nothing is assumed about it) and whatever the rules checked after
    the checkpoint rule would say; for a block that otherwise satisfies
    the validation rules (it is new, passes structural validation and
    has the height, timestamp and difficulty its place in the tree asks
    for) the error is the checkpoint-mismatch error;
    (2) if its branch leaves the best chain at or before a checkpoint
    that the best chain has reached, hence at or before the most recent
    one, it is rejected with a rule error and the state is untouched;
    for a block that otherwise satisfies the validation rules, the
    checkpoint rule at its own height included, the error is the
    fork-too-old error.  The branch is given by the block tree alone:
    the walk along parent hashes from the parent of the block to the
    first block on the best chain, the fork point; it leaves the best
    chain at the height above the fork point, where it has a block that
    the best chain does not have (section 3 of the specification: a
    branch that "diverges before that height with a different hash at
    that height"). *)
Theorem checkpoint_rules_reject (flags : BehaviorFlags) (now : Z) (s : ChainState)
    (b : Block) (parent : ChainNode) :
  index s !! hdrPrevBlock (blkHeader b) = Some parent →
  (∀ pinned : Z,
     checkpointAt cfg (blkHeight b) = Some pinned → blkHash b ≠ pinned →
     (∃ re : RuleError,
        ProcessBlock cfg flags now s b = (s, (false, false, error_RuleError re))) ∧
     (NotKnown s b → checkBlockSanity cfg b = inr tt →
      checkChainPosition cfg flags now s b parent = inr tt →
      ProcessBlock cfg flags now s b =
        (s, (false, false,
             error_RuleError (ruleError ErrBadCheckpoint
               "block does not match the checkpoint hash at its height"))) ∧
      testRejectedBlock (snd (ProcessBlock cfg flags now s b)) ErrBadCheckpoint = true)) ∧
  (∀ (path : list ChainNode) (fp : ChainNode) (c hc : Z),
     OffChainPath s (nodeHash parent) path fp →
     (c, hc) ∈ checkpoints cfg → hc ∈ bestChain s →
     nodeHeight fp + 1 <= c →
     (∃ re : RuleError,
        ProcessBlock cfg flags now s b = (s, (false, false, error_RuleError re))) ∧
     (NotKnown s b → checkBlockSanity cfg b = inr tt →
      checkChainPosition cfg flags now s b parent = inr tt →
      (∀ pinned, checkpointAt cfg (blkHeight b) = Some pinned → blkHash b = pinned) →
      ProcessBlock cfg flags now s b =
        (s, (false, false,
             error_RuleError (ruleError ErrForkTooOld
               "block forks the main chain before the most recent checkpoint"))) ∧
      testRejectedBlock (snd (ProcessBlock cfg flags now s b)) ErrForkTooOld = true)).
Proof.
  intros Hparent. split.
  - intros pinned Hcp Hne.
    destruct (checkpoint_mismatch_context flags now s b parent pinned Hcp Hne)
      as (e & Hctx & Hcode).
    split; [by eapply ProcessBlock_rejects_when_context_fails|].
    intros Hnew Hsane Hpos.
    assert (Hpb : ProcessBlock cfg flags now s b =
                  (s, (false, false,
                       error_RuleError (ruleError ErrBadCheckpoint
                         "block does not match the checkpoint hash at its height")))).
    { rewrite <- (Hcode Hpos). by eapply ProcessBlock_context_reject. }
    split; [done|]. by rewrite Hpb.
  - intros path fp c hc Hpath Hin Hbest Hle.
    destruct (fork_path_context flags now s b parent fp path c hc Hpath Hin Hbest Hle)
      as (e & Hctx & Hcode).
    split; [by eapply ProcessBlock_rejects_when_context_fails|].
    intros Hnew Hsane Hpos Hpin.
    assert (Hpb : ProcessBlock cfg flags now s b =
                  (s, (false, false,
                       error_RuleError (ruleError ErrForkTooOld
                         "block forks the main chain before the most recent checkpoint")))).
    { rewrite <- (Hcode Hpos Hpin). by eapply ProcessBlock_context_reject. }
    split; [done|]. by rewrite Hpb.
Qed.

End CheckpointClaim.

Section ReorganizationClaim.

Context (cfg : Config).

Lemma connectNodes_stops_at_failure (pre : list ChainNode) :
  ∀ (s1 s2 : ChainState) (blk : ChainNode) (post : list ChainNode) (e : error),
    connectNodes cfg pre s1 = inr s2 →
    connectBlock cfg s2 blk = inl e →
    connectNodes cfg (pre ++ blk :: post) s1 = inl e.
Proof.
  induction pre as [|n rest IH]; intros s1 s2 blk post e Hpre Hblk; simpl in *.
  - injection Hpre as ->. by rewrite Hblk.
  - bind_inr Hpre. rewrite Hstep. simpl. by eapply IH.
Qed.

(** C8: when a new block carries more work than the best chain, so that
    the chain selector replays its branch (disconnecting down to the fork
    point, then connecting the branch block by block), and some block of
    that branch fails while the blocks before it connected, then
    [ProcessBlock] returns that error with [isOrphan = false], the block
    is not put in the orphan pool, and the state it returns is the state
    it was given: UTXO set, chain-node index, admin-key snapshot and best
    chain are exactly as before the attempt. *)
Theorem failed_reorganization_is_atomic (flags : BehaviorFlags) (now : Z)
    (s s1 s2 : ChainState) (b : Block) (parent node tip fork blk : ChainNode)
    (t : Z) (attach pre post : list ChainNode) (e : error) :
  NotKnown s b →
  checkBlockSanity cfg b = inr tt →
  index s !! hdrPrevBlock (blkHeader b) = Some parent →
  checkBlockContext cfg flags now s b parent = inr node →
  tipHash s = Some t →
  tipNode s = Some tip →
  nodeParent node ≠ t →
  nodeWork tip < nodeWork node →
  branchFrom s (size (index s)) (nodeParent node) [] = Some (fork, attach) →
  disconnectTo (length (bestChain s)) (nodeHash fork) s = inr s1 →
  attach ++ [node] = pre ++ blk :: post →
  connectNodes cfg pre s1 = inr s2 →
  connectBlock cfg s2 blk = inl e →
  ∃ s' : ChainState,
    ProcessBlock cfg flags now s b = (s', (false, false, e)) ∧
    e ≠ error_nil ∧
    s' = s ∧
    utxo s' = utxo s ∧
    index s' = index s ∧
    adminKeySets s' = adminKeySets s ∧
    bestChain s' = bestChain s ∧
    orphans s' !! blkHash b = None.
Proof.
  intros [Hidx Horph] Hsane Hparent Hctx Htip Htipn Hside Hwork Hbranch Hdisc Hpath Hpre Hblk.
  exists s.
  assert (Hreorg : reorganizeChain cfg s node = inl e).
  { unfold reorganizeChain. rewrite Hbranch, Hdisc. simpl. rewrite Hpath.
    by eapply connectNodes_stops_at_failure. }
  assert (Hsel : connectBestChain cfg s node = inl e).
  { unfold connectBestChain. rewrite Htip, Htipn.
    apply Z.eqb_neq in Hside. rewrite Hside.
    assert (Hw : (nodeWork node <=? nodeWork tip) = false) by (apply Z.leb_gt; lia).
    by rewrite Hw, Hreorg. }
  assert (Hpb : ProcessBlock cfg flags now s b = (s, (false, false, e))).
  { unfold ProcessBlock. rewrite Hidx, Horph.
    rewrite !bool_decide_eq_false_2 by (by intros [? ?]).
    rewrite Hsane, Hparent. unfold maybeAcceptBlock.
    by rewrite Hparent, Hctx; simpl; rewrite Hsel. }
  split; [done|].
  split; [by eapply IsFailure_not_nil, connectBlock_error|].
  by repeat split.
Qed.

End ReorganizationClaim.

(** *** The fuel of the orphan work list is never the reason to stop *)

Section OrphanFuel.

Context (cfg : Config).

Lemma Later_PoolKeyed (s s' : ChainState) : Later s s' → PoolKeyed s → PoolKeyed s'.
Proof. intros [_ Ho] Hk k o Hlook. apply Hk. by apply Ho. Qed.

Lemma acceptOrphans_pool (flags : BehaviorFlags) (now : Z) (l : list Block) :
  ∀ (s s' : ChainState) (acc acc' : list Z),
    acceptOrphans cfg flags now l s acc = inr (s', acc') →
    orphans s' = dropOrphans l (orphans s) ∧
    (length acc' <= length acc + length l)%nat.
Proof.
  induction l as [|x rest IH]; intros s s' acc acc' H; simpl in H.
  - injection H as <- <-. split; [done|lia].
  - change (dropOrphans (x :: rest) (orphans s))
      with (dropOrphans rest (delete (blkHash x) (orphans s))).
    destruct (maybeAcceptBlock cfg flags now (removeOrphan (blkHash x) s) x)
      as [e|[s2 m]] eqn:Hacc.
    + destruct e as [|a|re|msg]; try discriminate.
      destruct (IH _ _ _ _ H) as [Hpool Hlen]. split; [done|]. simpl. lia.
    + destruct (maybeAcceptBlock_grows _ _ _ _ _ _ _ Hacc) as [[_ Ho] _].
      destruct (IH _ _ _ _ H) as [Hpool Hlen]. rewrite Ho in Hpool.
      split; [done|]. rewrite length_app in Hlen. simpl in *. lia.
Qed.

Lemma dropOrphans_size (l : list Block) :
  ∀ pool : gmap Z Orphan,
    NoDup (blkHash <$> l) →
    (∀ o, o ∈ l → is_Some (pool !! blkHash o)) →
    (size (dropOrphans l pool) + length l)%nat = size pool.
Proof.
  induction l as [|x rest IH]; intros pool Hnd Hin; [simpl; lia|].
  rewrite fmap_cons in Hnd. apply NoDup_cons in Hnd as [Hx Hnd].
  change (dropOrphans (x :: rest) pool) with (dropOrphans rest (delete (blkHash x) pool)).
  assert (Hrest : (size (dropOrphans rest (delete (blkHash x) pool)) + length rest)%nat
                  = size (delete (blkHash x) pool)).
  { apply IH; [done|]. intros o Ho. rewrite lookup_delete_ne; [apply Hin; by right|].
    intros Heq. apply Hx. rewrite Heq. apply list_elem_of_fmap. by exists o. }
  rewrite map_size_delete_Some in Hrest by (apply Hin; left).
  assert (size pool ≠ 0%nat); [|simpl; lia].
  destruct (Hin x) as [y Hy]; [left|]. intros Hz. apply map_size_empty_inv in Hz.
  by rewrite Hz, lookup_empty in Hy.
Qed.

Lemma orphanChildren_keyed (s : ChainState) (h : Z) :
  PoolKeyed s →
  NoDup (blkHash <$> orphanChildren s h) ∧
  ∀ o, o ∈ orphanChildren s h → is_Some (orphans s !! blkHash o).
Proof.
  intros Hk. unfold orphanChildren. split.
  - eapply sublist_NoDup; [|apply fmap_sublist, sublist_filter].
    rewrite <- !list_fmap_compose.
    erewrite list_fmap_ext; [apply (NoDup_fst_map_to_list (orphans s))|].
    intros i [k o] Hi. simpl. apply Hk. apply elem_of_map_to_list.
    by eapply list_elem_of_lookup_2.
  - intros o Ho. apply list_elem_of_filter in Ho as [_ Ho].
    apply list_elem_of_fmap in Ho as (orph & -> & Ho).
    apply list_elem_of_fmap in Ho as ([k orph'] & -> & Ho). simpl.
    apply elem_of_map_to_list in Ho. rewrite (Hk _ _ Ho). by eexists.
Qed.

(** With a pool keyed by block hash, every round of the work list takes
    as many orphans out of the pool as it can add hashes to the list, so
    any fuel of at least the length of the list plus the size of the pool
    gives the same result: the work list runs until it is empty. *)
Lemma processOrphans_fuel (flags : BehaviorFlags) (now : Z) (fuel : nat) :
  ∀ (fuel' : nat) (work : list Z) (s : ChainState),
    PoolKeyed s →
    (length work + size (orphans s) <= fuel)%nat →
    (length work + size (orphans s) <= fuel')%nat →
    processOrphans cfg flags now fuel work s = processOrphans cfg flags now fuel' work s.
Proof.
  induction fuel as [|k IH]; intros fuel' work s Hk Hf Hf'.
  - destruct work; [|simpl in Hf; lia]. by destruct fuel'.
  - destruct work as [|h rest]; [by destruct fuel'|].
    destruct fuel' as [|k']; [simpl in Hf'; lia|]. simpl.
    destruct (acceptOrphans cfg flags now (orphanChildren s h) s [])
      as [e|[s1 accepted]] eqn:Hround; [done|]. simpl.
    destruct (acceptOrphans_pool _ _ _ _ _ _ _ Hround) as [Hpool Hlen].
    destruct (orphanChildren_keyed s h Hk) as [Hnd Hin].
    pose proof (dropOrphans_size _ _ Hnd Hin) as Hsize. rewrite <- Hpool in Hsize.
    assert (Hk1 : PoolKeyed s1).
    { eapply Later_PoolKeyed; [|exact Hk].
      by destruct (acceptOrphans_fate cfg flags now _ _ _ _ _ Hround). }
    simpl in Hf, Hf', Hlen.
    apply IH; [done| |]; rewrite length_app; lia.
Qed.

Lemma addOrphanBlock_PoolKeyed (now : Z) (s : ChainState) (b : Block) :
  PoolKeyed s → PoolKeyed (addOrphanBlock cfg now s b).
Proof.
  intros Hk k o. unfold addOrphanBlock. simpl.
  rewrite lookup_insert_Some. intros [[<- <-]|[Hne Hlook]]; [done|].
  apply Hk.
  assert (Hlive : ∀ o', filter (fun ho => now <= orphanExpiration (snd ho)) (orphans s)
                          !! k = Some o' → orphans s !! k = Some o').
  { intros o'. rewrite map_lookup_filter_Some. by intros [? _]. }
  destruct (Nat.leb (maxOrphans cfg) _); [|by apply Hlive].
  destruct (oldestOrphan _); [|by apply Hlive].
  apply lookup_delete_Some in Hlook as [_ Hlook]. by apply Hlive.
Qed.

(** [ProcessBlock] keeps the pool keyed by block hash, and its orphan
    rounds would do no more with any larger fuel. *)
Lemma ProcessBlock_PoolKeyed (flags : BehaviorFlags) (now : Z) (s : ChainState) (b : Block) :
  PoolKeyed s → PoolKeyed (fst (ProcessBlock cfg flags now s b)).
Proof.
  intros Hk.
  destruct (ProcessBlock_cases cfg flags now s b)
    as [[_ Hpb]|[[_ Hpb]|[(_ & e & _ & Hpb)|[(_ & _ & _ & Hpb)|
        [(_ & _ & _ & e & _ & Hpb)|[(_ & _ & _ & s1 & m & a & _ & _ & Hpb)|
         (_ & _ & _ & s1 & m & s2 & Hacc & Horph & Hpb)]]]]]];
    rewrite Hpb; simpl; try done.
  - by apply addOrphanBlock_PoolKeyed.
  - eapply Later_PoolKeyed; [by eapply processOrphans_later|].
    eapply Later_PoolKeyed; [|exact Hk].
    apply Grows_Later. by destruct (maybeAcceptBlock_grows _ _ _ _ _ _ _ Hacc).
Qed.

Lemma ProcessBlock_fuel_suffices (flags : BehaviorFlags) (now : Z) (s s1 : ChainState)
    (b : Block) (isMain : bool) (extra : nat) :
  PoolKeyed s →
  maybeAcceptBlock cfg flags now s b = inr (s1, isMain) →
  processOrphans cfg flags now (S (size (orphans s1))) [blkHash b] s1
    = processOrphans cfg flags now (S (size (orphans s1)) + extra) [blkHash b] s1.
Proof.
  intros Hk Hacc. apply processOrphans_fuel; simpl; try lia.
  eapply Later_PoolKeyed; [|exact Hk].
  apply Grows_Later. by destruct (maybeAcceptBlock_grows _ _ _ _ _ _ _ Hacc).
Qed.

End OrphanFuel.

(** *** Orphans are reprocessed as soon as their parent is accepted *)

Section OrphanCascade.

Context (cfg : Config).

Lemma connectBlock_index (s s' : ChainState) (node : ChainNode) :
  connectBlock cfg s node = inr s' → IndexKeyed s →
  IndexKeyed s' ∧
  ∀ h, is_Some (index s' !! h) → is_Some (index s !! h) ∨ h = nodeHash node.
Proof.
  unfold connectBlock. intros H Hk.
  destruct (tipHash s) as [t|]; [|discriminate].
  destruct (negb (nodeParent node =? t)); [discriminate|].
  bind_inr H. destruct a as [u jr]. injection H as <-. split.
  - intros h nd. simpl. rewrite lookup_insert_Some.
    intros [[<- <-]|[_ Hl]]; [done|by apply Hk].
  - intros h. simpl. rewrite lookup_insert_is_Some. intros [<-|[_ ?]]; auto.
Qed.

Lemma disconnectTip_index (s s' : ChainState) : disconnectTip s = inr s' → index s' = index s.
Proof.
  unfold disconnectTip. intros H.
  destruct (bestChain s) as [|t rest]; [discriminate|].
  destruct (index s !! t), (journal s !! t); try discriminate.
  by injection H as <-.
Qed.

Lemma disconnectTo_index (fuel : nat) (fork : Z) :
  ∀ s s' : ChainState, disconnectTo fuel fork s = inr s' → index s' = index s.
Proof.
  induction fuel as [|k IH]; intros s s' H; simpl in H;
    (destruct (tipHash s) as [t|]; [|discriminate]);
    (destruct (t =? fork); [by injection H as <-|]).
  - discriminate.
  - bind_inr H. rewrite (IH _ _ H). by apply disconnectTip_index.
Qed.

Lemma connectNodes_index (nodes : list ChainNode) :
  ∀ s s' : ChainState, connectNodes cfg nodes s = inr s' → IndexKeyed s →
    IndexKeyed s' ∧
    ∀ h, is_Some (index s' !! h) →
         is_Some (index s !! h) ∨ ∃ n, n ∈ nodes ∧ h = nodeHash n.
Proof.
  induction nodes as [|n rest IH]; intros s s' H Hk; simpl in H.
  - injection H as <-. split; [done|auto].
  - bind_inr H. destruct (connectBlock_index _ _ _ Hstep Hk) as [Hk1 Hb1].
    destruct (IH _ _ H Hk1) as [Hk2 Hb2]. split; [done|].
    intros h Hh. destruct (Hb2 h Hh) as [Hh1|(m & Hm & ->)].
    + destruct (Hb1 h Hh1) as [? | ->]; [by left|]. right. exists n. split; [by left|done].
    + right. exists m. split; [by right|done].
Qed.

Lemma branchFrom_nodes (s : ChainState) (fuel : nat) :
  ∀ (h : Z) (acc l : list ChainNode) (fp : ChainNode),
    branchFrom s fuel h acc = Some (fp, l) →
    ∀ n, n ∈ l → n ∈ acc ∨ ∃ k, index s !! k = Some n.
Proof.
  induction fuel as [|k IH]; intros h acc l fp H n Hn; simpl in H; [discriminate|].
  destruct (index s !! h) as [nd|] eqn:Hnd; [|discriminate].
  case_bool_decide.
  - injection H as <- <-. by left.
  - destruct (IH _ _ _ _ H n Hn) as [Hacc|?]; [|by right].
    apply elem_of_cons in Hacc as [->|?]; [right; by exists h|by left].
Qed.

Lemma reorganizeChain_index (s s' : ChainState) (node : ChainNode) :
  reorganizeChain cfg s node = inr s' → IndexKeyed s →
  IndexKeyed s' ∧
  ∀ h, is_Some (index s' !! h) → is_Some (index s !! h) ∨ h = nodeHash node.
Proof.
  unfold reorganizeChain. intros H Hk.
  destruct (branchFrom s (size (index s)) (nodeParent node) []) as [[fork attach]|] eqn:Hbr;
    [|discriminate].
  bind_inr H. pose proof (disconnectTo_index _ _ _ _ Hstep) as Hidx.
  assert (Hk1 : IndexKeyed a) by (intros h nd; rewrite Hidx; apply Hk).
  destruct (connectNodes_index _ _ _ H Hk1) as [Hk2 Hb]. split; [done|].
  intros h Hh. destruct (Hb h Hh) as [Hh1|(n & Hn & ->)]; [left; by rewrite <- Hidx|].
  apply elem_of_app in Hn as [Hn|Hn].
  - left. destruct (branchFrom_nodes _ _ _ _ _ _ Hbr n Hn) as [Hnil|[k Hlook]];
      [by apply elem_of_nil in Hnil|].
    rewrite (Hk _ _ Hlook). by eexists.
  - apply list_elem_of_singleton in Hn as ->. by right.
Qed.

Lemma connectBestChain_index (s s' : ChainState) (node : ChainNode) (isMain : bool) :
  connectBestChain cfg s node = inr (s', isMain) → IndexKeyed s →
  IndexKeyed s' ∧
  ∀ h, is_Some (index s' !! h) → is_Some (index s !! h) ∨ h = nodeHash node.
Proof.
  unfold connectBestChain. intros H Hk.
  destruct (tipHash s) as [t|], (tipNode s) as [tip|]; try discriminate.
  destruct (nodeParent node =? t).
  - bind_inr H. injection H as <- <-. by eapply connectBlock_index.
  - destruct (nodeWork node <=? nodeWork tip).
    + injection H as <- <-. split.
      * intros h nd. simpl. rewrite lookup_insert_Some.
        intros [[<- <-]|[_ Hl]]; [done|by apply Hk].
      * intros h. simpl. rewrite lookup_insert_is_Some. intros [<-|[_ ?]]; auto.
    + bind_inr H. injection H as <- <-. by eapply reorganizeChain_index.
Qed.

(** Accepting a block adds its hash to the block tree and nothing else. *)
Lemma maybeAcceptBlock_index (flags : BehaviorFlags) (now : Z) (s s' : ChainState)
    (b : Block) (isMain : bool) :
  maybeAcceptBlock cfg flags now s b = inr (s', isMain) → IndexKeyed s →
  IndexKeyed s' ∧
  ∀ h, is_Some (index s' !! h) → is_Some (index s !! h) ∨ h = blkHash b.
Proof.
  unfold maybeAcceptBlock. intros H Hk.
  destruct (index s !! hdrPrevBlock (blkHeader b)) as [parent|]; [|discriminate].
  bind_inr H. destruct (connectBestChain_index _ _ _ _ H Hk) as [Hk' Hb].
  unfold nodeHash in Hb. rewrite (checkBlockContext_node _ _ _ _ _ _ _ Hstep) in Hb. done.
Qed.

Lemma Reprocess_pool (flags : BehaviorFlags) (now : Z) (o : Block) (s s1 : ChainState) :
  Reprocess cfg flags now o s s1 →
  orphans s1 = delete (blkHash o) (orphans s) ∧
  (∀ h, is_Some (index s !! h) → is_Some (index s1 !! h)) ∧
  is_Some (orphans s !! blkHash o).
Proof.
  intros [s0 s' orph m Hin _ _ Hacc|s0 orph re Hin _ _ _].
  - destruct (maybeAcceptBlock_grows _ _ _ _ _ _ _ Hacc) as [[Hi Ho] _].
    split; [done|]. split; [done|by eexists].
  - split; [done|]. split; [done|by eexists].
Qed.

Lemma Reprocess_index (flags : BehaviorFlags) (now : Z) (o : Block) (s s1 : ChainState) :
  Reprocess cfg flags now o s s1 → IndexKeyed s →
  IndexKeyed s1 ∧
  ∀ h, is_Some (index s1 !! h) → is_Some (index s !! h) ∨ h = blkHash o.
Proof.
  intros [s0 s' orph m _ _ _ Hacc|s0 orph re _ _ _ _] Hk.
  - by apply (maybeAcceptBlock_index _ _ _ _ _ _ Hacc).
  - split; [done|]. intros h Hh. by left.
Qed.

Lemma Reprocess_invariant (flags : BehaviorFlags) (now : Z) (o : Block) (s s1 : ChainState) :
  Reprocess cfg flags now o s s1 →
  PoolKeyed s → IndexKeyed s → PoolFresh s →
  PoolKeyed s1 ∧ IndexKeyed s1 ∧ PoolFresh s1.
Proof.
  intros Hstep Hpk Hik Hpf.
  destruct (Reprocess_pool _ _ _ _ _ Hstep) as (Hpool & _ & _).
  destruct (Reprocess_index _ _ _ _ _ Hstep Hik) as [Hik1 Hb].
  split; [|split; [done|]].
  - intros k orph. rewrite Hpool, lookup_delete_Some. intros [_ Hl]. by apply Hpk.
  - intros k orph. rewrite Hpool, lookup_delete_Some. intros [Hne Hl].
    apply eq_None_not_Some. intros Hsome.
    destruct (Hb k Hsome) as [Hold | ->]; [|done].
    rewrite (Hpf _ _ Hl) in Hold. by destruct Hold.
Qed.

Lemma Cascade_trans (flags : BehaviorFlags) (now : Z) (s1 s2 s3 : ChainState) :
  Cascade cfg flags now s1 s2 → Cascade cfg flags now s2 s3 → Cascade cfg flags now s1 s3.
Proof.
  induction 1 as [s|o s sa sb Hstep Hrest IH]; [done|].
  intros H3. eapply cascade_cons; [exact Hstep|by apply IH].
Qed.

(** A run of reprocessing steps keeps the shape of the state; it only
    adds blocks that were orphans of the pool to the block tree, and it
    only takes orphans out of the pool. *)
Lemma Cascade_invariant (flags : BehaviorFlags) (now : Z) (s s' : ChainState) :
  Cascade cfg flags now s s' →
  PoolKeyed s → IndexKeyed s → PoolFresh s →
  PoolKeyed s' ∧ IndexKeyed s' ∧ PoolFresh s' ∧ Later s s' ∧
  ∀ h, is_Some (index s' !! h) → is_Some (index s !! h) ∨ is_Some (orphans s !! h).
Proof.
  induction 1 as [s|o s sa sb Hstep Hrest IH]; intros Hpk Hik Hpf.
  - split; [done|]. split; [done|]. split; [done|]. split; [apply Later_refl|auto].
  - destruct (Reprocess_invariant _ _ _ _ _ Hstep Hpk Hik Hpf) as (Hpk1 & Hik1 & Hpf1).
    destruct (Reprocess_pool _ _ _ _ _ Hstep) as (Hpool & Hmono & Hheld).
    destruct (Reprocess_index _ _ _ _ _ Hstep Hik) as [_ Hb].
    destruct (IH Hpk1 Hik1 Hpf1) as (Hpk2 & Hik2 & Hpf2 & [Hl1 Hl2] & Hb2).
    split; [done|]. split; [done|]. split; [done|]. split; [split|].
    + intros h Hh. by apply Hl1, Hmono.
    + intros h orph Hh. apply Hl2 in Hh. rewrite Hpool in Hh.
      by apply lookup_delete_Some in Hh as [_ ?].
    + intros h Hh. destruct (Hb2 h Hh) as [Hh1|Hh1].
      * destruct (Hb h Hh1) as [? | ->]; [by left|by right].
      * right. rewrite Hpool in Hh1. destruct Hh1 as [orph Hh1].
        apply lookup_delete_Some in Hh1 as [_ Hh1]. by eexists.
Qed.

(** An orphan that a run of reprocessing steps took out of the pool was
    the subject of one of its steps. *)
Lemma Cascade_reprocesses (flags : BehaviorFlags) (now : Z) (s s' : ChainState) :
  Cascade cfg flags now s s' →
  ∀ (o : Block) (orph : Orphan),
    orphans s !! blkHash o = Some orph → orphanBlock orph = o →
    orphans s' !! blkHash o = None →
    ∃ mid0 mid1 : ChainState,
      Cascade cfg flags now s mid0 ∧ Reprocess cfg flags now o mid0 mid1 ∧
      Cascade cfg flags now mid1 s'.
Proof.
  induction 1 as [s|x s sa sb Hstep Hrest IH]; intros o orph Hin Hblk Hout; [congruence|].
  destruct (decide (blkHash x = blkHash o)) as [Heq|Hne].
  - assert (x = o) as ->.
    { destruct Hstep as [s0 s' orph' m Hx Hbx _ _|s0 orph' re Hx Hbx _ _];
        rewrite Heq in Hx; congruence. }
    exists s, sa. split; [apply cascade_nil|done].
  - destruct (Reprocess_pool _ _ _ _ _ Hstep) as (Hpool & _ & _).
    assert (Hin1 : orphans sa !! blkHash o = Some orph)
      by (rewrite Hpool; by rewrite lookup_delete_ne).
    destruct (IH o orph Hin1 Hblk Hout) as (mid0 & mid1 & Hc0 & Hre & Hc1).
    exists mid0, mid1. split; [by eapply cascade_cons|done].
Qed.

Lemma dropOrphans_lookup (l : list Block) :
  ∀ (pool : gmap Z Orphan) (k : Z) (orph : Orphan),
    dropOrphans l pool !! k = Some orph →
    pool !! k = Some orph ∧ ∀ x, x ∈ l → blkHash x ≠ k.
Proof.
  induction l as [|y rest IH]; intros pool k orph H.
  - split; [done|]. intros x Hx. by apply elem_of_nil in Hx.
  - change (dropOrphans (y :: rest) pool) with (dropOrphans rest (delete (blkHash y) pool)) in H.
    destruct (IH _ _ _ H) as [Hl Hrest]. apply lookup_delete_Some in Hl as [Hne Hl].
    split; [done|]. intros x Hx. apply elem_of_cons in Hx as [->|Hx]; [done|by apply Hrest].
Qed.

Lemma orphanChildren_in_pool (s : ChainState) (h : Z) (x : Block) :
  PoolKeyed s → x ∈ orphanChildren s h →
  (∃ orph, orphans s !! blkHash x = Some orph ∧ orphanBlock orph = x) ∧
  hdrPrevBlock (blkHeader x) = h.
Proof.
  intros Hk Hx. unfold orphanChildren in Hx.
  apply list_elem_of_filter in Hx as [Hprev Hx]. split; [|done].
  apply list_elem_of_fmap in Hx as (orph & -> & Hx).
  apply list_elem_of_fmap in Hx as ([k orph'] & -> & Hx). simpl.
  apply elem_of_map_to_list in Hx. exists orph'. by rewrite (Hk _ _ Hx).
Qed.

(** One round of the work list is a run of reprocessing steps over the
    children of the accepted block; the hashes it collects are those of
    the orphans it added to the block tree. *)
Lemma acceptOrphans_cascade (flags : BehaviorFlags) (now : Z) (l : list Block) :
  ∀ (s s' : ChainState) (acc acc' : list Z),
    acceptOrphans cfg flags now l s acc = inr (s', acc') →
    IndexKeyed s →
    NoDup (blkHash <$> l) →
    (∀ x, x ∈ l →
       (∃ orph, orphans s !! blkHash x = Some orph ∧ orphanBlock orph = x) ∧
       is_Some (index s !! hdrPrevBlock (blkHeader x))) →
    Cascade cfg flags now s s' ∧
    (∀ h, h ∈ acc → h ∈ acc') ∧
    (∀ h, h ∈ acc' → h ∈ acc ∨ is_Some (index s' !! h)) ∧
    (∀ h, is_Some (index s' !! h) → is_Some (index s !! h) ∨ h ∈ acc').
Proof.
  induction l as [|x rest IH]; intros s s' acc acc' H Hik Hnd Hall; simpl in H.
  - injection H as <- <-. split; [apply cascade_nil|]. split; [done|]. split; auto.
  - rewrite fmap_cons in Hnd. apply NoDup_cons in Hnd as [Hx Hnd].
    destruct (Hall x) as [(orph & Hheld & Hblk) Hparent]; [by left|].
    assert (Hother : ∀ y, y ∈ rest → blkHash y ≠ blkHash x).
    { intros y Hy Heq. apply Hx. rewrite <- Heq. apply list_elem_of_fmap. by exists y. }
    destruct (maybeAcceptBlock cfg flags now (removeOrphan (blkHash x) s) x)
      as [e|[s2 m]] eqn:Hacc.
    + destruct e as [|a|re|msg]; try discriminate.
      assert (Hstep : Reprocess cfg flags now x s (removeOrphan (blkHash x) s))
        by (by eapply reprocess_rejected).
      destruct (IH _ _ _ _ H) as (Hc & Hsub & Hnew & Hb); [done|done| |].
      { intros y Hy. destruct (Hall y) as [(orphy & Hy1 & Hy2) Hy3]; [by right|].
        split; [|done]. exists orphy. split; [|done]. simpl.
        rewrite lookup_delete_ne; [done|]. intros Heq. by apply (Hother y Hy). }
      split; [by eapply cascade_cons|]. split; [done|]. split; [done|done].
    + assert (Hstep : Reprocess cfg flags now x s s2) by (by eapply reprocess_accepted).
      destruct (maybeAcceptBlock_grows _ _ _ _ _ _ _ Hacc) as [[Hi Ho] Hknown].
      destruct (maybeAcceptBlock_index _ _ _ _ _ _ Hacc Hik) as [Hik2 Hb2].
      destruct (IH _ _ _ _ H) as (Hc & Hsub & Hnew & Hb); [done|done| |].
      { intros y Hy. destruct (Hall y) as [(orphy & Hy1 & Hy2) Hy3]; [by right|].
        split; [|by apply Hi]. exists orphy. split; [|done]. rewrite Ho. simpl.
        rewrite lookup_delete_ne; [done|]. intros Heq. by apply (Hother y Hy). }
      assert (Hlater : Later s2 s')
        by (by destruct (acceptOrphans_fate cfg flags now _ _ _ _ _ H)).
      split; [by eapply cascade_cons|]. split; [|split].
      * intros h Hh. apply Hsub. apply elem_of_app. by left.
      * intros h Hh. destruct (Hnew h Hh) as [Hh1|?]; [|by right].
        apply elem_of_app in Hh1 as [?|Hh1]; [by left|].
        apply list_elem_of_singleton in Hh1 as ->. right. by apply (proj1 Hlater).
      * intros h Hh. destruct (Hb h Hh) as [Hh1|?]; [|by right].
        destruct (Hb2 h Hh1) as [? | ->]; [by left|].
        right. apply Hsub. apply elem_of_app. right. by apply list_elem_of_singleton.
Qed.

(** The work list runs until no orphan of the pool is left waiting for a
    block that the block tree knows: the hashes on the list are exactly
    the parents that may still have children in the pool, and the fuel
    covers all rounds. *)
Lemma processOrphans_cascade (flags : BehaviorFlags) (now : Z) (fuel : nat) :
  ∀ (work : list Z) (s s' : ChainState),
    processOrphans cfg flags now fuel work s = inr s' →
    PoolKeyed s → IndexKeyed s → PoolFresh s →
    (∀ k orph, orphans s !! k = Some orph →
       is_Some (index s !! hdrPrevBlock (blkHeader (orphanBlock orph))) →
       hdrPrevBlock (blkHeader (orphanBlock orph)) ∈ work) →
    (∀ h, h ∈ work → is_Some (index s !! h)) →
    (length work + size (orphans s) <= fuel)%nat →
    Cascade cfg flags now s s' ∧ NoReadyOrphan s'.
Proof.
  induction fuel as [|n IH]; intros work s s' H Hpk Hik Hpf Hready Hwork Hfuel.
  - destruct work; [|simpl in Hfuel; lia]. simpl in H. injection H as <-.
    split; [apply cascade_nil|]. intros k orph Hk. apply eq_None_not_Some. intros Hp.
    pose proof (Hready _ _ Hk Hp) as Hw. by apply elem_of_nil in Hw.
  - destruct work as [|h rest].
    { simpl in H. injection H as <-.
      split; [apply cascade_nil|]. intros k orph Hk. apply eq_None_not_Some. intros Hp.
      pose proof (Hready _ _ Hk Hp) as Hw. by apply elem_of_nil in Hw. }
    simpl in H. bind_inr H. destruct a as [s1 accepted]. simpl in H.
    destruct (orphanChildren_keyed s h Hpk) as [Hnd Hin].
    assert (Hchildren : ∀ x, x ∈ orphanChildren s h →
              (∃ orph, orphans s !! blkHash x = Some orph ∧ orphanBlock orph = x) ∧
              is_Some (index s !! hdrPrevBlock (blkHeader x))).
    { intros x Hx. destruct (orphanChildren_in_pool s h x Hpk Hx) as [Hheld ->].
      split; [done|]. apply Hwork. by left. }
    destruct (acceptOrphans_cascade _ _ _ _ _ _ _ Hstep Hik Hnd Hchildren)
      as (Hc & _ & Hnew & Hb).
    destruct (Cascade_invariant _ _ _ _ Hc Hpk Hik Hpf) as (Hpk1 & Hik1 & Hpf1 & Hlater & _).
    destruct (acceptOrphans_pool _ _ _ _ _ _ _ _ Hstep) as [Hpool Hlen].
    pose proof (dropOrphans_size _ _ Hnd Hin) as Hsize. rewrite <- Hpool in Hsize.
    destruct (IH (rest ++ accepted) s1 s' H Hpk1 Hik1 Hpf1) as [Hc' Hdone].
    + intros k orph Hk Hp. rewrite Hpool in Hk.
      destruct (dropOrphans_lookup _ _ _ _ Hk) as [Hk0 Hnot].
      apply elem_of_app. destruct (Hb _ Hp) as [Hp0|?]; [left|by right].
      pose proof (Hready _ _ Hk0 Hp0) as Hw.
      apply elem_of_cons in Hw as [Heq|?]; [|done]. exfalso.
      apply (Hnot (orphanBlock orph)); [|by apply Hpk].
      rewrite <- Heq. apply (orphanChildren_elem s _ (orphanExpiration orph)).
      rewrite (Hpk _ _ Hk0). by destruct orph.
    + intros h' Hh'. apply elem_of_app in Hh' as [Hh'|Hh'].
      * apply (proj1 Hlater), Hwork. by right.
      * destruct (Hnew _ Hh') as [Hnil|?]; [by apply elem_of_nil in Hnil|done].
    + rewrite length_app. simpl in Hfuel, Hlen. lia.
    + split; [by eapply Cascade_trans|done].
Qed.

Lemma addOrphanBlock_pool (now : Z) (s : ChainState) (b : Block) (k : Z) (orph : Orphan) :
  orphans (addOrphanBlock cfg now s b) !! k = Some orph →
  (k = blkHash b ∧ orphanBlock orph = b) ∨ orphans s !! k = Some orph.
Proof.
  unfold addOrphanBlock. simpl.
  rewrite lookup_insert_Some. intros [[<- <-]|[Hne Hlook]]; [by left|]. right.
  assert (Hlive : ∀ o', filter (fun ho => now <= orphanExpiration (snd ho)) (orphans s)
                          !! k = Some o' → orphans s !! k = Some o').
  { intros o'. rewrite map_lookup_filter_Some. by intros [? _]. }
  destruct (Nat.leb (maxOrphans cfg) _); [|by apply Hlive].
  destruct (oldestOrphan _); [|by apply Hlive].
  apply lookup_delete_Some in Hlook as [_ Hlook]. by apply Hlive.
Qed.

(** What a call of the entry point that accepts its block does with the
    orphan pool: after the block went through [maybeAcceptBlock], a run
    of reprocessing steps leads to the state that is returned, and that
    state holds no orphan whose parent is known. *)
Lemma ProcessBlock_cascade (flags : BehaviorFlags) (now : Z) (s s' : ChainState)
    (b : Block) (isMain : bool) :
  EngineInvariant s →
  ProcessBlock cfg flags now s b = (s', (isMain, false, error_nil)) →
  ∃ s1 : ChainState,
    maybeAcceptBlock cfg flags now s b = inr (s1, isMain) ∧
    orphans s1 = orphans s ∧
    PoolKeyed s1 ∧ IndexKeyed s1 ∧ PoolFresh s1 ∧
    Cascade cfg flags now s1 s' ∧ NoReadyOrphan s'.
Proof.
  intros (Hpk & Hik & Hpf & Hnr) H.
  destruct (ProcessBlock_cases cfg flags now s b)
    as [[Hk Hpb]|[[Hk Hpb]|[(Hnew & e & Hsane & Hpb)|[(Hnew & Hsane & Hparent & Hpb)|
        [(Hnew & Hsane & Hparent & e & Hacc & Hpb)|
        [(Hnew & Hsane & Hparent & s1 & m & a & Hacc & Horph & Hpb)|
         (Hnew & Hsane & Hparent & s1 & m & s2 & Hacc & Horph & Hpb)]]]]]];
    rewrite Hpb in H; unfold reject in H; try discriminate.
  - injection H as <- <-. apply checkBlockSanity_error, IsRuleError_not_nil in Hsane. done.
  - injection H as <- <-. apply maybeAcceptBlock_error, IsFailure_not_nil in Hacc. done.
  - injection H as <- <-.
    destruct (maybeAcceptBlock_grows _ _ _ _ _ _ _ Hacc) as [[Hi Ho] Hknown].
    destruct (maybeAcceptBlock_index _ _ _ _ _ _ Hacc Hik) as [Hik1 Hb].
    assert (Hpk1 : PoolKeyed s1) by (intros k orph; rewrite Ho; apply Hpk).
    assert (Hpf1 : PoolFresh s1).
    { intros k orph. rewrite Ho. intros Hk. apply eq_None_not_Some. intros Hsome.
      destruct (Hb k Hsome) as [Hold | ->].
      - rewrite (Hpf _ _ Hk) in Hold. by destruct Hold.
      - destruct Hnew as [_ Hnew]. congruence. }
    exists s1. split; [done|]. split; [done|]. split; [done|]. split; [done|].
    split; [done|].
    apply (processOrphans_cascade flags now _ _ _ _ Horph Hpk1 Hik1 Hpf1).
    + intros k orph. rewrite Ho. intros Hk Hp.
      destruct (Hb _ Hp) as [Hold | ->]; [|by left].
      rewrite (Hnr _ _ Hk) in Hold. by destruct Hold.
    + intros h Hh. apply list_elem_of_singleton in Hh as ->. done.
    + simpl. lia.
Qed.

(** Every call of the entry point keeps the shape of the engine state. *)
Lemma ProcessBlock_invariant (flags : BehaviorFlags) (now : Z) (s : ChainState) (b : Block) :
  EngineInvariant s → EngineInvariant (fst (ProcessBlock cfg flags now s b)).
Proof.
  intros Hinv.
  destruct (ProcessBlock_cases cfg flags now s b)
    as [[_ Hpb]|[[_ Hpb]|[(_ & e & _ & Hpb)|[(Hnew & _ & Hparent & Hpb)|
        [(_ & _ & _ & e & _ & Hpb)|[(_ & _ & _ & s1 & m & a & _ & _ & Hpb)|
         (_ & _ & _ & s1 & m & s2 & _ & _ & Hpb)]]]]]]; try (by rewrite Hpb).
  - rewrite Hpb. destruct Hinv as (Hpk & Hik & Hpf & Hnr). simpl.
    split; [by apply addOrphanBlock_PoolKeyed|]. split; [done|]. split.
    + intros k orph Hk. apply addOrphanBlock_pool in Hk as [[-> _]|Hk];
        [apply Hnew|by eapply Hpf].
    + intros k orph Hk. apply addOrphanBlock_pool in Hk as [[_ ->]|Hk];
        [done|by eapply Hnr].
  - destruct (ProcessBlock_cascade flags now s s2 b m Hinv Hpb)
      as (s1' & _ & _ & Hpk1 & Hik1 & Hpf1 & Hc & Hnr2).
    destruct (Cascade_invariant _ _ _ _ Hc Hpk1 Hik1 Hpf1) as (Hpk2 & Hik2 & Hpf2 & _).
    rewrite Hpb. by repeat split.
Qed.

(** C6, with the acceptance of the reprocessed orphan tied to its
    validation.  (1) A block that is an orphan in the sense of the
    glossary (structurally valid, parent unknown) and new to the engine
    gets [isOrphan = true] with a nil error, so that the harness's
    [testOrphanOrRejectedBlock] passes, and it is held in the orphan pool
    while block tree, best chain and UTXO set stay as they are.
    (2) In every later call of [ProcessBlock] that accepts its block, if
    the parent of the held orphan is known when the call returns (the
    parent was the block of the call, or an orphan accepted in its wake),
    then the orphan has left the pool and was reprocessed in that very
    call: the state returned results from the state reached by accepting
    the block of the call by a run of reprocessing steps, one of which
    took the orphan out of the pool and handed it to [maybeAcceptBlock],
    the stage through which [ProcessBlock] passes a block whose parent is
    known.  The orphan is in the block tree afterwards when that stage
    accepted it; when a rule of that stage rejected it the orphan is
    dropped: it is neither in the pool nor in the block tree.
    (3) Every call keeps the shape of the engine state that (2)
    assumes. *)
Theorem orphan_is_held_then_reprocessed (flags : BehaviorFlags) (now : Z)
    (s : ChainState) (o : Block) :
  NotKnown s o →
  checkBlockSanity cfg o = inr tt →
  index s !! hdrPrevBlock (blkHeader o) = None →
  (∃ s1 : ChainState,
     ProcessBlock cfg flags now s o = (s1, (false, true, error_nil)) ∧
     testOrphanOrRejectedBlock (snd (ProcessBlock cfg flags now s o)) = true ∧
     orphans s1 !! blkHash o = Some (MkOrphan o (now + orphanLifetime cfg)) ∧
     index s1 = index s ∧ bestChain s1 = bestChain s ∧ utxo s1 = utxo s) ∧
  (∀ (flags' : BehaviorFlags) (now' exp : Z) (sa sb : ChainState) (b : Block)
     (isMainChain : bool),
     EngineInvariant sa →
     orphans sa !! blkHash o = Some (MkOrphan o exp) →
     ProcessBlock cfg flags' now' sa b = (sb, (isMainChain, false, error_nil)) →
     is_Some (index sb !! hdrPrevBlock (blkHeader o)) →
     orphans sb !! blkHash o = None ∧
     ∃ s1 mid0 mid1 : ChainState,
       maybeAcceptBlock cfg flags' now' sa b = inr (s1, isMainChain) ∧
       Cascade cfg flags' now' s1 mid0 ∧
       Reprocess cfg flags' now' o mid0 mid1 ∧
       Cascade cfg flags' now' mid1 sb ∧
       match maybeAcceptBlock cfg flags' now' (removeOrphan (blkHash o) mid0) o with
       | inr (s2, _) => mid1 = s2 ∧ is_Some (index sb !! blkHash o)
       | inl e =>
           (∃ re : RuleError, e = error_RuleError re ∧ RuleError_ErrorCode re ∈ definedCodes) ∧
           mid1 = removeOrphan (blkHash o) mid0 ∧
           index sb !! blkHash o = None
       end) ∧
  (∀ (flags' : BehaviorFlags) (now' : Z) (sa : ChainState) (b : Block),
     EngineInvariant sa → EngineInvariant (fst (ProcessBlock cfg flags' now' sa b))).
Proof.
  intros Hnew Hsane Hparent. split; [|split].
  - exists (addOrphanBlock cfg now s o).
    destruct (ProcessBlock_cases cfg flags now s o)
      as [[Hk Hpb]|[[Hk Hpb]|[(_ & e & Hs & Hpb)|[(_ & _ & _ & Hpb)|
          [(_ & _ & Hp & _)|[(_ & _ & Hp & _)|(_ & _ & Hp & _)]]]]]].
    + destruct Hnew as [Hn _]. rewrite Hn in Hk. by destruct Hk.
    + destruct Hnew as [_ Hn]. rewrite Hn in Hk. by destruct Hk.
    + congruence.
    + split; [done|]. rewrite Hpb. split; [done|]. simpl. by rewrite lookup_insert_eq.
    + rewrite Hparent in Hp. by destruct Hp.
    + rewrite Hparent in Hp. by destruct Hp.
    + rewrite Hparent in Hp. by destruct Hp.
  - intros flags' now' exp sa sb b isMain Hinv Hheld Hpb Hknown.
    destruct (ProcessBlock_cascade flags' now' sa sb b isMain Hinv Hpb)
      as (s1 & Hacc & Hpool & Hpk1 & Hik1 & Hpf1 & Hc & Hnr).
    assert (Hgone : orphans sb !! blkHash o = None).
    { destruct (orphans sb !! blkHash o) as [orph|] eqn:Hstill; [|done].
      destruct (Cascade_invariant _ _ _ _ Hc Hpk1 Hik1 Hpf1) as (_ & _ & _ & [_ Hl] & _).
      pose proof (Hnr _ _ Hstill) as Hnone.
      apply Hl in Hstill. rewrite Hpool, Hheld in Hstill. injection Hstill as <-.
      simpl in Hnone. rewrite Hnone in Hknown. by destruct Hknown. }
    split; [done|].
    assert (Hheld1 : orphans s1 !! blkHash o = Some (MkOrphan o exp)) by (by rewrite Hpool).
    destruct (Cascade_reprocesses _ _ _ _ Hc o _ Hheld1 eq_refl Hgone)
      as (mid0 & mid1 & Hc0 & Hre & Hc1).
    exists s1, mid0, mid1. split; [done|]. split; [done|]. split; [done|]. split; [done|].
    destruct (Cascade_invariant _ _ _ _ Hc0 Hpk1 Hik1 Hpf1) as (Hpk0 & Hik0 & Hpf0 & _).
    destruct (Reprocess_invariant _ _ _ _ _ Hre Hpk0 Hik0 Hpf0) as (Hpkm & Hikm & Hpfm).
    destruct (Cascade_invariant _ _ _ _ Hc1 Hpkm Hikm Hpfm) as (_ & _ & _ & [Hmono _] & Hb).
    destruct Hre as [mid0 s2 orph m Hin _ _ Hre|mid0 orph re Hin _ _ Hre]; rewrite Hre.
    + split; [done|]. apply Hmono. by destruct (maybeAcceptBlock_grows _ _ _ _ _ _ _ Hre).
    + split; [|split; [done|]].
      * destruct (maybeAcceptBlock_error _ _ _ _ _ _ Hre) as [(re' & [= <-] & Hcode)|[a [=]]].
        by exists re.
      * apply eq_None_not_Some. intros Hsome.
        destruct (Hb _ Hsome) as [Hidx|Horph].
        -- simpl in Hidx. rewrite (Hpf0 _ _ Hin) in Hidx. by destruct Hidx.
        -- simpl in Horph. rewrite lookup_delete_eq in Horph. by destruct Horph.
  - intros flags' now' sa b. apply ProcessBlock_invariant.
Qed.

End OrphanCascade.

(** *** The claims on the example chain *)

Lemma rule_error_witness :
  RuleViolation toyConfig BFNone 2000 st101 block202empty
    (ruleError ErrNoTransactions "block does not contain any transactions") ∧
  ErrNoTransactions ∈ definedCodes ∧
  testRejectedBlock
    (false, false,
     error_RuleError (ruleError ErrNoTransactions "block does not contain any transactions"))
    ErrNoTransactions = true.
Proof.
  assert (H : ProcessBlock toyConfig BFNone 2000 st101 block202empty =
              (st101, (false, false,
                 error_RuleError
                   (ruleError ErrNoTransactions "block does not contain any transactions"))))
    by (vm_compute; reflexivity).
  destruct (ProcessBlock_returns_the_rule_error toyConfig BFNone 2000 st101 st101
              block202empty false false _ H) as [(Hv & Hc & Ht & _) _].
  split; [exact Hv|]. split; [exact Hc|exact Ht].
Defined.

(** C6 as stated fails in its second half.  Block [late502] is an orphan
    in the sense of the glossary: it passes structural validation and its
    parent 101 is unknown; [ProcessBlock] holds it with [isOrphan = true]
    and a nil error.  Block 101 is then accepted on the best chain, and
    the orphan is reprocessed in the same call, but not accepted: its
    timestamp is not after the median time of the blocks below it, the
    rule rejects it, and it is neither in the block tree nor in the pool
    afterwards.  And an orphan that satisfies every rule is never
    reprocessed if its stay in the bounded pool ended before the parent
    arrived: block 102 expired from the pool, and accepting block 101
    leaves it unknown. *)
Lemma orphan_claim_counterexample :
  (checkBlockSanity freeConfig late502 = inr tt ∧
   index genesisState !! hdrPrevBlock (blkHeader late502) = None ∧
   ProcessBlock freeConfig BFNone 2000 genesisState late502 =
     (heldLate, (false, true, error_nil)) ∧
   testOrphanOrRejectedBlock (snd (ProcessBlock freeConfig BFNone 2000 genesisState late502))
     = true ∧
   orphans heldLate !! blkHash late502 = Some (MkOrphan late502 5600) ∧
   blkHash block101 = hdrPrevBlock (blkHeader late502) ∧
   snd (ProcessBlock freeConfig BFNone 2000 heldLate block101) = (true, false, error_nil) ∧
   is_Some (index (fst (ProcessBlock freeConfig BFNone 2000 heldLate block101))
              !! blkHash block101) ∧
   index (fst (ProcessBlock freeConfig BFNone 2000 heldLate block101)) !! blkHash late502
     = None ∧
   orphans (fst (ProcessBlock freeConfig BFNone 2000 heldLate block101)) !! blkHash late502
     = None ∧
   maybeAcceptBlock freeConfig BFNone 2000
     (removeOrphan (blkHash late502)
        (fst (fromResult (heldLate, false)
                (maybeAcceptBlock freeConfig BFNone 2000 heldLate block101))))
     late502
   = inl (error_RuleError
            (ruleError ErrTimeTooOld
               "block timestamp is not after the median time of the last blocks"))) ∧
  (orphans held102 !! blkHash block102 = Some (MkOrphan block102 5600) ∧
   snd (ProcessBlock toyConfig BFNone 6000 held102 orphan402) = (false, true, error_nil) ∧
   orphans expired102 !! blkHash block102 = None ∧
   snd (ProcessBlock toyConfig BFNone 6000 expired102 block101) = (true, false, error_nil) ∧
   is_Some (index (fst (ProcessBlock toyConfig BFNone 6000 expired102 block101))
              !! blkHash block101) ∧
   index (fst (ProcessBlock toyConfig BFNone 6000 expired102 block101)) !! blkHash block102
     = None ∧
   snd (ProcessBlock toyConfig BFNone 6000 st101 block102) = (true, false, error_nil)) ∧
  ¬ (∀ (cfg : Config) (flags : BehaviorFlags) (now : Z) (s s1 s2 : ChainState)
       (o p : Block) (isMainChain : bool),
       NotKnown s o → checkBlockSanity cfg o = inr tt →
       index s !! hdrPrevBlock (blkHeader o) = None →
       ProcessBlock cfg flags now s o = (s1, (false, true, error_nil)) →
       blkHash p = hdrPrevBlock (blkHeader o) →
       ProcessBlock cfg flags now s1 p = (s2, (isMainChain, false, error_nil)) →
       is_Some (index s2 !! blkHash o)).
Proof.
  split; [|split].
  - split; [by vm_compute|]. split; [by vm_compute|]. split; [by vm_compute|].
    split; [by vm_compute|]. split; [by vm_compute|]. split; [by vm_compute|].
    split; [by vm_compute|]. split; [vm_compute; by eexists|].
    split; [by vm_compute|]. split; by vm_compute.
  - split; [by vm_compute|]. split; [by vm_compute|]. split; [by vm_compute|].
    split; [by vm_compute|]. split; [vm_compute; by eexists|].
    split; by vm_compute.
  - intros H.
    destruct (H freeConfig BFNone 2000 genesisState heldLate
                (fst (ProcessBlock freeConfig BFNone 2000 heldLate block101))
                late502 block101 true) as [nd Hnd];
      [split; by vm_compute|by vm_compute|by vm_compute|by vm_compute|by vm_compute
      |by vm_compute|].
    vm_compute in Hnd. discriminate Hnd.
Qed.

Lemma orphan_witness :
  (∃ s1 : ChainState,
     ProcessBlock toyConfig BFNone 2000 genesisState block102 = (s1, (false, true, error_nil)) ∧
     testOrphanOrRejectedBlock (snd (ProcessBlock toyConfig BFNone 2000 genesisState block102))
       = true ∧
     orphans s1 !! 102 = Some (MkOrphan block102 5600) ∧
     index s1 = index genesisState ∧ bestChain s1 = bestChain genesisState ∧
     utxo s1 = utxo genesisState) ∧
  orphans (fst (ProcessBlock toyConfig BFNone 2000 held102 block101)) !! 102 = None ∧
  is_Some (index (fst (ProcessBlock toyConfig BFNone 2000 held102 block101)) !! 102) ∧
  orphans (fst (ProcessBlock toyConfig BFNone 2000 held103 block101)) !! 103 = None ∧
  is_Some (index (fst (ProcessBlock toyConfig BFNone 2000 held103 block101)) !! 103) ∧
  bestChain (fst (ProcessBlock toyConfig BFNone 2000 held103 block101))
    = [103; 102; 101; 100].
Proof.
  assert (Hgenesis : EngineInvariant genesisState).
  { split; [|split; [|split]].
    - intros k orph Hk. unfold genesisState in Hk. simpl in Hk. by rewrite lookup_empty in Hk.
    - intros h nd Hh. unfold genesisState in Hh. simpl in Hh.
      apply lookup_singleton_Some in Hh as [<- <-]. reflexivity.
    - intros k orph Hk. unfold genesisState in Hk. simpl in Hk. by rewrite lookup_empty in Hk.
    - intros k orph Hk. unfold genesisState in Hk. simpl in Hk. by rewrite lookup_empty in Hk. }
  assert (Hnew : NotKnown genesisState block102) by (split; vm_compute; reflexivity).
  assert (Hsane : checkBlockSanity toyConfig block102 = inr tt) by (vm_compute; reflexivity).
  assert (Hpar : index genesisState !! hdrPrevBlock (blkHeader block102) = None)
    by (vm_compute; reflexivity).
  destruct (orphan_is_held_then_reprocessed toyConfig BFNone 2000 genesisState block102
              Hnew Hsane Hpar) as (Hheld & Hlater & Hinv).
  split; [exact Hheld|].
  assert (Hinv102 : EngineInvariant held102) by apply (Hinv BFNone 2000 _ block102 Hgenesis).
  assert (Hpool : orphans held102 !! blkHash block102 = Some (MkOrphan block102 5600))
    by (vm_compute; reflexivity).
  assert (Hpb : ProcessBlock toyConfig BFNone 2000 held102 block101 =
                (fst (ProcessBlock toyConfig BFNone 2000 held102 block101),
                 (true, false, error_nil)))
    by (vm_compute; reflexivity).
  assert (Hknown : is_Some (index (fst (ProcessBlock toyConfig BFNone 2000 held102 block101))
                              !! hdrPrevBlock (blkHeader block102)))
    by (vm_compute; by eexists).
  destruct (Hlater BFNone 2000 5600 held102 _ block101 true Hinv102 Hpool Hpb Hknown)
    as (Hgone & s1 & mid0 & mid1 & _ & _ & _ & _ & Hfate).
  split; [exact Hgone|]. split.
  { destruct (maybeAcceptBlock toyConfig BFNone 2000 (removeOrphan (blkHash block102) mid0)
                block102) as [e|[s2 m]].
    - destruct Hfate as (_ & _ & Hnone). vm_compute in Hnone. discriminate Hnone.
    - exact (proj2 Hfate). }
  assert (Hnew3 : NotKnown genesisState block103) by (split; vm_compute; reflexivity).
  assert (Hsane3 : checkBlockSanity toyConfig block103 = inr tt) by (vm_compute; reflexivity).
  assert (Hpar3 : index genesisState !! hdrPrevBlock (blkHeader block103) = None)
    by (vm_compute; reflexivity).
  destruct (orphan_is_held_then_reprocessed toyConfig BFNone 2000 genesisState block103
              Hnew3 Hsane3 Hpar3) as (_ & Hlater3 & _).
  assert (Hinv103 : EngineInvariant held103).
  { change held103
      with (fst (ProcessBlock toyConfig BFNone 2000
                   (fst (ProcessBlock toyConfig BFNone 2000 genesisState block103)) block102)).
    by apply Hinv, Hinv. }
  assert (Hpool3 : orphans held103 !! blkHash block103 = Some (MkOrphan block103 5600))
    by (vm_compute; reflexivity).
  assert (Hpb3 : ProcessBlock toyConfig BFNone 2000 held103 block101 =
                 (fst (ProcessBlock toyConfig BFNone 2000 held103 block101),
                  (true, false, error_nil)))
    by (vm_compute; reflexivity).
  assert (Hknown3 : is_Some (index (fst (ProcessBlock toyConfig BFNone 2000 held103 block101))
                               !! hdrPrevBlock (blkHeader block103)))
    by (vm_compute; by eexists).
  destruct (Hlater3 BFNone 2000 5600 held103 _ block101 true Hinv103 Hpool3 Hpb3 Hknown3)
    as (Hgone3 & s1' & mid0' & mid1' & _ & _ & _ & _ & Hfate3).
  split; [exact Hgone3|]. split; [|vm_compute; reflexivity].
  destruct (maybeAcceptBlock toyConfig BFNone 2000 (removeOrphan (blkHash block103) mid0')
              block103) as [e|[s2 m]].
  - destruct Hfate3 as (_ & _ & Hnone). vm_compute in Hnone. discriminate Hnone.
  - exact (proj2 Hfate3).
Defined.

(** The three rejected blocks are blocks that the profile without pinned
    heights accepts in the same states: block 202 as the new tip of the
    best chain, blocks 201 and 212 on side branches. *)
Lemma checkpoint_witness :
  ProcessBlock toyConfig BFNone 2000 st101 block202 =
    (st101,
     (false, false,
      error_RuleError (ruleError ErrBadCheckpoint
        "block does not match the checkpoint hash at its height"))) ∧
  ProcessBlock toyConfig BFNone 2000 st102 block201 =
    (st102,
     (false, false,
      error_RuleError (ruleError ErrForkTooOld
        "block forks the main chain before the most recent checkpoint"))) ∧
  bestChain sideBranch = [103; 102; 101; 100] ∧
  ProcessBlock lateConfig BFNone 2000 sideBranch block212 =
    (sideBranch,
     (false, false,
      error_RuleError (ruleError ErrForkTooOld
        "block forks the main chain before the most recent checkpoint"))) ∧
  snd (ProcessBlock freeConfig BFNone 2000 st101 block202) = (true, false, error_nil) ∧
  snd (ProcessBlock freeConfig BFNone 2000 st102 block201) = (false, false, error_nil) ∧
  snd (ProcessBlock freeConfig BFNone 2000 sideBranch block212) = (false, false, error_nil).
Proof.
  split; [|split; [|split; [vm_compute; reflexivity|split;
    [|split; [|split]; vm_compute; reflexivity]]]].
  - assert (Hparent : index st101 !! hdrPrevBlock (blkHeader block202) = Some (nodeOf st101 101))
      by (vm_compute; reflexivity).
    destruct (checkpoint_rules_reject toyConfig BFNone 2000 st101 block202 _ Hparent)
      as [Hpin _].
    assert (Hcp : checkpointAt toyConfig (blkHeight block202) = Some 102)
      by (vm_compute; reflexivity).
    assert (Hne : blkHash block202 ≠ 102) by (by vm_compute).
    destruct (Hpin 102 Hcp Hne) as [_ Hcode].
    apply Hcode; [split| |]; vm_compute; reflexivity.
  - assert (Hparent : index st102 !! hdrPrevBlock (blkHeader block201) = Some (nodeOf st102 100))
      by (vm_compute; reflexivity).
    destruct (checkpoint_rules_reject toyConfig BFNone 2000 st102 block201 _ Hparent)
      as [_ Hfork].
    assert (Hpath : OffChainPath st102 (nodeHash (nodeOf st102 100)) [] (nodeOf st102 100)).
    { split; [vm_compute; reflexivity|]. compute_done. }
    assert (Hcp : (2, 102) ∈ checkpoints toyConfig) by compute_done.
    assert (Hbest : 102 ∈ bestChain st102) by compute_done.
    assert (Hle : nodeHeight (nodeOf st102 100) + 1 <= 2) by (by vm_compute).
    destruct (Hfork [] _ 2 102 Hpath Hcp Hbest Hle) as [_ Hcode].
    apply Hcode; [split; vm_compute; reflexivity|vm_compute; reflexivity
                 |vm_compute; reflexivity|].
    intros pinned Hpinned. vm_compute in Hpinned. discriminate Hpinned.
  - assert (Hparent : index sideBranch !! hdrPrevBlock (blkHeader block212)
                      = Some (nodeOf sideBranch 201))
      by (vm_compute; reflexivity).
    destruct (checkpoint_rules_reject lateConfig BFNone 2000 sideBranch block212 _ Hparent)
      as [_ Hfork].
    assert (Hpath : OffChainPath sideBranch (nodeHash (nodeOf sideBranch 201))
                      [nodeOf sideBranch 201] (nodeOf sideBranch 100)).
    { split; [vm_compute; reflexivity|]. split; [compute_done|].
      split; [vm_compute; reflexivity|compute_done]. }
    assert (Hcp : (3, 103) ∈ checkpoints lateConfig) by compute_done.
    assert (Hbest : 103 ∈ bestChain sideBranch) by compute_done.
    assert (Hle : nodeHeight (nodeOf sideBranch 100) + 1 <= 3) by (by vm_compute).
    destruct (Hfork _ _ 3 103 Hpath Hcp Hbest Hle) as [_ Hcode].
    apply Hcode; [split; vm_compute; reflexivity|vm_compute; reflexivity
                 |vm_compute; reflexivity|].
    intros pinned Hpinned. vm_compute in Hpinned. discriminate Hpinned.
Defined.

Lemma failed_reorganization_witness :
  bestChain st313 = [103; 102; 101; 100] ∧
  bestChain detached102 = [102; 101; 100] ∧
  utxo detached102 ≠ utxo st313 ∧
  ∃ s' : ChainState,
    ProcessBlock freeConfig BFNone 2000 st313 block314 =
      (s', (false, false,
            error_RuleError (ruleError ErrMissingTx
              "transaction references an output that does not exist"))) ∧
    error_RuleError (ruleError ErrMissingTx
      "transaction references an output that does not exist") ≠ error_nil ∧
    s' = st313 ∧
    utxo s' = utxo st313 ∧
    index s' = index st313 ∧
    adminKeySets s' = adminKeySets st313 ∧
    bestChain s' = bestChain st313 ∧
    orphans s' !! blkHash block314 = None.
Proof.
  split; [by vm_compute|]. split; [by vm_compute|].
  split.
  { intros Heq. apply (f_equal (fun u => u !! (1030, 0%nat))) in Heq.
    vm_compute in Heq. discriminate Heq. }
  apply (failed_reorganization_is_atomic freeConfig BFNone 2000 st313 detached102 detached102
           block314 (nodeOf st313 313) node314 (nodeOf st313 103) (nodeOf st313 102)
           (nodeOf st313 313) 103 [nodeOf st313 313] [] [node314]).
  - split; vm_compute; reflexivity.
  - vm_compute; reflexivity.
  - vm_compute; reflexivity.
  - vm_compute; reflexivity.
  - vm_compute; reflexivity.
  - vm_compute; reflexivity.
  - by vm_compute.
  - by vm_compute.
  - vm_compute; reflexivity.
  - vm_compute; reflexivity.
  - reflexivity.
  - reflexivity.
  - vm_compute; reflexivity.
Defined.

Lemma roundtrip_witness :
  ∃ s0' s1' : ChainState,
    disconnectTip connected403 = inr s0' ∧
    utxo s0' = utxo free102 ∧
    bestChain s0' = bestChain free102 ∧
    index connected403 !! nodeHash node403 = Some (setStatus Valid node403) ∧
    connectBlock freeConfig s0' (setStatus Valid node403) = inr s1' ∧
    utxo s1' = utxo connected403 ∧
    adminKeySets s1' = adminKeySets connected403 ∧
    s1' = connected403.
Proof.
  apply (disconnect_then_reconnect_restores freeConfig free102 connected403 node403).
  vm_compute. reflexivity.
Defined.

(** * Further properties of the sources *)

(** ** blockchain/error.go *)

Lemma append_char_cancel (a b : string) (c : Ascii.ascii) :
  a +:+ String c "" = b +:+ String c "" → a = b.
Proof.
  revert b. induction a as [|x a IH]; intros [|y b] H.
  - done.
  - change (String c "" = String y (b +:+ String c "")) in H.
    injection H as _ H. by destruct b.
  - change (String x (a +:+ String c "") = String c "") in H.
    injection H as _ H. by destruct a.
  - change (String x (a +:+ String c "") = String y (b +:+ String c "")) in H.
    injection H as -> H. f_equal. by apply IH.
Qed.

Lemma substring_all (s : string) : String.substring 0 (String.length s) s = s.
Proof. induction s as [|c s IH]; simpl; [done|]. by rewrite IH. Qed.

Lemma table_keys_defined (e : Z) (name : string) :
  errorCodeStrings !! e = Some name → 0 <= e < 47.
Proof.
  assert (HF : map_Forall (fun k _ => 0 <= k < 47) errorCodeStrings) by compute_done.
  intros H. exact (HF e name H).
Qed.

Lemma table_has_defined (e : Z) : 0 <= e < 47 → is_Some (errorCodeStrings !! e).
Proof.
  intros He.
  assert (HF : Forall (fun c => is_Some (errorCodeStrings !! c)) definedCodes) by compute_done.
  rewrite Forall_forall in HF. apply HF. by apply definedCodes_range.
Qed.

Lemma table_names_start_with_Err (e : Z) (name : string) :
  errorCodeStrings !! e = Some name → String.prefix "Err" name = true.
Proof.
  assert (HF : map_Forall (fun _ v => String.prefix "Err" v = true) errorCodeStrings)
    by compute_done.
  intros H. exact (HF e name H).
Qed.

Lemma table_names_distinct (e1 e2 : Z) (name : string) :
  errorCodeStrings !! e1 = Some name → errorCodeStrings !! e2 = Some name → e1 = e2.
Proof.
  intros H1 H2.
  assert (Hnd : NoDup (ErrorCode_String <$> definedCodes)) by compute_done.
  assert (Hin : ∀ e, is_Some (errorCodeStrings !! e) → e ∈ definedCodes).
  { intros e [n Hn]. apply definedCodes_range. by eapply table_keys_defined. }
  destruct (proj1 (list_elem_of_lookup _ _) (Hin e1 (ex_intro _ _ H1))) as [i Hi].
  destruct (proj1 (list_elem_of_lookup _ _) (Hin e2 (ex_intro _ _ H2))) as [j Hj].
  assert (i = j); [|congruence].
  eapply NoDup_lookup; [exact Hnd| |].
  - rewrite list_lookup_fmap, Hi. simpl. by rewrite (String_of_entry _ _ H1).
  - rewrite list_lookup_fmap, Hj. simpl. by rewrite (String_of_entry _ _ H2).
Qed.

Lemma prefix_Err_not_Unknown (s : string) :
  String.prefix "Err" s = true → String.prefix "Unknown ErrorCode (" s = true → False.
Proof.
  intros H1 H2. apply String.prefix_correct in H1, H2.
  destruct s as [|c s]; [discriminate H1|].
  simpl in H1, H2. injection H1 as -> _. discriminate H2.
Qed.

(** X1: [String()] never returns the empty string, whatever the code. *)
Theorem ErrorCode_String_never_empty (e : Z) : ErrorCode_String e ≠ "".
Proof.
  destruct (errorCodeStrings !! e) as [name|] eqn:He.
  - rewrite (String_of_entry _ _ He). by eapply table_values_nonempty.
  - by rewrite (String_of_missing _ He).
Qed.

(** X2: [String()] is injective on all integers: two codes that print
    the same are the same code, constants and unknown codes alike. *)
Theorem ErrorCode_String_injective (e1 e2 : Z) :
  ErrorCode_String e1 = ErrorCode_String e2 → e1 = e2.
Proof.
  destruct (errorCodeStrings !! e1) as [n1|] eqn:H1;
    destruct (errorCodeStrings !! e2) as [n2|] eqn:H2.
  - rewrite (String_of_entry _ _ H1), (String_of_entry _ _ H2). intros <-.
    by eapply table_names_distinct.
  - rewrite (String_of_entry _ _ H1), (String_of_missing _ H2). intros ->.
    apply table_names_start_with_Err in H1. vm_compute in H1. discriminate H1.
  - rewrite (String_of_missing _ H1), (String_of_entry _ _ H2). intros <-.
    apply table_names_start_with_Err in H2. vm_compute in H2. discriminate H2.
  - rewrite (String_of_missing _ H1), (String_of_missing _ H2). intros H.
    apply (inj (String.app "Unknown ErrorCode (")) in H.
    apply append_char_cancel in H. unfold fmt_d in H. by apply (inj pretty) in H.
Qed.

Lemma String_injective_witness : ErrBadCheckpoint = 12.
Proof. apply ErrorCode_String_injective. reflexivity. Defined.

(** X3: the text of [String()] tells a constant from any other code: it
    starts with "Unknown ErrorCode (" exactly when the code is none of the
    47 constants, and with "Err" exactly when it is one. *)
Theorem ErrorCode_String_unknown_iff (e : Z) :
  (String.prefix "Unknown ErrorCode (" (ErrorCode_String e) = true ↔ ¬ 0 <= e < 47) ∧
  (String.prefix "Err" (ErrorCode_String e) = true ↔ 0 <= e < 47).
Proof.
  destruct (errorCodeStrings !! e) as [name|] eqn:He.
  - pose proof (table_keys_defined _ _ He) as Hin.
    pose proof (table_names_start_with_Err _ _ He) as Hpre.
    rewrite (String_of_entry _ _ He). split; split; try done.
    intros Hunk _. by eapply prefix_Err_not_Unknown.
  - assert (Hout : ¬ 0 <= e < 47).
    { intros Hin. apply table_has_defined in Hin. rewrite He in Hin. by destruct Hin. }
    rewrite (String_of_missing _ He).
    assert (Hunk : String.prefix "Unknown ErrorCode ("
                     ("Unknown ErrorCode (" +:+ fmt_d e +:+ ")") = true).
    { apply String.prefix_correct.
      change (String.substring 0 19 ("Unknown ErrorCode (" +:+ fmt_d e +:+ ")"))
        with ("Unknown ErrorCode (" +:+ String.substring 0 0 (fmt_d e +:+ ")")).
      by destruct (fmt_d e +:+ ")"). }
    by split; split.
Qed.

Lemma String_unknown_witness :
  String.prefix "Unknown ErrorCode (" (ErrorCode_String 99) = true ∧
  String.prefix "Err" (ErrorCode_String ErrFeeTooHigh) = true.
Proof.
  split.
  - apply (proj1 (ErrorCode_String_unknown_iff 99)). vm_compute. intros [_ H]. discriminate H.
  - apply (proj2 (ErrorCode_String_unknown_iff ErrFeeTooHigh)). by vm_compute.
Defined.

(** X4: [AssertError.Error()] keeps the whole message: the result is 18
    characters longer than the message, the message is what follows the
    first 18 characters, and two assertion errors with the same text are
    the same error. *)
Theorem AssertError_Error_keeps_message :
  (∀ e : AssertError,
     String.length (AssertError_Error e) = (18 + String.length (AssertError_string e))%nat ∧
     String.substring 18 (String.length (AssertError_string e)) (AssertError_Error e)
       = AssertError_string e ∧
     String.prefix "assertion failed: " (AssertError_Error e) = true) ∧
  (∀ e1 e2 : AssertError, AssertError_Error e1 = AssertError_Error e2 → e1 = e2).
Proof.
  split.
  - intros [msg]. unfold AssertError_Error. cbn [AssertError_string].
    split; [|split].
    + reflexivity.
    + change (String.substring 0 (String.length msg) msg = msg). apply substring_all.
    + change (String.prefix "" msg = true). by destruct msg.
  - intros [m1] [m2]. unfold AssertError_Error. cbn [AssertError_string]. intros H.
    apply (inj (String.app "assertion failed: ")) in H. by rewrite H.
Qed.

Lemma AssertError_Error_witness : MkAssertError "tip" = MkAssertError "tip".
Proof.
  apply (proj2 AssertError_Error_keeps_message (MkAssertError "tip") (MkAssertError "tip")).
  reflexivity.
Defined.

(** X5: the text of [Error()] does not tell the two error classes apart:
    for every assertion error there is a rule error (of any code) that
    prints the same text; only the type assertion separates them. *)
Theorem Error_text_does_not_separate_classes (a : AssertError) (c : Z) :
  ∃ r : RuleError,
    RuleError_ErrorCode r = c ∧
    error_Error (error_RuleError r) = error_Error (error_AssertError a) ∧
    snd (assert_RuleError (error_RuleError r)) = true ∧
    snd (assert_RuleError (error_AssertError a)) = false.
Proof. by exists (ruleError c (AssertError_Error a)). Qed.

(** ** The closures of the harness *)

Lemma testRejectedBlock_passes_iff_aux (isMainChain isOrphan : bool) (err : error)
    (RejectCode : Z) :
  testRejectedBlock (isMainChain, isOrphan, err) RejectCode = true ↔
  ∃ re : RuleError, err = error_RuleError re ∧ RuleError_ErrorCode re = RejectCode.
Proof.
  unfold testRejectedBlock. split.
  - destruct err as [|a|re|msg]; simpl; try discriminate.
    destruct (RuleError_ErrorCode re =? RejectCode) eqn:Hc; simpl; [|discriminate].
    intros _. exists re. split; [done|]. by apply Z.eqb_eq.
  - intros (re & -> & <-). simpl. by rewrite Z.eqb_refl.
Qed.

(** X6: [testRejectedBlock] passes exactly on a [RuleError] that carries
    the expected reject code; the two booleans play no part, and a nil
    error, an assertion failure or an error of another type fail it. *)
Theorem testRejectedBlock_passes_iff (isMainChain isOrphan : bool) (err : error)
    (RejectCode : Z) :
  testRejectedBlock (isMainChain, isOrphan, err) RejectCode = true ↔
  ∃ re : RuleError, err = error_RuleError re ∧ RuleError_ErrorCode re = RejectCode.
Proof. apply testRejectedBlock_passes_iff_aux. Qed.

Lemma testRejectedBlock_witness :
  ∃ re : RuleError,
    error_RuleError (ruleError ErrBadCheckpoint "pinned") = error_RuleError re ∧
    RuleError_ErrorCode re = 12.
Proof.
  apply (proj1 (testRejectedBlock_passes_iff true true
                  (error_RuleError (ruleError ErrBadCheckpoint "pinned")) 12)).
  reflexivity.
Defined.

Lemma testOrphanOrRejectedBlock_passes_iff_aux (isMainChain isOrphan : bool) (err : error) :
  (testOrphanOrRejectedBlock (isMainChain, isOrphan, err) = true ↔
   isOrphan = true ∧ (err = error_nil ∨ ∃ re : RuleError, err = error_RuleError re)) ∧
  (isOrphan = false → testOrphanOrRejectedBlock (isMainChain, isOrphan, err) = false).
Proof.
  unfold testOrphanOrRejectedBlock. split; [split|].
  - destruct err as [|a|re|msg], isOrphan; simpl; try discriminate; intros _.
    + split; [done|by left].
    + split; [done|]. right. by exists re.
  - intros [-> [->|[re ->]]]; reflexivity.
  - intros ->. by destruct err.
Qed.

(** X7: [testOrphanOrRejectedBlock] passes exactly when the orphan flag
    is set and the error is nil or a [RuleError].  So a rejection that
    comes with [isOrphan = false] fails it, rule error or not. *)
Theorem testOrphanOrRejectedBlock_passes_iff (isMainChain isOrphan : bool) (err : error) :
  (testOrphanOrRejectedBlock (isMainChain, isOrphan, err) = true ↔
   isOrphan = true ∧ (err = error_nil ∨ ∃ re : RuleError, err = error_RuleError re)) ∧
  (isOrphan = false → testOrphanOrRejectedBlock (isMainChain, isOrphan, err) = false).
Proof. apply testOrphanOrRejectedBlock_passes_iff_aux. Qed.

Lemma testOrphanOrRejectedBlock_witness :
  testOrphanOrRejectedBlock
    (false, false, error_RuleError (ruleError ErrNoTransactions "empty")) = false ∧
  testOrphanOrRejectedBlock (false, true, error_nil) = true.
Proof.
  split.
  - apply (proj2 (testOrphanOrRejectedBlock_passes_iff false false
                    (error_RuleError (ruleError ErrNoTransactions "empty")))).
    reflexivity.
  - apply (proj1 (testOrphanOrRejectedBlock_passes_iff false true error_nil)).
    split; [reflexivity|by left].
Defined.

Lemma testAcceptedBlock_passes_iff_aux (isMainChain isOrphan : bool) (err : error)
    (IsMainChain IsOrphan : bool) (AdminKey : option Z) (stateKeys : gset Z) :
  testAcceptedBlock (isMainChain, isOrphan, err) IsMainChain IsOrphan AdminKey stateKeys
    = true ↔
  err = error_nil ∧ isMainChain = IsMainChain ∧ isOrphan = IsOrphan ∧
  (∀ key : Z, AdminKey = Some key → key ∈ stateKeys).
Proof.
  unfold testAcceptedBlock. split.
  - destruct err as [|a|re|msg]; try discriminate.
    destruct (eqb isMainChain IsMainChain) eqn:Hm; simpl; [|discriminate].
    destruct (eqb isOrphan IsOrphan) eqn:Ho; simpl; [|discriminate].
    apply Bool.eqb_prop in Hm, Ho. intros H.
    split; [done|]. split; [done|]. split; [done|].
    intros key ->. destruct (decide (key ∈ stateKeys)) as [Hk|Hk]; [done|].
    rewrite bool_decide_eq_true_2 in H by done. discriminate H.
  - intros (-> & -> & -> & Hkey).
    rewrite !Bool.eqb_reflx. simpl.
    destruct AdminKey as [key|]; [|done].
    rewrite bool_decide_eq_false_2; [done|]. intros Hn. apply Hn. by apply Hkey.
Qed.

(** X8: [testAcceptedBlock] passes exactly when the error is nil, both
    flags are the expected ones, and the expected admin key, if the item
    names one, is in the issuing key set the chain reports. *)
Theorem testAcceptedBlock_passes_iff (isMainChain isOrphan : bool) (err : error)
    (IsMainChain IsOrphan : bool) (AdminKey : option Z) (stateKeys : gset Z) :
  testAcceptedBlock (isMainChain, isOrphan, err) IsMainChain IsOrphan AdminKey stateKeys
    = true ↔
  err = error_nil ∧ isMainChain = IsMainChain ∧ isOrphan = IsOrphan ∧
  (∀ key : Z, AdminKey = Some key → key ∈ stateKeys).
Proof. apply testAcceptedBlock_passes_iff_aux. Qed.

Lemma testAcceptedBlock_witness :
  testAcceptedBlock (true, false, error_nil) true false (Some 6) {[ 6 ]} = true.
Proof.
  apply (proj2 (testAcceptedBlock_passes_iff true false error_nil true false (Some 6) {[ 6 ]})).
  split; [reflexivity|]. split; [reflexivity|]. split; [reflexivity|].
  intros key [= <-]. set_solver.
Defined.

Lemma harness_checks_exclude_each_other_aux (res : ProcessResult) :
  (∀ (IsMainChain IsOrphan : bool) (AdminKey : option Z) (stateKeys : gset Z) (code : Z),
     testAcceptedBlock res IsMainChain IsOrphan AdminKey stateKeys = true →
     testRejectedBlock res code = false) ∧
  (∀ code1 code2 : Z,
     testRejectedBlock res code1 = true → testRejectedBlock res code2 = true →
     code1 = code2).
Proof.
  destruct res as [[m o] err]. split.
  - intros IsMain IsOrph key keys code H.
    apply testAcceptedBlock_passes_iff_aux in H as (-> & _). reflexivity.
  - intros c1 c2 H1 H2.
    apply testRejectedBlock_passes_iff_aux in H1 as (re1 & -> & <-).
    apply testRejectedBlock_passes_iff_aux in H2 as (re2 & [= <-] & <-). reflexivity.
Qed.

(** X9: no result of [ProcessBlock] passes two different expectations:
    one that [testAcceptedBlock] passes fails [testRejectedBlock] for
    every reject code, and [testRejectedBlock] passes for at most one
    reject code. *)
Theorem harness_checks_exclude_each_other (res : ProcessResult) :
  (∀ (IsMainChain IsOrphan : bool) (AdminKey : option Z) (stateKeys : gset Z) (code : Z),
     testAcceptedBlock res IsMainChain IsOrphan AdminKey stateKeys = true →
     testRejectedBlock res code = false) ∧
  (∀ code1 code2 : Z,
     testRejectedBlock res code1 = true → testRejectedBlock res code2 = true →
     code1 = code2).
Proof. apply harness_checks_exclude_each_other_aux. Qed.

Lemma harness_checks_witness :
  testRejectedBlock (true, false, error_nil) ErrDuplicateBlock = false.
Proof.
  apply (proj1 (harness_checks_exclude_each_other (true, false, error_nil))
           true false None ∅ ErrDuplicateBlock).
  reflexivity.
Defined.

Lemma header_slice_in_range_aux (RawBlock : list Byte.byte) :
  goSlice RawBlock 0 (headerLen RawBlock) = Some (take 80 RawBlock) ∧
  length (take 80 RawBlock) = Nat.min 80 (length RawBlock) ∧
  (headerLen RawBlock <= length RawBlock)%nat ∧
  ∀ BtcDecode : list Byte.byte -> decodeError,
    testRejectedNonCanonicalBlock BtcDecode RawBlock ≠ None.
Proof.
  assert (Hlen : (headerLen RawBlock <= length RawBlock)%nat).
  { unfold headerLen. destruct (80 <? length RawBlock)%nat eqn:H; [|lia].
    apply Nat.ltb_lt in H. lia. }
  assert (Hslice : goSlice RawBlock 0 (headerLen RawBlock) = Some (take 80 RawBlock)).
  { unfold goSlice. rewrite bool_decide_eq_true_2 by lia.
    rewrite Nat.sub_0_r, drop_0. f_equal. unfold headerLen.
    destruct (80 <? length RawBlock)%nat eqn:H; [done|].
    apply Nat.ltb_ge in H. by rewrite !take_ge by lia. }
  split; [done|]. split; [apply length_take|]. split; [done|].
  intros BtcDecode. unfold testRejectedNonCanonicalBlock. rewrite Hslice.
  by destruct (negb _).
Qed.

(** X10: the header slice of [testRejectedNonCanonicalBlock] is always in
    range: it is the first 80 bytes of the raw block, or the whole block
    when that is shorter, so the closure never panics, whatever the
    decoder and the input, the empty input included. *)
Theorem header_slice_in_range (RawBlock : list Byte.byte) :
  goSlice RawBlock 0 (headerLen RawBlock) = Some (take 80 RawBlock) ∧
  length (take 80 RawBlock) = Nat.min 80 (length RawBlock) ∧
  (headerLen RawBlock <= length RawBlock)%nat ∧
  ∀ BtcDecode : list Byte.byte -> decodeError,
    testRejectedNonCanonicalBlock BtcDecode RawBlock ≠ None.
Proof. apply header_slice_in_range_aux. Qed.

Lemma testRejectedNonCanonicalBlock_passes_iff_aux
    (BtcDecode : list Byte.byte -> decodeError) (RawBlock : list Byte.byte) :
  (testRejectedNonCanonicalBlock BtcDecode RawBlock = Some true ↔
   ∃ msg : string, BtcDecode RawBlock = decode_MessageError msg) ∧
  (BtcDecode RawBlock = decode_nil →
   testRejectedNonCanonicalBlock BtcDecode RawBlock = Some false).
Proof.
  unfold testRejectedNonCanonicalBlock.
  rewrite (proj1 (header_slice_in_range_aux RawBlock)).
  split; [split|].
  - destruct (BtcDecode RawBlock) as [|msg|msg]; simpl; try discriminate. eauto.
  - by intros [msg ->].
  - by intros ->.
Qed.

(** X11: [testRejectedNonCanonicalBlock] passes exactly when the decoder
    returns a [*wire.MessageError]; a raw block that decodes (nil error)
    and one that fails with another error type both fail the test. *)
Theorem testRejectedNonCanonicalBlock_passes_iff
    (BtcDecode : list Byte.byte -> decodeError) (RawBlock : list Byte.byte) :
  (testRejectedNonCanonicalBlock BtcDecode RawBlock = Some true ↔
   ∃ msg : string, BtcDecode RawBlock = decode_MessageError msg) ∧
  (BtcDecode RawBlock = decode_nil →
   testRejectedNonCanonicalBlock BtcDecode RawBlock = Some false).
Proof. apply testRejectedNonCanonicalBlock_passes_iff_aux. Qed.

Lemma testRejectedNonCanonicalBlock_witness :
  testRejectedNonCanonicalBlock toyDecode [] = Some true ∧
  testRejectedNonCanonicalBlock toyDecode (replicate 80 Byte.x00) = Some false.
Proof.
  split.
  - apply (proj1 (testRejectedNonCanonicalBlock_passes_iff toyDecode [])).
    by exists "unexpected EOF".
  - apply (proj2 (testRejectedNonCanonicalBlock_passes_iff toyDecode (replicate 80 Byte.x00))).
    reflexivity.
Defined.

(** ** The loop of the harness *)

Section TestFullBlocksLoop.

Context {MsgBlock Block Chain : Type}.
Context (NewBlock : MsgBlock -> Block).
Context (SetHeight : Block -> Z -> Block).
Context (chain_ProcessBlock : Chain -> Block -> BehaviorFlags -> Chain * ProcessResult).
Context (chain_IssuingKeys : Chain -> gset Z).
Context (chain_BestSnapshot : Chain -> Z * Z).
Context (BlockHash : MsgBlock -> Z).
Context (BtcDecode : list Byte.byte -> decodeError).

Local Abbreviation run1 := (runItem NewBlock SetHeight chain_ProcessBlock chain_IssuingKeys
                    chain_BestSnapshot BlockHash BtcDecode).
Local Abbreviation run := (runItems NewBlock SetHeight chain_ProcessBlock chain_IssuingKeys
                   chain_BestSnapshot BlockHash BtcDecode).
Local Abbreviation runAll := (runTests NewBlock SetHeight chain_ProcessBlock chain_IssuingKeys
                      chain_BestSnapshot BlockHash BtcDecode).

Lemma runItems_app_aux (chain : Chain) (xs ys : list (@TestInstance MsgBlock)) :
  run chain (xs ++ ys) =
    match run chain xs with
    | Some chain' => run chain' ys
    | None => None
    end.
Proof.
  revert chain. induction xs as [|x xs IH]; intros chain; simpl; [done|].
  destruct (run1 chain x) as [chain'|]; [apply IH|done].
Qed.

(** X12: the inner loop runs the instances in order on one chain
    instance and stops at the first failure: running [xs ++ ys] is running
    [xs] and then, if that passed, [ys] on the chain it left; if [xs]
    fails, nothing of [ys] is run. *)
Theorem runItems_app (chain : Chain) (xs ys : list (@TestInstance MsgBlock)) :
  run chain (xs ++ ys) =
    match run chain xs with
    | Some chain' => run chain' ys
    | None => None
    end.
Proof. apply runItems_app_aux. Qed.

(** X13: the two nested loops over [tests] behave as one loop over all
    instances in order: test boundaries change nothing. *)
Theorem runTests_concat (chain : Chain) (tests : list (list (@TestInstance MsgBlock))) :
  runAll chain tests = run chain (concat tests).
Proof.
  revert chain. induction tests as [|t ts IH]; intros chain; simpl; [done|].
  rewrite runItems_app_aux. destruct (run chain t) as [chain'|]; [apply IH|done].
Qed.

(** X14: a test that contains an instance of a type the switch does not
    list never passes, wherever the instance stands. *)
Theorem runItems_unsupported_instance (chain : Chain)
    (test : list (@TestInstance MsgBlock)) (typeName : string) :
  OtherInstance typeName ∈ test → run chain test = None.
Proof.
  revert chain. induction test as [|x xs IH]; intros chain Hin.
  - by apply elem_of_nil in Hin.
  - simpl. apply elem_of_cons in Hin as [<-|Hin]; [done|].
    destruct (run1 chain x) as [chain'|]; [by apply IH|done].
Qed.

(** X15: the instances that do not process a block leave the chain
    instance alone: a passing [ExpectedTip] or [RejectedNonCanonicalBlock]
    returns the chain it was given, and [ExpectedTip] passes exactly when
    the best snapshot has the hash and the height of the instance. *)
Theorem read_only_instances (chain chain' : Chain) (Name : string) (Height : Z) :
  (∀ blk : MsgBlock,
     runItem NewBlock SetHeight chain_ProcessBlock chain_IssuingKeys
       chain_BestSnapshot BlockHash BtcDecode chain
       (ExpectedTip Name blk Height) = Some chain' ↔
     chain' = chain ∧ chain_BestSnapshot chain = (BlockHash blk, Height)) ∧
  (∀ raw : list Byte.byte,
     runItem NewBlock SetHeight chain_ProcessBlock chain_IssuingKeys
       chain_BestSnapshot BlockHash BtcDecode chain
       (RejectedNonCanonicalBlock Name raw Height) = Some chain' ↔
     chain' = chain ∧ ∃ msg, BtcDecode raw = decode_MessageError msg).
Proof.
  split.
  - intros blk. simpl. unfold testExpectedTip.
    destruct (chain_BestSnapshot chain) as [h ht]. simpl.
    destruct (Z.eqb_spec h (BlockHash blk)) as [->|Hh]; simpl.
    + destruct (Z.eqb_spec ht Height) as [->|Hht]; simpl.
      * split; [by intros [= ->]|by intros [-> _]].
      * split; [done|]. intros [_ Heq]. injection Heq as Heq. done.
    + split; [done|]. intros [_ Heq]. injection Heq as Heq _. done.
  - intros raw. simpl.
    pose proof (testRejectedNonCanonicalBlock_passes_iff_aux BtcDecode raw) as [Hiff _].
    destruct (testRejectedNonCanonicalBlock BtcDecode raw) as [[|]|] eqn:Ht.
    + split; [intros [= ->]; split; [done|by apply Hiff]|by intros [-> _]].
    + split; [done|]. intros [_ Hm]. apply Hiff in Hm. discriminate Hm.
    + split; [done|]. intros [_ Hm]. apply Hiff in Hm. discriminate Hm.
Qed.

(** X17: an [OrphanOrRejectedBlock] instance passes only if
    [ProcessBlock] reported the block as an orphan: with a chain that
    returns [isOrphan = false] for the block, accepted or rejected, the
    instance stops the test. *)
Theorem orphan_or_rejected_needs_orphan_flag (chain : Chain) (blk : MsgBlock)
    (Height : Z) (Name : string) :
  snd (fst (snd (chain_ProcessBlock chain (SetHeight (NewBlock blk) Height) BFNone)))
    = false →
  runItem NewBlock SetHeight chain_ProcessBlock chain_IssuingKeys
       chain_BestSnapshot BlockHash BtcDecode chain
       (OrphanOrRejectedBlock Name blk Height) = None.
Proof.
  cbn [runItem].
  destruct (chain_ProcessBlock chain (SetHeight (NewBlock blk) Height) BFNone)
    as [chain' [[m o] err]]. cbn [fst snd]. intros ->.
  by rewrite (proj2 (testOrphanOrRejectedBlock_passes_iff_aux m false err) eq_refl).
Qed.

(** X18: the chain a passing test leaves behind is the chain that
    processing its block instances in order leaves behind: the
    expectations of the instances, their names, and the [ExpectedTip] and
    [RejectedNonCanonicalBlock] instances do not show in it. *)
Theorem passing_run_feeds_blocks (chain chain' : Chain)
    (test : list (@TestInstance MsgBlock)) :
  run chain test = Some chain' →
  chain' = foldl (fun c bh =>
                    fst (chain_ProcessBlock c (SetHeight (NewBlock (fst bh)) (snd bh)) BFNone))
                 chain (processedBlocks test).
Proof.
  revert chain. induction test as [|x xs IH]; intros chain H; simpl in H.
  - by injection H as <-.
  - destruct (run1 chain x) as [c1|] eqn:Hx; [|discriminate].
    rewrite (IH _ H). clear IH H. unfold processedBlocks.
    destruct x as [n blk h im io key|n blk h code|n raw h|n blk h|n blk h|t];
      cbn [runItem] in Hx; cbn [omap list_omap foldl fst snd].
    + destruct (chain_ProcessBlock chain (SetHeight (NewBlock blk) h) BFNone) as [c2 res].
      destruct (testAcceptedBlock _ _ _ _ _); [|discriminate]. by injection Hx as <-.
    + destruct (chain_ProcessBlock chain (SetHeight (NewBlock blk) h) BFNone) as [c2 res].
      destruct (testRejectedBlock _ _); [|discriminate]. by injection Hx as <-.
    + destruct (testRejectedNonCanonicalBlock _ _) as [[|]|]; try discriminate.
      by injection Hx as <-.
    + destruct (chain_ProcessBlock chain (SetHeight (NewBlock blk) h) BFNone) as [c2 res].
      destruct (testOrphanOrRejectedBlock _); [|discriminate]. by injection Hx as <-.
    + destruct (testExpectedTip _ _ _); [|discriminate]. by injection Hx as <-.
    + discriminate.
Qed.

End TestFullBlocksLoop.

Lemma runItems_unsupported_witness :
  toyRun genesisState
    [AcceptedBlock "b101" block101 1 true false None; OtherInstance "Unknown";
     ExpectedTip "b101" block101 1] = None.
Proof.
  apply (runItems_unsupported_instance (fun b => b) toySetHeight toyProcessBlock
           toyIssuingKeys toyBestSnapshot blkHash toyDecode genesisState _ "Unknown").
  set_solver.
Defined.

Lemma read_only_witness :
  runItem (fun b => b) toySetHeight toyProcessBlock toyIssuingKeys toyBestSnapshot
    blkHash toyDecode st101 (ExpectedTip "tip" block101 1) = Some st101.
Proof.
  apply (proj1 (read_only_instances (fun b => b) toySetHeight toyProcessBlock
                  toyIssuingKeys toyBestSnapshot blkHash toyDecode st101 st101 "tip" 1)
           block101).
  split; [reflexivity|]. vm_compute. reflexivity.
Defined.

Lemma orphan_or_rejected_witness :
  runItem (fun b => b) toySetHeight toyProcessBlock toyIssuingKeys toyBestSnapshot
    blkHash toyDecode st101 (OrphanOrRejectedBlock "b202" block202 2) = None.
Proof.
  apply (orphan_or_rejected_needs_orphan_flag (fun b => b) toySetHeight toyProcessBlock
           toyIssuingKeys toyBestSnapshot blkHash toyDecode st101 block202 2 "b202").
  vm_compute. reflexivity.
Defined.

Lemma passing_run_witness :
  st101 = foldl (fun c bh => fst (toyProcessBlock c (toySetHeight (fst bh) (snd bh)) BFNone))
                genesisState
                (processedBlocks
                   [RejectedNonCanonicalBlock "short" [] 1;
                    AcceptedBlock "b101" block101 1 true false (Some 6);
                    ExpectedTip "b101" block101 1;
                    RejectedBlock "b202" block202 2 ErrBadCheckpoint]).
Proof.
  apply (passing_run_feeds_blocks (fun b => b) toySetHeight toyProcessBlock
           toyIssuingKeys toyBestSnapshot blkHash toyDecode genesisState st101).
  vm_compute. reflexivity.
Defined.
